(** * tcp-json-proxy: the caching server and the caching proxy

    A shallow embedding of [server.py], [proxy.py] and the [request]
    function of [client.py], and the properties of the two cache layers
    and of the connections.

    Conventions of the embedding.
    - A Python [bytes] value is a [string] (one [ascii] per byte).  A
      Python [str] is the [string] holding its UTF-8 encoding, so that
      [decode("utf-8")] is a validity check and [encode("utf-8")] is the
      identity; comparing two [str] by code point is comparing their
      encodings byte by byte.  The one kind of [str] without a UTF-8
      encoding holds a lone surrogate, which [json.loads] builds from an
      escape such as [\ud800]: it is held as the three bytes of that
      code point, which are not valid UTF-8, and where such a text can
      reach an [encode] (the reply the proxy composes from a parsed
      one) the encoding is the check [encode_text], which raises.  The
      texts the libraries hand over (the messages of exceptions, the
      completion of the service) and the texts that were decoded hold no
      surrogate; their encoding is [encode_utf8].
    - An exception is a value of [exn]; fallible code returns [result].
      Only subclasses of [Exception] are modelled, which is what both
      [except Exception] guards of the source catch.
    - The Python library functions the source calls without defining
      them ([json.loads], [repr] of a float, the string escaping of
      [json.dumps] and the depth of nesting at which it gives up,
      [ast.parse], the arithmetic of [operator] and [math]) are the
      fields of the class [Runtime]; every theorem holds for every
      runtime.
    - The outside world (the clock, the text-completion service, the
      upstream server, the bytes a peer sends and the error that may end
      them) is an explicit argument.  Writes to a socket are taken to
      succeed and are recorded in order.
    - One worker is followed at a time.  The cache it shares with the
      other workers is part of its state, so a property of a turn holds
      from whatever state the others have left the cache in. *)

From Stdlib Require Import ZArith String Ascii List Lia DecimalString.
From Stdlib Require Import Floats Uint63.
From stdpp Require Import gmap strings sorting.

Set Warnings "-register-all".

Local Open Scope string_scope.
Local Open Scope Z_scope.

(** ** Exceptions and results *)

Inductive exn_class :=
  | JSONDecodeError | UnicodeDecodeError | AttributeError | ValueError
  | ZeroDivisionError | RuntimeError | OSError | SyntaxError | TypeError
  | OverflowError | RecursionError | UnicodeEncodeError | OtherException.

(** [exn_msg] is [str(e)], what an f-string prints for [{e}]. *)
Record exn := Exn { exn_cls : exn_class; exn_msg : string }.

Inductive result (A : Type) :=
  | Ok (a : A)
  | Raise (e : exn).
Arguments Ok {A} a.
Arguments Raise {A} e.

(** Sequencing: the first exception raised ends the computation.  With
    these instances [x ← r; k] is stdpp's notation for it. *)
#[export] Instance result_bind : MBind result := fun A B k r =>
  match r with
  | Ok a => k a
  | Raise e => Raise e
  end.
#[export] Instance result_ret : MRet result := fun A a => Ok a.

(** [try: r  except Exception as e: h e] *)
Definition try_except {A} (r : result A) (h : exn -> A) : A :=
  match r with
  | Ok a => a
  | Raise e => h e
  end.

Definition exn_class_eqb (a b : exn_class) : bool :=
  match a, b with
  | JSONDecodeError, JSONDecodeError | UnicodeDecodeError, UnicodeDecodeError
  | AttributeError, AttributeError | ValueError, ValueError
  | ZeroDivisionError, ZeroDivisionError | RuntimeError, RuntimeError
  | OSError, OSError | SyntaxError, SyntaxError | TypeError, TypeError
  | OverflowError, OverflowError | RecursionError, RecursionError
  | UnicodeEncodeError, UnicodeEncodeError
  | OtherException, OtherException => true
  | _, _ => false
  end.

(** ** Bytes and text *)

Abbreviation bytes := string (only parsing).
Abbreviation str := string (only parsing).

Definition NL : ascii := "010"%char.
Definition newline : string := String NL "".

(** [b"\n" in buffer] *)
Fixpoint has_newline (buffer : bytes) : bool :=
  match buffer with
  | EmptyString => false
  | String c rest => if Ascii.eqb c NL then true else has_newline rest
  end.

(** [buffer.partition(b"\n")]: the part before the first newline, the
    separator when there is one, and the part after it; [(buffer, b"", b"")]
    when there is none. *)
Fixpoint partition (buffer : bytes) : bytes * bytes * bytes :=
  match buffer with
  | EmptyString => ("", "", "")
  | String c rest =>
      if Ascii.eqb c NL then ("", newline, rest)
      else let '(line, sep, tl) := partition rest in (String c line, sep, tl)
  end.

(** *** UTF-8 *)

Definition byte_in (lo hi : N) (c : ascii) : bool :=
  ((lo <=? N_of_ascii c) && (N_of_ascii c <=? hi))%N.

Definition cont (c : ascii) : bool := byte_in 128 191 c.

(** Well-formed UTF-8 as CPython's strict decoder accepts it: shortest
    forms only, no surrogates, nothing above U+10FFFF. *)
Fixpoint utf8_valid (b : bytes) : bool :=
  match b with
  | EmptyString => true
  | String c0 r0 =>
      if byte_in 0 127 c0 then utf8_valid r0
      else match r0 with
      | EmptyString => false
      | String c1 r1 =>
          if byte_in 194 223 c0 then cont c1 && utf8_valid r1
          else match r1 with
          | EmptyString => false
          | String c2 r2 =>
              if byte_in 224 239 c0 then
                (if byte_in 224 224 c0 then byte_in 160 191 c1
                 else if byte_in 237 237 c0 then byte_in 128 159 c1
                 else cont c1) && cont c2 && utf8_valid r2
              else match r2 with
              | EmptyString => false
              | String c3 r3 =>
                  if byte_in 240 244 c0 then
                    (if byte_in 240 240 c0 then byte_in 144 191 c1
                     else if byte_in 244 244 c0 then byte_in 128 143 c1
                     else cont c1) && cont c2 && cont c3 && utf8_valid r3
                  else false
              end
          end
      end
  end.

(** *** Whitespace and [str.strip()]

    The code points for which [str.isspace()] holds, by the length of
    their encoding: U+0009..U+000D, U+001C..U+001F, U+0020; U+0085,
    U+00A0; U+1680, U+2000..U+200A, U+2028, U+2029, U+202F, U+205F,
    U+3000. *)
Definition is_space1 (a : ascii) : bool :=
  byte_in 9 13 a || byte_in 28 32 a.

Definition is_space2 (a b : ascii) : bool :=
  byte_in 194 194 a && (byte_in 133 133 b || byte_in 160 160 b).

Definition is_space3 (a b c : ascii) : bool :=
  (byte_in 225 225 a && byte_in 154 154 b && byte_in 128 128 c)
  || (byte_in 226 226 a && byte_in 128 128 b
      && (byte_in 128 138 c || byte_in 168 169 c || byte_in 175 175 c))
  || (byte_in 226 226 a && byte_in 129 129 b && byte_in 159 159 c)
  || (byte_in 227 227 a && byte_in 128 128 b && byte_in 128 128 c).

(** Drops leading white space; with [back] the string is read from its
    end, so the bytes of a code point arrive last byte first. *)
Fixpoint strip_front (back : bool) (s : string) : string :=
  match s with
  | EmptyString => ""
  | String a r1 =>
      if is_space1 a then strip_front back r1
      else match r1 with
      | EmptyString => s
      | String b r2 =>
          if negb back && is_space2 a b then strip_front back r2
          else if back && is_space2 b a then strip_front back r2
          else match r2 with
          | EmptyString => s
          | String c r3 =>
              if negb back && is_space3 a b c then strip_front back r3
              else if back && is_space3 c b a then strip_front back r3
              else s
          end
      end
  end.

Definition lstrip (s : str) : str := strip_front false s.
Definition rstrip (s : str) : str := String.rev (strip_front true (String.rev s)).

(** [s.strip()] *)
Definition strip (s : str) : str := rstrip (lstrip s).

(** A text made of white space only (the empty text included). *)
Inductive whitespace_only : str -> Prop :=
  | ws_empty : whitespace_only ""
  | ws_one a r : is_space1 a = true -> whitespace_only r ->
      whitespace_only (String a r)
  | ws_two a b r : is_space2 a b = true -> whitespace_only r ->
      whitespace_only (String a (String b r))
  | ws_three a b c r : is_space3 a b c = true -> whitespace_only r ->
      whitespace_only (String a (String b (String c r))).

(** [line.decode("utf-8")]; the wording of the error is the runtime's. *)
Definition decode_utf8 (errmsg : bytes -> str) (b : bytes) : result str :=
  if utf8_valid b then Ok b else Raise (Exn UnicodeDecodeError (errmsg b)).

(** [s.encode("utf-8")] of a text that holds no lone surrogate: one
    that was decoded, or that the program or a library has built. *)
Definition encode_utf8 (s : str) : bytes := s.

(** [s.encode("utf-8")] of a text that may hold a lone surrogate, as a
    text written by [json.dumps(..., ensure_ascii=False)] from a parsed
    value may: the encoder raises on it.  The wording of the error is
    the runtime's. *)
Definition encode_text (errmsg : str -> str) (s : str) : result bytes :=
  if utf8_valid s then Ok (encode_utf8 s)
  else Raise (Exn UnicodeEncodeError (errmsg s)).

(** ** Insertion-ordered dictionaries

    A Python [dict] (and an [OrderedDict]) is the list of its items in
    insertion order; its keys are pairwise distinct. *)
Section Dict.
Context {K A : Type} `{EqDecision K}.

Definition keys (d : list (K * A)) : list K := map fst d.

(** [d.get(k)] *)
Fixpoint dict_get (k : K) (d : list (K * A)) : option A :=
  match d with
  | [] => None
  | (k', v) :: d' => if decide (k' = k) then Some v else dict_get k d'
  end.

(** [k in d] *)
Definition dict_mem (k : K) (d : list (K * A)) : bool :=
  match dict_get k d with Some _ => true | None => false end.

(** [d[k] = v]: a key already present keeps its place, a new key goes
    to the end. *)
Fixpoint dict_set (k : K) (v : A) (d : list (K * A)) : list (K * A) :=
  match d with
  | [] => [(k, v)]
  | (k', v') :: d' =>
      if decide (k' = k) then (k, v) :: d' else (k', v') :: dict_set k v d'
  end.

(** [del d[k]] *)
Definition dict_del (k : K) (d : list (K * A)) : list (K * A) :=
  filter (fun kv => kv.1 <> k) d.

(** [OrderedDict.move_to_end(k)]; the source calls it on present keys
    only, on an absent key the dictionary is left as it is (Python
    raises [KeyError] there). *)
Definition move_to_end (k : K) (d : list (K * A)) : list (K * A) :=
  match dict_get k d with
  | Some v => (dict_del k d ++ [(k, v)])%list
  | None => d
  end.

(** [OrderedDict.popitem(last=False)]: removes the oldest item.  The
    source calls it right after an insertion, never on an empty
    dictionary (where Python raises [KeyError]). *)
Definition popitem_first (d : list (K * A)) : list (K * A) := tail d.
End Dict.

(** ** JSON values, as [json.loads] builds them *)

Inductive json :=
  | JNull                                  (* None *)
  | JBool (b : bool)
  | JInt (z : Z)
  | JFloat (f : float)
  | JStr (s : str)
  | JList (l : list json)
  | JDict (items : list (str * json)).

(** Keys are distinct in every dictionary of the value. *)
Fixpoint json_wf (j : json) : Prop :=
  match j with
  | JList l => fold_right (fun x P => json_wf x /\ P) True l
  | JDict items =>
      NoDup (keys items)
      /\ fold_right (fun kv P => json_wf kv.2 /\ P) True items
  | _ => True
  end.

(** How deep lists and dictionaries nest in a value. *)
Fixpoint depth (j : json) : nat :=
  match j with
  | JList l => S (fold_right (fun x n => Nat.max (depth x) n) O l)
  | JDict items => S (fold_right (fun kv n => Nat.max (depth kv.2) n) O items)
  | _ => O
  end.

(** [bool(j)] *)
Definition py_bool (j : json) : bool :=
  match j with
  | JNull => false
  | JBool b => b
  | JInt z => negb (z =? 0)
  | JFloat f => negb (PrimFloat.eqb f 0%float)
  | JStr s => negb (String.eqb s "")
  | JList l => match l with [] => false | _ => true end
  | JDict d => match d with [] => false | _ => true end
  end.

(** [a or b] *)
Definition py_or (a b : json) : json := if py_bool a then a else b.

(** [type(j).__name__] *)
Definition type_name (j : json) : str :=
  match j with
  | JNull => "NoneType" | JBool _ => "bool" | JInt _ => "int"
  | JFloat _ => "float" | JStr _ => "str" | JList _ => "list"
  | JDict _ => "dict"
  end.

Definition no_get (j : json) : exn :=
  Exn AttributeError ("'" +:+ type_name j +:+ "' object has no attribute 'get'").

(** [j.get(k, dflt)]: only a [dict] has the method. *)
Definition py_get_default (j : json) (k : str) (dflt : json) : result json :=
  match j with
  | JDict d => Ok (default dflt (dict_get k d))
  | _ => Raise (no_get j)
  end.

(** [j.get(k)] *)
Definition py_get (j : json) (k : str) : result json :=
  py_get_default j k JNull.

(** [isinstance(j, dict)] and [isinstance(j, str)] *)
Definition is_dict (j : json) : bool :=
  match j with JDict _ => true | _ => false end.
Definition is_str (j : json) : bool :=
  match j with JStr _ => true | _ => false end.

(** [j == s] for a string literal [s] *)
Definition eq_str (j : json) (s : str) : bool :=
  match j with JStr s' => String.eqb s' s | _ => false end.

(** ** The restricted expression trees of the calculator *)

Inductive constant :=
  | CInt (z : Z) | CFloat (f : float) | CBool (b : bool)
  | COther.                     (* str, bytes, complex, None, Ellipsis *)

Inductive unaryop := UAdd | USub | Not | Invert.

Inductive operator :=
  | Add | Sub | Mult | MatMult | Div | Mod | Pow | LShift | RShift
  | BitOr | BitXor | BitAnd | FloorDiv.

(** [ast] nodes of an expression.  [OtherNode] stands for every node
    class [_eval_node] does not test for (comparisons, lambdas,
    subscripts, starred arguments, ...); keyword arguments of a call are
    not looked at by the source and are left out. *)
Inductive expr :=
  | Constant (value : constant)
  | Name (id : str)
  | UnaryOp (op : unaryop) (operand : expr)
  | BinOp (lhs : expr) (op : operator) (rhs : expr)
  | Call (func : expr) (args : list expr)
  | OtherNode.

(** The numbers an evaluation passes around. *)
Inductive pynum :=
  | PyInt (z : Z)
  | PyFloat (f : float)
  | PyBool (b : bool)
  | PyComplex (re im : float).

(** The functions of [_ALLOWED_FUNCS]. *)
Inductive builtin :=
  | math_sin | math_cos | math_tan | math_sqrt | math_log | math_exp
  | py_max | py_min | py_abs.

(** ** The Python library underneath *)
Class Runtime := {
  (** [json.loads(s)] *)
  json_loads : str -> result json;
  (** how [json.dumps] writes a float: its [repr], or [NaN], [Infinity],
      [-Infinity] *)
  float_repr : float -> str;
  (** [json.encoder.encode_basestring_ascii] and [encode_basestring]:
      a string literal with its quotes, for [ensure_ascii] true and
      false *)
  encode_basestring_ascii : str -> str;
  encode_basestring : str -> str;
  (** the nesting of lists and dictionaries down to which [json.dumps]
      writes a value; on a deeper one the encoder has used up the
      interpreter's recursion limit and raises [RecursionError] *)
  dumps_max_depth : nat;
  (** [str(e)] of the [UnicodeDecodeError] for these bytes *)
  utf8_errmsg : bytes -> str;
  (** [str(e)] of the [UnicodeEncodeError] for this text *)
  utf8_encode_errmsg : str -> str;
  (** [ast.parse(s, mode="eval").body] *)
  ast_parse : str -> result expr;
  (** the functions of [operator] behind [_ALLOWED_OPS] *)
  operator_unary : unaryop -> pynum -> result pynum;
  operator_binary : operator -> pynum -> pynum -> result pynum;
  (** a call [f( *args )] of a function of [_ALLOWED_FUNCS] *)
  call_builtin : builtin -> list pynum -> result pynum;
  (** [float(x)] *)
  py_float : pynum -> result float
}.

(** ** [json.dumps] *)

(** [repr] of an [int] *)
Definition int_repr (z : Z) : str := NilZero.string_of_int (Z.to_int z).

(** Insertion sort by key, stable: what [sorted(d.items())] returns for
    items with distinct keys, where the first components decide every
    comparison. *)
Fixpoint insert_item {A} (x : str * A) (l : list (str * A)) : list (str * A) :=
  match l with
  | [] => [x]
  | y :: l' => if String.leb x.1 y.1 then x :: y :: l' else y :: insert_item x l'
  end.

Definition sort_items {A} (l : list (str * A)) : list (str * A) :=
  fold_right insert_item [] l.

Section Dumps.
Context {rt : Runtime}.

Definition encode_str (ensure_ascii : bool) (s : str) : str :=
  if ensure_ascii then encode_basestring_ascii s else encode_basestring s.

(** The text [json.dumps(j, ensure_ascii=..., sort_keys=...)] writes,
    with the default separators.  The values of a dictionary are
    written first and the items sorted after, which is the same text as
    sorting the items and writing them in that order
    ([dumps_dict_sorted_first]). *)
Fixpoint dumps (ensure_ascii sort_keys : bool) (j : json) : str :=
  match j with
  | JNull => "null"
  | JBool true => "true"
  | JBool false => "false"
  | JInt z => int_repr z
  | JFloat f => float_repr f
  | JStr s => encode_str ensure_ascii s
  | JList l =>
      "[" +:+ String.concat ", " (map (dumps ensure_ascii sort_keys) l) +:+ "]"
  | JDict items =>
      let written :=
        map (fun kv => (kv.1, dumps ensure_ascii sort_keys kv.2)) items in
      let ordered := if sort_keys then sort_items written else written in
      "{" +:+ String.concat ", "
                (map (fun kt => encode_str ensure_ascii kt.1 +:+ ": " +:+ kt.2)
                     ordered)
          +:+ "}"
  end.

(** [json.dumps(j, ensure_ascii=..., sort_keys=...)] of a value that
    [json.loads] has built: the text, or [RecursionError] when the
    value nests deeper than the encoder goes.  The values the programs
    build themselves (the envelopes) are two dictionaries deep and are
    written with [dumps]. *)
Definition json_dumps (ensure_ascii sort_keys : bool) (j : json) : result str :=
  if (depth j <=? dumps_max_depth)%nat then Ok (dumps ensure_ascii sort_keys j)
  else Raise (Exn RecursionError
                "maximum recursion depth exceeded while encoding a JSON object").
End Dumps.

(** ** server.py: the result cache *)

Module LRUCache.
Section Cache.
Context {K V : Type} `{EqDecision K}.

(** The object state: [self.capacity] and [self._d], oldest item
    first. *)
Record t := Make { capacity : Z; _d : list (K * V) }.

(** [LRUCache(capacity)] *)
Definition init (capacity : Z) : t := Make capacity [].

(** [get]: the value, or [None] for an absent key; a present key
    becomes the most recently used. *)
Definition get (key : K) (self : t) : option V * t :=
  if dict_mem key (_d self) then
    let d := move_to_end key (_d self) in
    (dict_get key d, Make (capacity self) d)
  else (None, self).

(** [set]: writes the item, makes it the most recently used, and
    removes the oldest item when the size has passed the capacity. *)
Definition set (key : K) (value : V) (self : t) : t :=
  let d1 := dict_set key value (_d self) in
  let d2 := move_to_end key d1 in
  if Z.of_nat (length d2) >? capacity self
  then Make (capacity self) (popitem_first d2)
  else Make (capacity self) d2.

(** Accesses to a cache, for stating properties of runs. *)
Inductive op := OpGet (key : K) | OpSet (key : K) (value : V).

Definition op_key (o : op) : K :=
  match o with OpGet k => k | OpSet k _ => k end.

Definition apply (self : t) (o : op) : t :=
  match o with
  | OpGet k => (get k self).2
  | OpSet k v => set k v self
  end.

Definition run (ops : list op) (self : t) : t := fold_left apply ops self.

(** The time of the last access to [k] in a run, counted from 1;
    0 when the run never touches [k]. *)
Fixpoint last_access (ops : list op) (k : K) : nat :=
  match ops with
  | [] => 0%nat
  | o :: ops' =>
      match last_access ops' k with
      | S n => S (S n)
      | O => if decide (op_key o = k) then 1%nat else 0%nat
      end
  end.

(** The dictionary lists its keys by the time of their last access,
    oldest first, and every key in it has been accessed. *)
Definition by_recency (ops : list op) (d : list (K * V)) : Prop :=
  StronglySorted
    (fun a b => (last_access ops a < last_access ops b)%nat) (keys d)
  /\ Forall (fun a => (0 < last_access ops a)%nat) (keys d).

(** A later access to a key: [None] reads it, [Some v] writes [v]. *)
Definition touch (k : K) (a : option V) : op :=
  match a with None => OpGet k | Some v => OpSet k v end.

(** Three insertions in order, with accesses to the first key
    between the first and the second ([a]) and between the second
    and the third ([b]). *)
Definition three_inserts (k1 : K) (v1 : V) (k2 : K) (v2 : V) (k3 : K)
    (v3 : V) (a b : list (option V)) : list op :=
  ([OpSet k1 v1] ++ map (touch k1) a ++ [OpSet k2 v2]
     ++ map (touch k1) b ++ [OpSet k3 v3])%list.

(** The eviction property in the spec's words: after the three
    insertions into a cache of capacity 2 the first key is gone
    exactly when it was not accessed again anywhere between its
    insertion and the third. *)
Definition evicted_iff_untouched (k1 : K) (v1 : V) (k2 : K) (v2 : V)
    (k3 : K) (v3 : V) (a b : list (option V)) : Prop :=
  dict_mem k1 (_d (run (three_inserts k1 v1 k2 v2 k3 v3 a b) (init 2))) = false
  <-> a = [] /\ b = [].
End Cache.
Arguments t : clear implicits.
Arguments op : clear implicits.
End LRUCache.

(** ** server.py: the calculator *)

Definition math_pi : float := 0x1.921fb54442d18p+1%float.
Definition math_e : float := 0x1.5bf0a8b145769p+1%float.

Definition _ALLOWED_FUNCS (name : str) : option builtin :=
  if String.eqb name "sin" then Some math_sin
  else if String.eqb name "cos" then Some math_cos
  else if String.eqb name "tan" then Some math_tan
  else if String.eqb name "sqrt" then Some math_sqrt
  else if String.eqb name "log" then Some math_log
  else if String.eqb name "exp" then Some math_exp
  else if String.eqb name "max" then Some py_max
  else if String.eqb name "min" then Some py_min
  else if String.eqb name "abs" then Some py_abs
  else None.

Definition _ALLOWED_CONSTS (name : str) : option pynum :=
  if String.eqb name "pi" then Some (PyFloat math_pi)
  else if String.eqb name "e" then Some (PyFloat math_e)
  else None.

(** [type(node.op) in _ALLOWED_OPS], for the two kinds of operator. *)
Definition allowed_unaryop (op : unaryop) : bool :=
  match op with USub | UAdd => true | _ => false end.

Definition allowed_operator (op : operator) : bool :=
  match op with
  | Add | Sub | Mult | Div | Pow | FloorDiv | Mod => true
  | _ => false
  end.

Section Calculator.
Context {rt : Runtime}.

(** The legacy [ast.Num] test of the source matches [Constant] nodes
    only, which the first test has already answered. *)
Fixpoint _eval_node (node : expr) : result pynum :=
  match node with
  | Constant value =>
      match value with
      | CInt z => Ok (PyInt z)
      | CFloat f => Ok (PyFloat f)
      | CBool b => Ok (PyBool b)
      | COther => Raise (Exn ValueError "illegal constant type")
      end
  | Name id =>
      match _ALLOWED_CONSTS id with
      | Some c => Ok c
      | None => Raise (Exn ValueError ("unknown symbol " +:+ id))
      end
  | UnaryOp op operand =>
      if allowed_unaryop op then
        x ← _eval_node operand; operator_unary op x
      else Raise (Exn ValueError "illegal expression")
  | BinOp lhs op rhs =>
      if allowed_operator op then
        x ← _eval_node lhs; y ← _eval_node rhs; operator_binary op x y
      else Raise (Exn ValueError "illegal expression")
  | Call func args =>
      match func with
      | Name id =>
          match _ALLOWED_FUNCS id with
          | Some f =>
              xs ← (fix eval_args (l : list expr) : result (list pynum) :=
                      match l with
                      | [] => Ok []
                      | a :: l' =>
                          x ← _eval_node a; xs ← eval_args l'; Ok (x :: xs)
                      end) args;
              call_builtin f xs
          | None => Raise (Exn ValueError "illegal function call")
          end
      | _ => Raise (Exn ValueError "illegal function call")
      end
  | OtherNode => Raise (Exn ValueError "illegal expression")
  end.

Definition safe_eval_expr (e : str) : result float :=
  tree ← ast_parse e; x ← _eval_node tree; py_float x.
End Calculator.

(** ** server.py: the text-completion delegate *)

(** What the call to the service does: it returns a response whose
    [text] is missing ([None]) or present, or something in the [try]
    block raises. *)
Inductive gpt_outcome :=
  | GptResponse (text : option str)
  | GptRaises (e : exn).

Definition call_gpt (outcome : gpt_outcome) : str :=
  match outcome with
  | GptResponse (Some text) =>
      if negb (String.eqb text "") then strip text
      else "[GPT] Empty response (model returned no text)."
  | GptResponse None => "[GPT] Empty response (model returned no text)."
  | GptRaises e => "[GPT-ERROR] " +:+ exn_msg e
  end.

(** ** server.py: one request *)

(** What [res] holds and the cache stores: the [float] of the
    calculator or the [str] of the delegate. *)
Inductive res := RFloat (f : float) | RStr (s : str).

Definition res_json (r : res) : json :=
  match r with RFloat f => JFloat f | RStr s => JStr s end.

(** The world one request sees: the elapsed time the clock shows when
    [took] is computed, and what the completion service does. *)
Record world := World { took_ms : Z; service : str -> gpt_outcome }.

Definition as_str (j : json) : str :=
  match j with JStr s => s | _ => "" end.

(** [{"ok": False, "error": message}] *)
Definition failure (message : str) : json :=
  JDict [("ok", JBool false); ("error", JStr message)].

(** [{"ok": True, "result": ..., "meta": {...}}]; on a miss both flags
    are false, on a hit both are true. *)
Definition success (result : json) (from_cache : bool) (took : Z) : json :=
  JDict [("ok", JBool true); ("result", result);
         ("meta", JDict [("from_cache", JBool from_cache);
                         ("any_cache", JBool from_cache);
                         ("took_ms", JInt took)])].

(** How a loop (or one turn of it) ends: it goes on with the state [c],
    or an exception leaves it in the state [c]. *)
Inductive progress (C : Type) :=
  | Continue (c : C)
  | Failed (c : C) (e : exn).
Arguments Continue {C} c.
Arguments Failed {C} c e.

(** [while b"\n" in buffer: turn], shared by the two workers: [buf]
    reads the framing buffer of a state and [turn] is the body of the
    loop.  Every turn takes a line off the buffer, so [fuel] above the
    length of the buffer is never used up ([while_lines_fuel]). *)
Fixpoint while_lines {C} (buf : C -> bytes) (turn : C -> progress C)
    (fuel : nat) (c : C) : progress C :=
  match fuel with
  | O => Continue c
  | S fuel' =>
      if has_newline (buf c) then
        match turn c with
        | Continue c' => while_lines buf turn fuel' c'
        | Failed c' e => Failed c' e
        end
      else Continue c
  end.

(** How a connection ends: [recv] returned no bytes, or the [except]
    branch ran. *)
Inductive closing (C : Type) :=
  | PeerClosed (c : C)
  | Aborted (c : C).
Arguments PeerClosed {C} c.
Arguments Aborted {C} c.

Section Server.
Context {rt : Runtime}.

(** [json.dumps(msg, sort_keys=True)] *)
Definition cache_key (msg : json) : result str := json_dumps true true msg.

Definition handle_request (w : world) (msg : json)
    (cache : LRUCache.t str res) : result (json * LRUCache.t str res) :=
  mode ← py_get msg "mode";
  d ← py_get msg "data";
  let data := py_or d (JDict []) in
  o ← py_get msg "options";
  let options := py_or o (JDict []) in
  c ← py_get_default options "cache" (JBool true);
  let use_cache := py_bool c in
  key ← cache_key msg;
  let '(hit, cache1) :=
    if use_cache then LRUCache.get key cache else (None, cache) in
  match hit with
  | Some value => Ok (success (res_json value) true (took_ms w), cache1)
  | None =>
      let finish (r : res) :=
        (success (res_json r) false (took_ms w),
         if use_cache then LRUCache.set key r cache1 else cache1) in
      let attempt : result (json * LRUCache.t str res) :=
        if eq_str mode "calc" then
          e ← py_get data "expr";
          if negb (py_bool e) || negb (is_str e) then
            Ok (failure "Bad request: 'expr' is required (string)", cache1)
          else r ← safe_eval_expr (as_str e); Ok (finish (RFloat r))
        else if eq_str mode "gpt" then
          p ← py_get data "prompt";
          if negb (py_bool p) || negb (is_str p) then
            Ok (failure "Bad request: 'prompt' is required (string)", cache1)
          else Ok (finish (RStr (call_gpt (service w (as_str p)))))
        else Ok (failure "Bad request: unknown mode", cache1) in
      Ok (try_except attempt
            (fun e => (failure ("Server error: " +:+ exn_msg e), cache1)))
  end.

(** *** One connection *)

(** The worker's variables: the framing buffer, the shared cache, the
    lines written to the client so far and the number of requests
    handled (the index of the next [world]). *)
Record conn := Conn {
  buffer : bytes;
  cache : LRUCache.t str res;
  sent : list bytes;
  handled : nat
}.

(** One turn of [while b"\n" in buffer], for a buffer that holds a
    complete line. *)
Definition serve_line (worlds : nat -> world) (c : conn) : progress conn :=
  let '(line, _, rest) := partition (buffer c) in
  let c1 := Conn rest (cache c) (sent c) (handled c) in
  match
    text ← decode_utf8 utf8_errmsg line;
    msg ← json_loads text;
    handle_request (worlds (handled c)) msg (cache c)
  with
  | Raise e => Failed c1 e
  | Ok (resp, cache') =>
      let reply := encode_utf8 (dumps false false resp +:+ newline) in
      Continue (Conn rest cache' (sent c ++ [reply])%list (S (handled c)))
  end.

(** The [while] loop: all the complete lines of the buffer. *)
Definition serve_buffer (worlds : nat -> world) (c : conn) : progress conn :=
  while_lines buffer (serve_line worlds) (S (String.length (buffer c))) c.

(** The [except] branch of [handle_client]: the envelope for the
    exception is written and the worker returns. *)
Definition on_exception (c : conn) (e : exn) : closing conn :=
  let err := failure ("Malformed: " +:+ exn_msg e) in
  let line := encode_utf8 (dumps true false err +:+ newline) in
  Aborted (Conn (buffer c) (cache c) (sent c ++ [line])%list (handled c)).

(** The [while True] loop of [handle_client]: [chunks] are the
    successive results of [recv]; after the last one [recv] returns no
    bytes, the peer has closed ([fin] is [None]), or it raises [fin],
    inside the [try] like everything else in the loop. *)
Fixpoint recv_loop (worlds : nat -> world) (chunks : list bytes)
    (fin : option exn) (c : conn) : closing conn :=
  match chunks with
  | [] => match fin with None => PeerClosed c | Some e => on_exception c e end
  | chunk :: more =>
      if String.eqb chunk "" then PeerClosed c
      else
        match serve_buffer worlds
                (Conn (buffer c +:+ chunk) (cache c) (sent c) (handled c)) with
        | Continue c' => recv_loop worlds more fin c'
        | Failed c' e => on_exception c' e
        end
  end.

Definition handle_client (worlds : nat -> world) (chunks : list bytes)
    (fin : option exn) (shared : LRUCache.t str res) : closing conn :=
  recv_loop worlds chunks fin (Conn "" shared [] 0).
End Server.

(** ** proxy.py *)

(** What the upstream does on one forward: the connection or the write
    fails, or it is accepted and [recv] returns [chunks] in order and
    then either no bytes (the server closed) or an error. *)
Inductive upstream_conn :=
  | Refused (e : exn)
  | Accepted (chunks : list bytes) (fin : option exn).

(** [while b"\n" not in buf: ...] of the forwarder *)
Fixpoint read_reply (buf : bytes) (chunks : list bytes) (fin : option exn)
    : result bytes :=
  if has_newline buf then Ok buf
  else match chunks with
       | [] => match fin with None => Ok buf | Some e => Raise e end
       | chunk :: more =>
           if String.eqb chunk "" then Ok buf
           else read_reply (buf +:+ chunk) more fin
       end.

Section Proxy.
Context {rt : Runtime}.

(** [server] is what the connection opened for this request does;
    the request line itself is written to it by the caller's world. *)
Definition forward_request_to_server (server : upstream_conn) : result str :=
  match server with
  | Refused e => Raise e
  | Accepted chunks fin =>
      buf ← read_reply "" chunks fin;
      let '(line, _, _) := partition buf in
      if String.eqb line "" then
        Raise (Exn RuntimeError "Empty response from server")
      else text ← decode_utf8 utf8_errmsg line; Ok (strip text)
  end.

(** [j[k] = v] *)
Definition py_setitem (j : json) (k : str) (v : json) : result json :=
  match j with
  | JDict d => Ok (JDict (dict_set k v d))
  | _ => Raise (Exn TypeError
           ("'" +:+ type_name j +:+ "' object does not support item assignment"))
  end.

(** The metadata step of [handle]: from the parsed reply to the object
    that is written back. *)
Definition compose_meta (resp_obj : json) (served_from_proxy_cache : bool)
    : result json :=
  m ← py_get resp_obj "meta";
  let meta := py_or m (JDict []) in
  let meta := if is_dict meta then meta else JDict [] in
  f ← py_get meta "from_cache";
  let server_from_cache := py_bool f in
  meta ← py_setitem meta "proxy_from_cache" (JBool served_from_proxy_cache);
  let any_cache := server_from_cache || served_from_proxy_cache in
  meta ← py_setitem meta "any_cache" (JBool any_cache);
  py_setitem resp_obj "meta" meta.

(** The key of the proxy cache for a client line. *)
Definition request_key (line : bytes) : result str :=
  text ← decode_utf8 utf8_errmsg line; Ok (strip text).

(** The proxy worker's variables: the framing buffer, [PROXY_CACHE],
    the lines written to the client, and the requests forwarded to the
    server so far, in order. *)
Record pconn := PConn {
  pbuffer : bytes;
  PROXY_CACHE : gmap string string;
  psent : list bytes;
  forwarded : list str
}.

(** [client_sock.sendall(wire)] *)
Definition send_bytes (c : pconn) (wire : bytes) : pconn :=
  PConn (pbuffer c) (PROXY_CACHE c) (psent c ++ [wire])%list (forwarded c).

(** [client_sock.sendall((text + "\n").encode("utf-8"))] for a text
    that was decoded: the reply as the forwarder returned it. *)
Definition send_line (c : pconn) (text : str) : pconn :=
  send_bytes c (encode_utf8 (text +:+ newline)).

(** [(json.dumps(resp_obj, ensure_ascii=False) + "\n").encode("utf-8")]:
    the line for a composed reply.  The object was parsed from the
    server's reply, so it may nest too deep for the encoder and its
    texts may hold a lone surrogate. *)
Definition composed_line (obj : json) : result bytes :=
  reply_str ← json_dumps false false obj;
  encode_text utf8_encode_errmsg (reply_str +:+ newline).

(** One turn of [while b"\n" in buffer], for a buffer that holds a
    complete line.  [upstream n req] is what the server does on the
    forward number [n] of this run, for the request [req]. *)
Definition relay_line (upstream : nat -> str -> upstream_conn) (c : pconn)
    : progress pconn :=
  let '(line, _, rest) := partition (pbuffer c) in
  let c1 := PConn rest (PROXY_CACHE c) (psent c) (forwarded c) in
  match request_key line with
  | Raise e => Failed c1 e
  | Ok req_str =>
      if String.eqb req_str "" then Continue c1
      else
        let '(r, served_from_proxy_cache, c2) :=
          match PROXY_CACHE c !! req_str with
          | Some reply_base => (Ok reply_base, true, c1)
          | None =>
              let r := forward_request_to_server
                         (upstream (length (forwarded c)) req_str) in
              let log := (forwarded c ++ [req_str])%list in
              let store :=
                match r with
                | Ok reply_base => <[req_str := reply_base]> (PROXY_CACHE c)
                | Raise _ => PROXY_CACHE c
                end in
              (r, false, PConn rest store (psent c) log)
          end in
        match r with
        | Raise e => Failed c2 e
        | Ok reply_base =>
            match json_loads reply_base with
            | Raise e =>
                if exn_class_eqb (exn_cls e) JSONDecodeError
                then Continue (send_line c2 reply_base)
                else Failed c2 e
            | Ok resp_obj =>
                match obj ← compose_meta resp_obj served_from_proxy_cache;
                      composed_line obj with
                | Raise e => Failed c2 e
                | Ok wire => Continue (send_bytes c2 wire)
                end
            end
        end
  end.

(** The [while] loop: all the complete lines of the buffer. *)
Definition relay_buffer (upstream : nat -> str -> upstream_conn) (c : pconn)
    : progress pconn :=
  while_lines pbuffer (relay_line upstream) (S (String.length (pbuffer c))) c.

(** The [except] branch of [handle]. *)
Definition pon_exception (c : pconn) (e : exn) : closing pconn :=
  let err := failure ("Proxy error: " +:+ exn_msg e) in
  let line := encode_utf8 (dumps true false err +:+ newline) in
  Aborted (PConn (pbuffer c) (PROXY_CACHE c) (psent c ++ [line])%list
                 (forwarded c)).

(** The [while True] loop of [handle]; [chunks] and [fin] as in the
    server's loop: [recv] is inside the [try] here too. *)
Fixpoint precv_loop (upstream : nat -> str -> upstream_conn)
    (chunks : list bytes) (fin : option exn) (c : pconn) : closing pconn :=
  match chunks with
  | [] => match fin with None => PeerClosed c | Some e => pon_exception c e end
  | chunk :: more =>
      if String.eqb chunk "" then PeerClosed c
      else
        match relay_buffer upstream
                (PConn (pbuffer c +:+ chunk) (PROXY_CACHE c) (psent c)
                       (forwarded c)) with
        | Continue c' => precv_loop upstream more fin c'
        | Failed c' e => pon_exception c' e
        end
  end.

(** [handle]: one client connection of the proxy, started on the
    shared cache as it is then. *)
Definition handle (upstream : nat -> str -> upstream_conn)
    (chunks : list bytes) (fin : option exn) (shared : gmap string string)
    : closing pconn :=
  precv_loop upstream chunks fin (PConn "" shared [] []).
End Proxy.

(** ** client.py *)

(** The loop of [request]: the first line of the reply as soon as the
    bytes received hold a newline, [None] when the peer closes first
    (what had arrived by then is dropped). *)
Fixpoint read_response (buff : bytes) (chunks : list bytes) (fin : option exn)
    : result (option bytes) :=
  match chunks with
  | [] => match fin with None => Ok None | Some e => Raise e end
  | chunk :: more =>
      if String.eqb chunk "" then Ok None
      else
        let buff := buff +:+ chunk in
        if has_newline buff then Ok (Some (partition buff).1.1)
        else read_response buff more fin
  end.

Section Client.
Context {rt : Runtime}.

(** [request(host, port, payload)]: [peer data] is what the peer at
    that address does once [data] has been written to it.  Nothing is
    caught: a failing connection, a reply that does not decode or does
    not parse raise to the caller.  [payload] is a dictionary the
    caller has built, two levels deep in [main], whose text
    [json.dumps] writes and [encode] accepts. *)
Definition request (peer : bytes -> upstream_conn) (payload : json) : result json :=
  let data := encode_utf8 (dumps false false payload +:+ newline) in
  match peer data with
  | Refused e => Raise e
  | Accepted chunks fin =>
      r ← read_response "" chunks fin;
      match r with
      | Some line => text ← decode_utf8 utf8_errmsg line; json_loads text
      | None => Ok (failure "No response")
      end
  end.
End Client.

(** ** Vocabulary of the properties *)

(** Two values that are equal but for the order in which the items of
    their dictionaries were inserted, at any depth. *)
Inductive same_up_to_key_order : json -> json -> Prop :=
  | same_null : same_up_to_key_order JNull JNull
  | same_bool b : same_up_to_key_order (JBool b) (JBool b)
  | same_int z : same_up_to_key_order (JInt z) (JInt z)
  | same_float f : same_up_to_key_order (JFloat f) (JFloat f)
  | same_str s : same_up_to_key_order (JStr s) (JStr s)
  | same_list l1 l2 :
      Forall2 same_up_to_key_order l1 l2 ->
      same_up_to_key_order (JList l1) (JList l2)
  | same_dict d1 d1' d2 :
      Permutation d1 d1' ->
      Forall2 (fun x y => x.1 = y.1 /\ same_up_to_key_order x.2 y.2) d1' d2 ->
      same_up_to_key_order (JDict d1) (JDict d2).

(** Items in strictly increasing order of their keys. *)
Definition key_lt {A} (x y : str * A) : Prop := String.compare x.1 y.1 = Lt.

(** What the proxy takes for [meta] in a parsed reply: the dictionary
    under ["meta"], or an empty one when there is none. *)
Definition reply_meta (reply : list (str * json)) : list (str * json) :=
  match dict_get "meta" reply with
  | Some (JDict m) => m
  | _ => []
  end.

(** [serverHit] as the code computes it: the truth value of
    [meta.from_cache], false when the field is absent. *)
Definition server_hit (reply : list (str * json)) : bool :=
  match dict_get "from_cache" (reply_meta reply) with
  | Some v => py_bool v
  | None => false
  end.

(** [serverHit] in the spec's words: the boolean [meta.from_cache],
    false when the field is absent or is not a boolean. *)
Definition server_hit_spec (reply : list (str * json)) : bool :=
  match dict_get "from_cache" (reply_meta reply) with
  | Some (JBool b) => b
  | _ => false
  end.

(** The state a turn or a loop ends in. *)
Definition state_of {C} (p : progress C) : C :=
  match p with Continue c => c | Failed c _ => c end.

(** [n] copies of a text, one after the other. *)
Fixpoint copies (n : nat) (s : string) : string :=
  match n with
  | O => ""
  | S n' => s +:+ copies n' s
  end.

(** [use_cache] of a request: the truth value of [options.cache], true
    when [options] or the field is absent. *)
Definition use_cache (msg : list (str * json)) : bool :=
  match dict_get "options" msg with
  | Some (JDict options) =>
      match dict_get "cache" options with
      | Some v => py_bool v
      | None => true
      end
  | _ => true
  end.

(** A request of the data model: the mode, the field of [data] that
    the mode requires as a non-empty string, and [options] absent or a
    dictionary. *)
Definition valid_request (mode field : str) (msg : list (str * json))
    (value : str) : Prop :=
  dict_get "mode" msg = Some (JStr mode)
  /\ (exists data, dict_get "data" msg = Some (JDict data)
                  /\ dict_get field data = Some (JStr value))
  /\ value <> ""
  /\ (dict_get "options" msg = None
      \/ exists options, dict_get "options" msg = Some (JDict options)).

Definition calc_request := valid_request "calc" "expr".
Definition gpt_request := valid_request "gpt" "prompt".

(** The text of the cache key of a message, and the messages for which
    [json.dumps] writes it: the ones that nest no deeper than the
    encoder goes. *)
Definition key_text {rt : Runtime} (msg : json) : str := dumps true true msg.

Definition key_derived {rt : Runtime} (msg : json) : Prop :=
  cache_key msg = Ok (key_text msg).
Arguments key_text : simpl never.

(** The request is not answered from the result cache: caching is off
    or the key is not there. *)
Definition reaches_evaluator {rt : Runtime} (msg : list (str * json))
    (cache : LRUCache.t str res) : Prop :=
  use_cache msg = false
  \/ dict_mem (key_text (JDict msg)) (LRUCache._d cache) = false.

(** The lookup that opens [handle_request], and the store that ends
    it. *)
Definition lookup_result {rt : Runtime} (msg : list (str * json))
    (cache : LRUCache.t str res) : option res * LRUCache.t str res :=
  if use_cache msg then LRUCache.get (key_text (JDict msg)) cache
  else (None, cache).

Definition store_result {rt : Runtime} (msg : list (str * json)) (r : res)
    (cache : LRUCache.t str res) : LRUCache.t str res :=
  if use_cache msg then LRUCache.set (key_text (JDict msg)) r cache else cache.

(** What CPython does on the three expressions of the spec's examples. *)
Record cpython_examples {rt : Runtime} : Prop := {
  parse_sum : ast_parse "1+2" = Ok (BinOp (Constant (CInt 1)) Add (Constant (CInt 2)));
  parse_sqrt : ast_parse "sqrt(9)" = Ok (Call (Name "sqrt") [Constant (CInt 9)]);
  parse_quotient :
    ast_parse "10/0" = Ok (BinOp (Constant (CInt 10)) Div (Constant (CInt 0)));
  add_1_2 : operator_binary Add (PyInt 1) (PyInt 2) = Ok (PyInt 3);
  float_3 : py_float (PyInt 3) = Ok 3%float;
  sqrt_9 : call_builtin math_sqrt [PyInt 9] = Ok (PyFloat 3%float);
  float_3' : py_float (PyFloat 3%float) = Ok 3%float;
  div_10_0 :
    operator_binary Div (PyInt 10) (PyInt 0) =
      Raise (Exn ZeroDivisionError "division by zero")
}.

(** The expressions inside the calculator's white list: numeric
    constants, the names and functions of the two tables, the operators
    of [_ALLOWED_OPS]. *)
Inductive whitelisted : expr -> Prop :=
  | wl_constant value : value <> COther -> whitelisted (Constant value)
  | wl_name id : is_Some (_ALLOWED_CONSTS id) -> whitelisted (Name id)
  | wl_unary op operand :
      allowed_unaryop op = true -> whitelisted operand ->
      whitelisted (UnaryOp op operand)
  | wl_binary lhs op rhs :
      allowed_operator op = true -> whitelisted lhs -> whitelisted rhs ->
      whitelisted (BinOp lhs op rhs)
  | wl_call id args :
      is_Some (_ALLOWED_FUNCS id) -> Forall whitelisted args ->
      whitelisted (Call (Name id) args).

(** More bytes arriving in the framing buffer of a worker. *)
Definition more_bytes (c : conn) (x : bytes) : conn :=
  Conn (buffer c +:+ x) (cache c) (sent c) (handled c).

Definition pmore_bytes (c : pconn) (x : bytes) : pconn :=
  PConn (pbuffer c +:+ x) (PROXY_CACHE c) (psent c) (forwarded c).

Definition map_progress {C} (f : C -> C) (p : progress C) : progress C :=
  match p with
  | Continue c => Continue (f c)
  | Failed c e => Failed (f c) e
  end.

(** What a connection leaves behind: whether it was aborted, the
    cache, the lines written and the work counted; the unread bytes of
    the buffer are not part of it. *)
Definition outcome (r : closing conn)
    : bool * LRUCache.t str res * list bytes * nat :=
  match r with
  | PeerClosed c => (false, cache c, sent c, handled c)
  | Aborted c => (true, cache c, sent c, handled c)
  end.

Definition poutcome (r : closing pconn)
    : bool * gmap string string * list bytes * list str :=
  match r with
  | PeerClosed c => (false, PROXY_CACHE c, psent c, forwarded c)
  | Aborted c => (true, PROXY_CACHE c, psent c, forwarded c)
  end.

(** The request carries no usable text under [field]: [data] is
    absent, or it is a dictionary where the field is absent, is not a
    string, or is the empty string. *)
Definition no_text (field : str) (msg : list (str * json)) : Prop :=
  dict_get "data" msg = None
  \/ exists data, dict_get "data" msg = Some (JDict data)
       /\ (dict_get field data = None
           \/ exists j, dict_get field data = Some j
                /\ (is_str j = false \/ j = JStr "")).

(** [options] is absent or a dictionary. *)
Definition plain_options (msg : list (str * json)) : Prop :=
  dict_get "options" msg = None
  \/ exists options, dict_get "options" msg = Some (JDict options).

(** The number of complete lines in a stretch of bytes. *)
Fixpoint count_newlines (b : bytes) : nat :=
  match b with
  | EmptyString => O
  | String c rest =>
      if Ascii.eqb c NL then S (count_newlines rest) else count_newlines rest
  end.

(** The bytes a peer sends over a connection, whatever the pieces
    [recv] returns them in. *)
Definition stream (chunks : list bytes) : bytes :=
  fold_right String.append "" chunks.

(** The counts of a connection between two lines, when [n] complete
    lines have been received: a reply was written for every request
    handled, and the lines not handled yet are in the buffer; and when
    a line has failed. *)
Definition counted (n : nat) (c : conn) : Prop :=
  length (sent c) = handled c
  /\ (handled c + count_newlines (buffer c) = n)%nat.

Definition stopped (n : nat) (c : conn) : Prop :=
  length (sent c) = handled c /\ (handled c < n)%nat.

(** The state a connection ends in. *)
Definition final {C} (r : closing C) : C :=
  match r with PeerClosed c => c | Aborted c => c end.

(** The proxy cache and the log of a connection that started on the
    cache [shared]: no entry of [shared] has changed, nothing was
    forwarded twice, and nothing that [shared] held was forwarded;
    between two lines, every request forwarded is in the cache. *)
Definition forwarded_fresh (shared : gmap string string) (c : pconn) : Prop :=
  shared ⊆ PROXY_CACHE c /\ NoDup (forwarded c)
  /\ forall k, k ∈ forwarded c -> shared !! k = None.

Definition forwarded_stored (shared : gmap string string) (c : pconn) : Prop :=
  forwarded_fresh shared c
  /\ forall k, k ∈ forwarded c -> is_Some (PROXY_CACHE c !! k).

(** ** A runtime for the examples

    The library functions on the inputs the examples below use, with
    CPython's answers there: whole numbers in arithmetic and in [repr],
    plain ASCII in string literals, and a table of parsed texts.  It
    only serves to run the definitions on concrete inputs; no theorem
    depends on it. *)
Module Fixture.

Definition dq : string := String (ascii_of_nat 34) "".
Definition quoted (s : str) : str := dq +:+ s +:+ dq.

Definition outside : exn := Exn OtherException "outside the examples".

(** Whole numbers up to 2^53 are floats exactly. *)
Definition float_of_Z (z : Z) : result float :=
  if Z.abs z <? 2 ^ 53 then
    let m := PrimFloat.of_uint63 (Uint63.of_Z (Z.abs z)) in
    Ok (if z <? 0 then PrimFloat.opp m else m)
  else Raise outside.

Definition whole (f : float) : option Z :=
  match Prim2SF f with
  | S754_zero _ => Some 0
  | S754_finite s m e =>
      let v := if 0 <=? e then Z.pos m * 2 ^ e
               else if Z.pos m mod 2 ^ (- e) =? 0 then Z.pos m / 2 ^ (- e)
               else 10 ^ 16 in
      if v <? 10 ^ 16 then Some (if s then - v else v) else None
  | _ => None
  end.

Definition show_float (f : float) : str :=
  match Prim2SF f with
  | S754_nan => "NaN"
  | S754_infinity false => "Infinity"
  | S754_infinity true => "-Infinity"
  | S754_zero true => "-0.0"
  | _ => match whole f with
         | Some z => int_repr z +:+ ".0"
         | None => "<float>"
         end
  end.

Definition binary (op : operator) (x y : pynum) : result pynum :=
  match op, x, y with
  | Add, PyInt a, PyInt b => Ok (PyInt (a + b))
  | Sub, PyInt a, PyInt b => Ok (PyInt (a - b))
  | Mult, PyInt a, PyInt b => Ok (PyInt (a * b))
  | Div, PyInt a, PyInt b =>
      if b =? 0 then Raise (Exn ZeroDivisionError "division by zero")
      else fa ← float_of_Z a; fb ← float_of_Z b; Ok (PyFloat (fa / fb)%float)
  | _, _, _ => Raise outside
  end.

Definition unary (op : unaryop) (x : pynum) : result pynum :=
  match op, x with
  | USub, PyInt a => Ok (PyInt (- a))
  | UAdd, PyInt a => Ok (PyInt a)
  | _, _ => Raise outside
  end.

Definition call (f : builtin) (args : list pynum) : result pynum :=
  match f, args with
  | math_sqrt, [PyInt a] =>
      if a <? 0 then Raise (Exn ValueError "math domain error")
      else fa ← float_of_Z a; Ok (PyFloat (PrimFloat.sqrt fa))
  | py_abs, [PyInt a] => Ok (PyInt (Z.abs a))
  | _, _ => Raise outside
  end.

Definition to_float (x : pynum) : result float :=
  match x with
  | PyInt a => float_of_Z a
  | PyFloat f => Ok f
  | PyBool b => Ok (if b then 1%float else 0%float)
  | PyComplex _ _ =>
      Raise (Exn TypeError "float() argument must be a string or a real number, not 'complex'")
  end.

Definition parse (e : str) : result expr :=
  if String.eqb e "1+2" then Ok (BinOp (Constant (CInt 1)) Add (Constant (CInt 2)))
  else if String.eqb e "sqrt(9)" then Ok (Call (Name "sqrt") [Constant (CInt 9)])
  else if String.eqb e "10/0" then Ok (BinOp (Constant (CInt 10)) Div (Constant (CInt 0)))
  else Raise (Exn SyntaxError "invalid syntax").

(** The request and reply texts of the examples and what they parse
    to. *)
Definition request_text (mode field value : str) : str :=
  "{" +:+ quoted "mode" +:+ ": " +:+ quoted mode +:+ ", " +:+ quoted "data"
  +:+ ": {" +:+ quoted field +:+ ": " +:+ quoted value +:+ "}}".

Definition request_msg (mode field value : str) : json :=
  JDict [("mode", JStr mode); ("data", JDict [(field, JStr value)])].

Definition reply_text : str :=
  "{" +:+ quoted "ok" +:+ ": true, " +:+ quoted "result" +:+ ": 3.0, "
  +:+ quoted "meta" +:+ ": {" +:+ quoted "from_cache" +:+ ": false, "
  +:+ quoted "any_cache" +:+ ": false, " +:+ quoted "took_ms" +:+ ": 0}}".

Definition loads (s : str) : result json :=
  if String.eqb s (request_text "calc" "expr" "1+2")
  then Ok (request_msg "calc" "expr" "1+2")
  else if String.eqb s (request_text "calc" "expr" "sqrt(9)")
  then Ok (request_msg "calc" "expr" "sqrt(9)")
  else if String.eqb s (request_text "calc" "expr" "10/0")
  then Ok (request_msg "calc" "expr" "10/0")
  else if String.eqb s (request_text "gpt" "prompt" "hi")
  then Ok (request_msg "gpt" "prompt" "hi")
  else if String.eqb s reply_text
  then Ok (success (JFloat 3%float) false 0)
  else Raise (Exn JSONDecodeError "Expecting value: line 1 column 1 (char 0)").

Definition runtime : Runtime := {|
  json_loads := loads;
  float_repr := show_float;
  encode_basestring_ascii := quoted;
  encode_basestring := quoted;
  dumps_max_depth := 990;
  utf8_errmsg := fun _ => "'utf-8' codec can't decode bytes";
  utf8_encode_errmsg := fun _ => "'utf-8' codec can't encode characters";
  ast_parse := parse;
  operator_unary := unary;
  operator_binary := binary;
  call_builtin := call;
  py_float := to_float
|}.

(** The completion service is down, and the clock shows no elapsed
    time. *)
Definition service_down (prompt : str) : gpt_outcome :=
  GptRaises (Exn OSError "503 The service is currently unavailable.").

Definition worlds (n : nat) : world := World 0 service_down.

(** An upstream that answers every request with [reply_text] in one
    chunk. *)
Definition upstream (n : nat) (req : str) : upstream_conn :=
  Accepted [reply_text +:+ newline] None.

End Fixture.

(** The same runtime with one more text in its table: the number 5,
    a text that is valid JSON and not an object. *)
Definition number_runtime : Runtime := {|
  json_loads := fun s =>
    if String.eqb s "5" then Ok (JInt 5) else Fixture.loads s;
  float_repr := Fixture.show_float;
  encode_basestring_ascii := Fixture.quoted;
  encode_basestring := Fixture.quoted;
  dumps_max_depth := 990;
  utf8_errmsg := fun _ => "'utf-8' codec can't decode bytes";
  utf8_encode_errmsg := fun _ => "'utf-8' codec can't encode characters";
  ast_parse := Fixture.parse;
  operator_unary := Fixture.unary;
  operator_binary := Fixture.binary;
  call_builtin := Fixture.call;
  py_float := Fixture.to_float
|}.

(** A text that holds the lone surrogate U+D800, as [json.loads]
    builds it from the escape [\ud800], and a value that nests [n]
    lists. *)
Definition lone_surrogate : str :=
  String (ascii_of_nat 237) (String (ascii_of_nat 160) (String (ascii_of_nat 128) "")).

Definition nested (n : nat) : json := Nat.iter n (fun j => JList [j]) JNull.

(** * Properties *)

(** ** Dictionaries *)

Section DictFacts.
Context {K A : Type} `{EqDecision K}.
Implicit Types (d : list (K * A)) (k : K) (v : A).

Lemma dict_get_None k d : dict_get k d = None <-> k ∉ keys d.
Proof.
  induction d as [|[k' v'] d IH]; simpl.
  - split; [intros _; apply not_elem_of_nil | done].
  - rewrite not_elem_of_cons. case_decide as Hk; [|by intuition].
    split; [done | intros [Hne _]; by destruct Hne].
Qed.

Lemma dict_get_Some_elem k v d : dict_get k d = Some v -> k ∈ keys d.
Proof.
  intros Hget. destruct (decide (k ∈ keys d)) as [|Hn]; [done|].
  apply dict_get_None in Hn. congruence.
Qed.

Lemma dict_mem_false k d : dict_mem k d = false <-> k ∉ keys d.
Proof.
  unfold dict_mem. rewrite <- dict_get_None. destruct (dict_get k d); naive_solver.
Qed.

Lemma dict_get_set_eq k v d : dict_get k (dict_set k v d) = Some v.
Proof.
  induction d as [|[k' v'] d IH]; simpl.
  - by rewrite decide_True.
  - case_decide; simpl; [by rewrite decide_True | by rewrite decide_False].
Qed.

Lemma dict_del_set k v d : dict_del k (dict_set k v d) = dict_del k d.
Proof.
  unfold dict_del. induction d as [|[k' v'] d IH]; simpl.
  - by rewrite filter_cons_False, filter_nil by (simpl; tauto).
  - case_decide as Hk; subst.
    + by rewrite !filter_cons_False by (simpl; tauto).
    + by rewrite !filter_cons_True, IH by done.
Qed.

Lemma dict_del_absent k d : k ∉ keys d -> dict_del k d = d.
Proof.
  unfold dict_del. induction d as [|[k' v'] d IH]; simpl; [done|].
  rewrite not_elem_of_cons. intros [Hne Hd].
  rewrite filter_cons_True by (simpl; congruence). by rewrite IH.
Qed.

Lemma keys_dict_del k d : keys (dict_del k d) = filter (fun k' => k' <> k) (keys d).
Proof.
  unfold dict_del, keys. induction d as [|[k' v'] d IH]; simpl; [done|].
  destruct (decide (k' = k)) as [->|Hne].
  - by rewrite !filter_cons_False by (simpl; tauto).
  - rewrite !filter_cons_True by done. simpl. by rewrite IH.
Qed.

(** Writing an item and moving it to the end, in one step. *)
Lemma move_to_end_set k v d :
  move_to_end k (dict_set k v d) = (dict_del k d ++ [(k, v)])%list.
Proof. unfold move_to_end. by rewrite dict_get_set_eq, dict_del_set. Qed.

Lemma dict_get_app_last k v d :
  k ∉ keys d -> dict_get k (d ++ [(k, v)])%list = Some v.
Proof.
  induction d as [|[k' v'] d IH]; simpl.
  - intros _. by rewrite decide_True.
  - rewrite not_elem_of_cons. intros [Hne Hd].
    rewrite decide_False by congruence. auto.
Qed.

Lemma keys_app d1 d2 : keys (d1 ++ d2)%list = (keys d1 ++ keys d2)%list.
Proof. apply map_app. Qed.
End DictFacts.

(** ** The result cache *)

Section LRUFacts.
Context {K V : Type} `{EqDecision K}.
Import LRUCache.
Implicit Types (c : LRUCache.t K V) (k : K) (v : V) (ops : list (op K V)).

Lemma capacity_get k c : capacity (get k c).2 = capacity c.
Proof. unfold get. by destruct (dict_mem k (_d c)). Qed.

Lemma capacity_set k v c : capacity (set k v c) = capacity c.
Proof. unfold set. by destruct (_ >? _). Qed.

Lemma capacity_run ops c : capacity (run ops c) = capacity c.
Proof.
  unfold run. revert c. induction ops as [|o ops IH]; intros c; simpl; [done|].
  rewrite IH. destruct o; simpl; [apply capacity_get | apply capacity_set].
Qed.

(** The three things an access can do to the dictionary. *)
Lemma get_absent k c : k ∉ keys (_d c) -> get k c = (None, c).
Proof. intros Hk. unfold get. by rewrite (proj2 (dict_mem_false _ _) Hk). Qed.

Lemma get_present k v c :
  dict_get k (_d c) = Some v ->
  _d (get k c).2 = (dict_del k (_d c) ++ [(k, v)])%list.
Proof.
  intros Hk. unfold get, dict_mem, move_to_end. by rewrite Hk.
Qed.

Lemma set_d k v c :
  _d (set k v c) =
    let d := (dict_del k (_d c) ++ [(k, v)])%list in
    if Z.of_nat (length d) >? capacity c then tail d else d.
Proof.
  unfold set. rewrite move_to_end_set. simpl. by destruct (_ >? _).
Qed.

Lemma run_snoc ops o c : run (ops ++ [o]) c = apply (run ops c) o.
Proof. unfold run. by rewrite fold_left_app. Qed.

Lemma last_access_le ops k : (last_access ops k <= length ops)%nat.
Proof.
  induction ops as [|o ops IH]; simpl; [lia|].
  destruct (last_access ops k); [case_decide|]; lia.
Qed.

Lemma last_access_snoc ops o k :
  last_access (ops ++ [o]) k =
    if decide (op_key o = k) then S (length ops) else last_access ops k.
Proof.
  induction ops as [|o' ops IH]; simpl.
  - by case_decide.
  - rewrite IH. case_decide; [done|].
    destruct (last_access ops k) eqn:E; [|done]. done.
Qed.

Lemma by_recency_tail ops d : by_recency ops d -> by_recency ops (tail d).
Proof.
  intros [Hs Hp]. destruct d as [|kv d]; simpl in *; [done|].
  inversion Hs; inversion Hp; subst. by split.
Qed.

Lemma by_recency_untouched ops o d :
  op_key o ∉ keys d -> by_recency ops d -> by_recency (ops ++ [o]) d.
Proof.
  intros Hk [Hs Hp].
  assert (Hsame : forall a, a ∈ keys d ->
            last_access (ops ++ [o]) a = last_access ops a).
  { intros a Ha. rewrite last_access_snoc. case_decide; [|done]. by subst. }
  clear Hk. induction d as [|[k v] d IH]; simpl in *.
  - split; constructor.
  - inversion Hs as [|? ? Hs' Hlt]; inversion Hp as [|? ? Hk Hp']; subst.
    destruct IH as [IH1 IH2]; [done..| |].
    { intros a Ha. apply Hsame. by right. }
    split; constructor; try done.
    + rewrite Forall_forall in Hlt |- *. intros a Ha.
      rewrite !Hsame; [by apply Hlt | by right | by left].
    + rewrite Hsame; [done | by left].
Qed.

Lemma by_recency_touch ops o v d :
  by_recency ops d ->
  by_recency (ops ++ [o]) (dict_del (op_key o) d ++ [(op_key o, v)])%list.
Proof.
  intros [Hs Hp]. set (k := op_key o).
  assert (Hlast : last_access (ops ++ [o]) k = S (length ops)).
  { rewrite last_access_snoc. by rewrite decide_True. }
  assert (Hold : forall a, a <> k ->
            last_access (ops ++ [o]) a = last_access ops a).
  { intros a Ha. rewrite last_access_snoc. by rewrite decide_False. }
  unfold by_recency. rewrite keys_app, keys_dict_del. simpl.
  induction (keys d) as [|a l IH]; simpl.
  - split; repeat constructor. lia.
  - inversion Hs as [|? ? Hs' Hlt]; inversion Hp as [|? ? Ha Hp']; subst.
    destruct (IH Hs' Hp') as [IH1 IH2].
    destruct (decide (a = k)) as [->|Hne].
    + by rewrite filter_cons_False by tauto.
    + rewrite filter_cons_True by done. simpl.
      split; constructor; try done.
      * rewrite Forall_app. split.
        -- rewrite Forall_forall in Hlt |- *. intros b Hb.
           apply list_elem_of_filter in Hb as [Hbk Hb].
           rewrite !Hold by done. by apply Hlt.
        -- constructor; [|constructor]. rewrite Hlast, Hold by done.
           pose proof (last_access_le ops a). lia.
      * by rewrite Hold.
Qed.

Lemma by_recency_apply ops o c :
  by_recency ops (_d c) -> by_recency (ops ++ [o]) (_d (apply c o)).
Proof.
  intros Hinv. destruct o as [k|k v]; simpl.
  - destruct (dict_get k (_d c)) as [v|] eqn:Hk.
    + rewrite (get_present _ _ _ Hk). by apply (by_recency_touch ops (OpGet k)).
    + apply dict_get_None in Hk. rewrite get_absent by done.
      by apply by_recency_untouched.
  - rewrite set_d. simpl.
    pose proof (by_recency_touch ops (OpSet k v) v _ Hinv) as Ht.
    destruct (_ >? _); [by apply by_recency_tail | done].
Qed.

(** Every dictionary reached from the empty one is ordered by
    recency. *)
Lemma by_recency_run ops cap : by_recency ops (_d (run ops (init cap))).
Proof.
  induction ops as [|o ops IH] using rev_ind.
  - split; constructor.
  - rewrite run_snoc. by apply by_recency_apply.
Qed.

Lemma by_recency_NoDup ops d : by_recency ops d -> NoDup (keys d).
Proof.
  intros [Hs _]. induction Hs as [|a l Hs IH Hlt]; constructor; [|done].
  intros Ha. rewrite Forall_forall in Hlt. specialize (Hlt _ Ha). lia.
Qed.

(** The size never passes a capacity that is not negative. *)
Lemma length_run ops cap :
  0 <= cap -> Z.of_nat (length (_d (run ops (init cap)))) <= cap.
Proof.
  intros Hcap. induction ops as [|o ops IH] using rev_ind; simpl; [lia|].
  rewrite run_snoc. set (c := run ops (init cap)) in *.
  assert (Hc : capacity c = cap) by apply capacity_run.
  destruct o as [k|k v]; simpl.
  - destruct (dict_get k (_d c)) as [v|] eqn:Hk.
    + rewrite (get_present _ _ _ Hk).
      assert (Hnd : NoDup (keys (_d c))) by (eapply by_recency_NoDup, by_recency_run).
      assert (length (dict_del k (_d c)) < length (_d c))%nat; [|rewrite length_app; simpl; lia].
      apply dict_get_Some_elem in Hk. clear -Hk.
      unfold dict_del. induction (_d c) as [|[k' v'] d IHd]; simpl in *.
      * by apply elem_of_nil in Hk.
      * destruct (decide (k' = k)) as [->|Hne].
        -- rewrite filter_cons_False by (simpl; tauto).
           pose proof (length_filter (fun kv : K * V => kv.1 <> k) d). lia.
        -- rewrite filter_cons_True by done. simpl.
           apply elem_of_cons in Hk as [?|Hk]; [congruence|]. apply IHd in Hk. lia.
    + apply dict_get_None in Hk. by rewrite get_absent.
  - rewrite set_d. simpl. rewrite Hc.
    pose proof (length_filter (fun kv : K * V => kv.1 <> k) (_d c)) as Hf.
    fold (dict_del k (_d c)) in Hf.
    assert (Hl : length (dict_del k (_d c) ++ [(k, v)]) = S (length (dict_del k (_d c))))
      by (rewrite length_app; simpl; lia).
    destruct (_ >? _) eqn:E.
    + destruct (dict_del k (_d c) ++ [(k, v)])%list; simpl in *; lia.
    + rewrite Z.gtb_ltb in E. apply Z.ltb_ge in E. lia.
Qed.
End LRUFacts.

Section LRUEviction.
Context {K V : Type} `{EqDecision K}.
Import LRUCache.
Implicit Types (c : LRUCache.t K V) (k : K) (v : V).

Lemma keys_get k c :
  keys (_d (get k c).2) =
    if dict_mem k (_d c)
    then (filter (fun k' => k' <> k) (keys (_d c)) ++ [k])%list
    else keys (_d c).
Proof.
  unfold get, dict_mem, move_to_end.
  destruct (dict_get k (_d c)); simpl; [|done].
  by rewrite keys_app, keys_dict_del.
Qed.

Lemma keys_set k v c :
  keys (_d (set k v c)) =
    let l := (filter (fun k' => k' <> k) (keys (_d c)) ++ [k])%list in
    if Z.of_nat (length l) >? capacity c then tail l else l.
Proof.
  rewrite set_d. simpl.
  assert (Hk : keys (dict_del k (_d c) ++ [(k, v)]) =
               (filter (fun k' => k' <> k) (keys (_d c)) ++ [k])%list)
    by (by rewrite keys_app, keys_dict_del).
  rewrite <- Hk. unfold keys at 2 3. rewrite length_map.
  destruct (_ >? _); [|done].
  by destruct (dict_del k (_d c) ++ [(k, v)])%list.
Qed.

Lemma keys_touch_present k x c l :
  keys (_d c) = l -> k ∈ l ->
  Z.of_nat (length l) <= capacity c ->
  keys (_d (apply c (touch k x))) = (filter (fun k' => k' <> k) l ++ [k])%list.
Proof.
  intros Hl Hk Hcap.
  assert (Hlen : (length (filter (fun k' => k' <> k) l ++ [k]) <= length l)%nat).
  { rewrite length_app. simpl. clear -Hk.
    induction l as [|a l IH]; [by apply elem_of_nil in Hk|].
    destruct (decide (a = k)) as [->|Hne].
    - rewrite filter_cons_False by tauto.
      pose proof (length_filter (fun k' => k' <> k) l). simpl. lia.
    - rewrite filter_cons_True by done. simpl.
      apply elem_of_cons in Hk as [?|Hk]; [congruence|]. apply IH in Hk. lia. }
  destruct x as [v|]; simpl.
  - rewrite keys_set, Hl. simpl.
    destruct (_ >? _) eqn:E; [|done].
    rewrite Z.gtb_ltb in E. apply Z.ltb_lt in E. lia.
  - rewrite keys_get, Hl.
    destruct (dict_mem k (_d c)) eqn:E; [done|].
    apply dict_mem_false in E. by rewrite Hl in E.
Qed.

Lemma capacity_apply c o : capacity (apply c o) = capacity c.
Proof. destruct o; simpl; [apply capacity_get | apply capacity_set]. Qed.

Lemma run_app ops1 ops2 c : run (ops1 ++ ops2) c = run ops2 (run ops1 c).
Proof. unfold run. apply fold_left_app. Qed.

Lemma run_cons o ops c : run (o :: ops) c = run ops (apply c o).
Proof. done. Qed.

Section Scenario.
Variables k1 k2 k3 : K.
Hypothesis (H12 : k1 <> k2) (H13 : k1 <> k3) (H23 : k2 <> k3).

(** While [k1] is alone, accesses to it change nothing. *)
Lemma touches_alone a c :
  capacity c = 2 -> keys (_d c) = [k1] ->
  keys (_d (run (map (touch k1) a) c)) = [k1].
Proof.
  revert c. induction a as [|x a IH]; intros c Hcap Hk; [done|].
  rewrite map_cons, run_cons. apply IH; [by rewrite capacity_apply|].
  rewrite (keys_touch_present k1 x c [k1]); [| done | by left | rewrite Hcap; simpl; lia].
  rewrite filter_cons_False by tauto. done.
Qed.

(** Once [k2] is in, the first access to [k1] puts [k1] behind
    [k2], where later accesses keep it. *)
Lemma touches_behind b c :
  capacity c = 2 -> keys (_d c) = [k2; k1] ->
  keys (_d (run (map (touch k1) b) c)) = [k2; k1].
Proof.
  revert c. induction b as [|x b IH]; intros c Hcap Hk; [done|].
  rewrite map_cons, run_cons. apply IH; [by rewrite capacity_apply|].
  rewrite (keys_touch_present k1 x c [k2; k1]);
    [| done | by right; left | rewrite Hcap; simpl; lia].
  rewrite filter_cons_True by congruence.
  rewrite filter_cons_False by tauto. done.
Qed.

Lemma touches_overtake x b c :
  capacity c = 2 -> keys (_d c) = [k1; k2] ->
  keys (_d (run (map (touch k1) (x :: b)) c)) = [k2; k1].
Proof.
  intros Hcap Hk. rewrite map_cons, run_cons.
  apply touches_behind; [by rewrite capacity_apply|].
  rewrite (keys_touch_present k1 x c [k1; k2]);
    [| done | by left | rewrite Hcap; simpl; lia].
  rewrite filter_cons_False by tauto.
  rewrite filter_cons_True by congruence. done.
Qed.

(** The keys left after the three insertions. *)
Lemma three_inserts_keys v1 v2 v3 a b :
  keys (_d (run (three_inserts k1 v1 k2 v2 k3 v3 a b) (init 2))) =
    match b with [] => [k2; k3] | _ => [k1; k3] end.
Proof.
  unfold three_inserts.
  rewrite !run_app.
  set (c1 := run [OpSet k1 v1] (init 2)).
  assert (Hc1 : capacity c1 = 2 /\ keys (_d c1) = [k1]).
  { split; [unfold c1; by rewrite capacity_run|].
    unfold c1. rewrite run_cons. change (run [] ?x) with x.
    cbn [apply]. by rewrite keys_set. }
  set (c2 := run (map (touch k1) a) c1).
  assert (Hc2 : capacity c2 = 2 /\ keys (_d c2) = [k1]).
  { split; [unfold c2; rewrite capacity_run; apply Hc1|].
    apply touches_alone; apply Hc1. }
  set (c3 := run [OpSet k2 v2] c2).
  assert (Hc3 : capacity c3 = 2 /\ keys (_d c3) = [k1; k2]).
  { split; [unfold c3; rewrite capacity_run; apply Hc2|].
    unfold c3. rewrite run_cons. change (run [] ?x) with x.
    cbn [apply]. rewrite keys_set. destruct Hc2 as [-> ->].
    rewrite filter_cons_True by done. done. }
  set (c4 := run (map (touch k1) b) c3).
  assert (Hc4 : capacity c4 = 2 /\
                keys (_d c4) = match b with [] => [k1; k2] | _ => [k2; k1] end).
  { split; [unfold c4; rewrite capacity_run; apply Hc3|].
    destruct b as [|x b]; [apply Hc3|].
    apply touches_overtake; apply Hc3. }
  rewrite run_cons. change (run [] ?x) with x.
  cbn [apply]. rewrite keys_set.
  destruct Hc4 as [-> ->]. destruct b as [|x b].
  - rewrite !filter_cons_True by congruence. done.
  - rewrite !filter_cons_True by congruence. done.
Qed.
End Scenario.
End LRUEviction.

Section LRUClaim.
Context {K V : Type} `{EqDecision K}.
Import LRUCache.

(** An insertion of a new key into a full cache removes the head of
    the dictionary and nothing else, and the head is the key whose
    last access is the oldest. *)
Lemma set_full_evicts_oldest (cap : Z) (ops : list (op K V)) (k : K) (v : V) :
  1 <= cap ->
  k ∉ keys (_d (run ops (init cap))) ->
  Z.of_nat (length (_d (run ops (init cap)))) = cap ->
  exists k0 v0 rest,
    _d (run ops (init cap)) = (k0, v0) :: rest
    /\ _d (set k v (run ops (init cap))) = (rest ++ [(k, v)])%list
    /\ Forall (fun k' => (last_access ops k0 < last_access ops k')%nat) (keys rest).
Proof.
  intros Hcap Hk Hfull.
  pose proof (by_recency_run ops cap) as [Hs _].
  pose proof (capacity_run ops (init cap)) as Hc. simpl in Hc.
  destruct (_d (run ops (init cap))) as [|[k0 v0] rest] eqn:Hd;
    [simpl in Hfull; lia|].
  exists k0, v0, rest. split; [done|]. split.
  - rewrite set_d, Hd, Hc. rewrite dict_del_absent by done. simpl.
    destruct (_ >? _) eqn:E; [done|].
    rewrite Z.gtb_ltb in E. apply Z.ltb_ge in E.
    rewrite length_app in E. simpl in *. lia.
  - simpl in Hs. by inversion Hs.
Qed.

(** A new key that fits is appended and nothing is removed. *)
Lemma set_room_keeps_all (c : LRUCache.t K V) (k : K) (v : V) :
  k ∉ keys (_d c) -> Z.of_nat (length (_d c)) < capacity c ->
  _d (set k v c) = (_d c ++ [(k, v)])%list.
Proof.
  intros Hk Hlen. rewrite set_d, dict_del_absent by done. simpl.
  destruct (_ >? _) eqn:E; [|done].
  rewrite Z.gtb_ltb in E. apply Z.ltb_lt in E.
  rewrite length_app in E. simpl in E. lia.
Qed.

(** C3 (as amended).  With capacity 2 and three distinct keys inserted
    in order, the first key is evicted by the third insertion exactly
    when it was not accessed again after the second insertion;
    accesses before the second insertion do not count.  Reading an
    evicted key returns nothing, and when the first key survives it is
    the second that goes.  In general an insertion of a new key into a
    full cache removes exactly one item, the one whose last access
    (by [get] or [set]) is the oldest. *)
Theorem lru_eviction (k1 k2 k3 : K) (v1 v2 v3 : V) (a b : list (option V)) :
  k1 <> k2 -> k1 <> k3 -> k2 <> k3 ->
  let c := run (three_inserts k1 v1 k2 v2 k3 v3 a b) (init 2) in
  (dict_mem k1 (_d c) = false <-> b = [])
  /\ (dict_mem k1 (_d c) = false -> (get k1 c).1 = None)
  /\ keys (_d c) = match b with [] => [k2; k3] | _ => [k1; k3] end
  /\ (forall (cap : Z) (ops : list (op K V)) (k : K) (v : V),
        1 <= cap ->
        k ∉ keys (_d (run ops (init cap))) ->
        Z.of_nat (length (_d (run ops (init cap)))) = cap ->
        exists k0 v0 rest,
          _d (run ops (init cap)) = (k0, v0) :: rest
          /\ _d (set k v (run ops (init cap))) = (rest ++ [(k, v)])%list
          /\ Forall (fun k' => (last_access ops k0 < last_access ops k')%nat)
               (keys rest)).
Proof.
  intros H12 H13 H23 c.
  pose proof (three_inserts_keys k1 k2 k3 H12 H13 H23 v1 v2 v3 a b) as Hkeys.
  fold c in Hkeys.
  split; [|split; [|split]].
  - rewrite dict_mem_false, Hkeys. destruct b; split; try done.
    + intros _. rewrite !not_elem_of_cons. repeat split; try done.
      apply not_elem_of_nil.
    + intros Hn. exfalso. apply Hn. by left.
  - intros Hm. apply dict_mem_false in Hm. by rewrite get_absent.
  - done.
  - intros cap ops k v. apply set_full_evicts_oldest.
Qed.
End LRUClaim.

Lemma lru_eviction_witness :
  "k1" <> "k2" /\ "k1" <> "k3" /\ "k2" <> "k3"
  /\ keys (LRUCache._d (LRUCache.run
        (LRUCache.three_inserts "k1" 1%nat "k2" 2%nat "k3" 3%nat [None] [Some 7%nat])
        (LRUCache.init 2))) = ["k1"; "k3"].
Proof.
  split; [done|]. split; [done|]. split; [done|].
  apply (lru_eviction "k1" "k2" "k3" 1%nat 2%nat 3%nat [None] [Some 7%nat]); done.
Defined.

(** C3, the claim as the spec words it, fails: the first key is read
    again right after its own insertion, so it was accessed between its
    insertion and the third, and the third insertion evicts it all the
    same. *)
Lemma lru_reaccess_before_second_insert_evicted :
  ~ LRUCache.evicted_iff_untouched "k1" 1%nat "k2" 2%nat "k3" 3%nat [None] [].
Proof.
  unfold LRUCache.evicted_iff_untouched. intros [Hev _].
  destruct Hev as [Ha _]; [by vm_compute | discriminate Ha].
Qed.

(** ** The canonical key *)

Lemma json_nested_ind (P : json -> Prop) :
  P JNull -> (forall b, P (JBool b)) -> (forall z, P (JInt z)) ->
  (forall f, P (JFloat f)) -> (forall s, P (JStr s)) ->
  (forall l, Forall P l -> P (JList l)) ->
  (forall d, Forall (fun kv => P kv.2) d -> P (JDict d)) ->
  forall j, P j.
Proof.
  intros Hn Hb Hz Hf Hs Hl Hd. fix IH 1.
  intros [ |b|z|f|s|l|d]; [exact Hn | apply Hb | apply Hz | apply Hf | apply Hs | | ].
  - apply Hl. revert l. fix IHl 1. intros [|x l]; constructor; [apply IH | apply IHl].
  - apply Hd. revert d. fix IHd 1. intros [|[k v] d]; constructor; [apply IH | apply IHd].
Qed.

Lemma json_wf_list l : json_wf (JList l) <-> Forall json_wf l.
Proof.
  simpl. induction l as [|x l IH]; simpl.
  - split; [constructor | done].
  - rewrite Forall_cons, IH. done.
Qed.

Lemma json_wf_dict d :
  json_wf (JDict d) <-> NoDup (keys d) /\ Forall (fun kv => json_wf kv.2) d.
Proof.
  simpl. apply and_iff_compat_l. induction d as [|x d IH]; simpl.
  - split; [constructor | done].
  - rewrite Forall_cons, IH. done.
Qed.

Lemma ascii_compare_N a b :
  Ascii.compare a b = N.compare (N_of_ascii a) (N_of_ascii b).
Proof. done. Qed.

Lemma string_compare_lt_trans s1 s2 s3 :
  String.compare s1 s2 = Lt -> String.compare s2 s3 = Lt ->
  String.compare s1 s3 = Lt.
Proof.
  revert s2 s3. induction s1 as [|a s1 IH]; intros [|b s2] [|c s3]; simpl; try done.
  rewrite !ascii_compare_N.
  destruct (N.compare_spec (N_of_ascii a) (N_of_ascii b)) as [Hab|Hab|Hab]; [| |done].
  - rewrite Hab.
    destruct (N.compare_spec (N_of_ascii b) (N_of_ascii c)); [apply IH| |]; done.
  - destruct (N.compare_spec (N_of_ascii b) (N_of_ascii c)) as [Hbc|Hbc|Hbc]; [| |done];
      intros _ _.
    + rewrite <- Hbc. by apply N.compare_lt_iff in Hab as ->.
    + assert (Hac : (N_of_ascii a < N_of_ascii c)%N) by lia.
      by apply N.compare_lt_iff in Hac as ->.
Qed.

Section SortItems.
Context {A : Type}.
Implicit Types (x y : str * A) (l : list (str * A)).

Lemma key_lt_trans x y z : key_lt x y -> key_lt y z -> key_lt x z.
Proof. apply string_compare_lt_trans. Qed.

Lemma key_lt_asym x y : key_lt x y -> key_lt y x -> False.
Proof.
  unfold key_lt. intros Hxy Hyx.
  rewrite String.compare_antisym, Hxy in Hyx. done.
Qed.

Lemma leb_key_lt x y : x.1 <> y.1 -> String.leb x.1 y.1 = true -> key_lt x y.
Proof.
  unfold String.leb, key_lt. intros Hne.
  destruct (String.compare x.1 y.1) eqn:E; try done.
  by apply String.compare_eq_iff in E.
Qed.

Lemma not_leb_key_lt x y : String.leb x.1 y.1 = false -> key_lt y x.
Proof.
  unfold String.leb, key_lt. rewrite (String.compare_antisym x.1 y.1).
  by destruct (String.compare y.1 x.1).
Qed.

Lemma insert_item_perm x l : insert_item x l ≡ₚ x :: l.
Proof.
  induction l as [|y l IH]; simpl; [done|].
  destruct (String.leb x.1 y.1); [done|].
  rewrite IH. apply perm_swap.
Qed.

Lemma sort_items_perm l : sort_items l ≡ₚ l.
Proof.
  induction l as [|x l IH]; simpl; [done|].
  by rewrite insert_item_perm, IH.
Qed.

Lemma insert_item_sorted x l :
  x.1 ∉ keys l -> StronglySorted key_lt l -> StronglySorted key_lt (insert_item x l).
Proof.
  induction l as [|y l IH]; simpl; intros Hk Hs.
  - repeat constructor.
  - apply not_elem_of_cons in Hk as [Hne Hk].
    apply StronglySorted_cons in Hs as [Hy Hs].
    destruct (String.leb x.1 y.1) eqn:E.
    + apply leb_key_lt in E; [|done].
      constructor; [by constructor|]. constructor; [done|].
      eapply Forall_impl; [exact Hy|]. intros z Hz. by eapply key_lt_trans.
    + apply not_leb_key_lt in E. constructor; [by apply IH|].
      rewrite insert_item_perm. by constructor.
Qed.

Lemma sort_items_sorted l :
  NoDup (keys l) -> StronglySorted key_lt (sort_items l).
Proof.
  induction l as [|x l IH]; simpl; intros Hnd; [constructor|].
  apply NoDup_cons in Hnd as [Hx Hnd].
  apply insert_item_sorted; [|by apply IH].
  unfold keys. by rewrite sort_items_perm.
Qed.

(** The order in which the items were inserted does not show in the
    sorted list. *)
Lemma sort_items_order_independent l l' :
  NoDup (keys l) -> l ≡ₚ l' -> sort_items l = sort_items l'.
Proof.
  intros Hnd Hp.
  apply (StronglySorted_unique_strong key_lt).
  - intros x y _ _ Hxy Hyx. destruct (key_lt_asym _ _ Hxy Hyx).
  - by apply sort_items_sorted.
  - apply sort_items_sorted. unfold keys. by rewrite <- Hp.
  - by rewrite !sort_items_perm.
Qed.
End SortItems.

Lemma insert_item_map {A B} (g : A -> B) (x : str * A) (l : list (str * A)) :
  insert_item (x.1, g x.2) (map (fun kv => (kv.1, g kv.2)) l) =
  map (fun kv => (kv.1, g kv.2)) (insert_item x l).
Proof.
  induction l as [|y l IH]; simpl; [done|].
  destruct (String.leb x.1 y.1); simpl; [done|]. by rewrite IH.
Qed.

(** Writing the values and then sorting is sorting and then writing. *)
Lemma sort_items_map {A B} (g : A -> B) (l : list (str * A)) :
  sort_items (map (fun kv => (kv.1, g kv.2)) l) =
  map (fun kv => (kv.1, g kv.2)) (sort_items l).
Proof.
  induction l as [|x l IH]; simpl; [done|].
  by rewrite IH, insert_item_map.
Qed.

Section CanonicalKey.
Context {rt : Runtime}.

(** The text [json.dumps] produces for a dictionary, with the items
    sorted before any value is written, as the encoder does it. *)
Lemma dumps_dict_sorted_first ensure_ascii d :
  dumps ensure_ascii true (JDict d) =
    "{" +:+ String.concat ", "
              (map (fun kv => encode_str ensure_ascii kv.1 +:+ ": "
                              +:+ dumps ensure_ascii true kv.2)
                   (sort_items d))
        +:+ "}".
Proof.
  simpl. rewrite (sort_items_map (dumps ensure_ascii true)).
  by rewrite map_map.
Qed.

Lemma dumps_order_independent ensure_ascii (a : json) :
  json_wf a -> forall b, same_up_to_key_order a b ->
  dumps ensure_ascii true a = dumps ensure_ascii true b.
Proof.
  induction a as [ | | | | |l IH|d IH] using json_nested_ind;
    intros Hwf b' Hsame; inversion Hsame; subst; try done.
  - (* lists *)
    simpl. do 3 f_equal.
    apply json_wf_list in Hwf. clear Hsame.
    match goal with Hf : Forall2 _ l _ |- _ => revert l2 Hf end.
    induction l as [|x l IHl]; intros l2 Hf; inversion Hf; subst; simpl; [done|].
    apply Forall_cons in IH as [IHx IH]. apply Forall_cons in Hwf as [Hx Hwf].
    f_equal; [by apply IHx | by apply IHl].
  - (* dictionaries *)
    apply json_wf_dict in Hwf as [Hnd Hwf].
    match goal with Hp : Permutation d _, Hf : Forall2 _ _ _ |- _ =>
      rename Hp into Hperm; rename Hf into Hitems end.
    simpl. do 4 f_equal.
    set (w := fun kv : str * json => (kv.1, dumps ensure_ascii true kv.2)).
    assert (Hw : map w d1' = map w d2).
    { rewrite Hperm in IH, Hwf. clear Hperm Hnd Hsame.
      induction Hitems as [|[k1 v1] [k2 v2] d1' d2 [Hk Hv] _ IHi]; simpl; [done|].
      simpl in *. subst. apply Forall_cons in IH as [IHx IH].
      apply Forall_cons in Hwf as [Hx Hwf].
      f_equal; [|by apply IHi]. unfold w. simpl. f_equal. by apply IHx. }
    rewrite <- Hw. apply sort_items_order_independent.
    + unfold keys, w. rewrite map_map. simpl. exact Hnd.
    + by apply Permutation_map.
Qed.

(** The order of the keys does not change how deep a value nests. *)
Lemma max_depth_perm (d1 d2 : list (str * json)) :
  Permutation d1 d2 ->
  fold_right (fun kv n => Nat.max (depth kv.2) n) O d1
  = fold_right (fun kv n => Nat.max (depth kv.2) n) O d2.
Proof.
  induction 1 as [|x d1 d2 _ IH|x y d|d1 d2 d3 _ IH1 _ IH2]; simpl;
    [done | by rewrite IH | lia | by rewrite IH1].
Qed.

Lemma depth_order_independent (a : json) :
  forall b, same_up_to_key_order a b -> depth a = depth b.
Proof.
  induction a as [ | | | | |l IH|d IH] using json_nested_ind;
    intros b' Hsame; inversion Hsame; subst; try done.
  - (* lists *)
    simpl. f_equal. clear Hsame.
    match goal with Hf : Forall2 _ l _ |- _ => revert l2 Hf end.
    induction l as [|x l IHl]; intros l2 Hf; inversion Hf; subst; simpl; [done|].
    apply Forall_cons in IH as [IHx IH].
    f_equal; [by apply IHx | by apply IHl].
  - (* dictionaries *)
    match goal with Hp : Permutation d _, Hf : Forall2 _ _ _ |- _ =>
      rename Hp into Hperm; rename Hf into Hitems end.
    simpl. f_equal. rewrite (max_depth_perm _ _ Hperm).
    rewrite Hperm in IH. clear Hperm Hsame.
    induction Hitems as [|[k1 v1] [k2 v2] d1' d2 [Hk Hv] _ IHi]; simpl; [done|].
    simpl in *. apply Forall_cons in IH as [IHx IH].
    f_equal; [by apply IHx | by apply IHi].
Qed.

(** C2.  Two requests that are equal up to the order in which the keys
    of their objects were inserted, at any depth, have the same cache
    key: [json.dumps] writes the same text for both, or gives up on
    both. *)
Theorem cache_key_order_independent (A B : json) :
  json_wf A -> same_up_to_key_order A B -> cache_key A = cache_key B.
Proof.
  intros Hwf Hsame. unfold cache_key, json_dumps.
  rewrite (depth_order_independent A B Hsame).
  by rewrite (dumps_order_independent true A Hwf B Hsame).
Qed.
End CanonicalKey.

(** ** Framing *)

Lemma partition_shrinks (b : bytes) :
  has_newline b = true ->
  (String.length (partition b).2 < String.length b)%nat.
Proof.
  induction b as [|c b IH]; simpl; [done|].
  destruct (Ascii.eqb c NL); simpl; [lia|].
  intros Hb. specialize (IH Hb).
  destruct (partition b) as [[line sep] tl]. simpl in *. lia.
Qed.

(** A buffer that starts with a complete line splits at the end of
    that line. *)
Lemma partition_line (line rest : bytes) :
  has_newline line = false ->
  has_newline (line +:+ newline +:+ rest) = true
  /\ partition (line +:+ newline +:+ rest) = (line, newline, rest).
Proof.
  induction line as [|c line IH]; simpl.
  - done.
  - destruct (Ascii.eqb c NL); [done|]. intros Hl.
    destruct (IH Hl) as [-> ->]. done.
Qed.

Section WhileLines.
Context {C : Type} (buf : C -> bytes) (turn : C -> progress C).
Hypothesis turn_shrinks : forall c c',
  has_newline (buf c) = true -> turn c = Continue c' ->
  (String.length (buf c') < String.length (buf c))%nat.

(** Fuel above the length of the buffer is as good as any other. *)
Lemma while_lines_fuel (fuel fuel' : nat) (c : C) :
  (String.length (buf c) < fuel)%nat -> (String.length (buf c) < fuel')%nat ->
  while_lines buf turn fuel c = while_lines buf turn fuel' c.
Proof.
  revert fuel' c. induction fuel as [|fuel IH]; intros [|fuel'] c Hf Hf'; try lia.
  simpl. destruct (has_newline (buf c)) eqn:Hnl; [|done].
  destruct (turn c) as [c'|c' e] eqn:Ht; [|done].
  pose proof (turn_shrinks c c' Hnl Ht). apply IH; lia.
Qed.

Lemma while_lines_S (fuel : nat) (c : C) :
  while_lines buf turn (S fuel) c =
    if has_newline (buf c) then
      match turn c with
      | Continue c' => while_lines buf turn fuel c'
      | Failed c' e => Failed c' e
      end
    else Continue c.
Proof. done. Qed.

(** The loop, one turn at a time. *)
Lemma while_lines_turn (c : C) :
  has_newline (buf c) = true ->
  while_lines buf turn (S (String.length (buf c))) c =
    match turn c with
    | Continue c' => while_lines buf turn (S (String.length (buf c'))) c'
    | Failed c' e => Failed c' e
    end.
Proof.
  intros Hnl. rewrite (while_lines_S (String.length (buf c)) c), Hnl.
  destruct (turn c) as [c'|c' e] eqn:Ht; [|done].
  pose proof (turn_shrinks c c' Hnl Ht). apply while_lines_fuel; lia.
Qed.

Lemma while_lines_exit (c : C) :
  has_newline (buf c) = false ->
  while_lines buf turn (S (String.length (buf c))) c = Continue c.
Proof. intros Hnl. simpl. by rewrite Hnl. Qed.

(** The loop is left without an exception only when no complete line
    remains: the fuel is never what stops it. *)
Lemma while_lines_drained (fuel : nat) (c c' : C) :
  (String.length (buf c) < fuel)%nat ->
  while_lines buf turn fuel c = Continue c' -> has_newline (buf c') = false.
Proof.
  revert c. induction fuel as [|fuel IH]; intros c Hf; [lia|]. simpl.
  destruct (has_newline (buf c)) eqn:Hnl; [|by intros [= <-]].
  destruct (turn c) as [c1|c1 e] eqn:Ht; [|done].
  pose proof (turn_shrinks c c1 Hnl Ht). apply IH. lia.
Qed.
End WhileLines.

(** ** The framing loops *)

Lemma append_nil_r (s : string) : s +:+ "" = s.
Proof.
  induction s as [|c s IH]; [done|].
  change (String c (s +:+ "") = String c s). by rewrite IH.
Qed.

Lemma append_nonempty (a b : string) : a <> "" -> a +:+ b <> "".
Proof. by destruct a. Qed.

Lemma has_newline_app (a b : bytes) :
  has_newline (a +:+ b) = has_newline a || has_newline b.
Proof.
  induction a as [|c a IH]; [done|].
  change (has_newline (String c (a +:+ b)) = has_newline (String c a) || has_newline b).
  simpl. by destruct (Ascii.eqb c NL).
Qed.

(** Bytes that arrive after a complete line do not change the line;
    they follow what was left after it. *)
Lemma partition_app (a b : bytes) :
  has_newline a = true ->
  partition (a +:+ b) = ((partition a).1.1, (partition a).1.2, (partition a).2 +:+ b).
Proof.
  induction a as [|c a IH]; [done|].
  change (String c a +:+ b) with (String c (a +:+ b)). simpl.
  destruct (Ascii.eqb c NL); [done|]. intros Hnl. rewrite (IH Hnl).
  by destruct (partition a) as [[line sep] rest].
Qed.

Lemma count_newlines_app (a b : bytes) :
  count_newlines (a +:+ b) = (count_newlines a + count_newlines b)%nat.
Proof.
  induction a as [|c a IH]; [done|].
  change (String c a +:+ b) with (String c (a +:+ b)). simpl.
  destruct (Ascii.eqb c NL); by rewrite IH.
Qed.

Lemma count_newlines_none (a : bytes) :
  has_newline a = false -> count_newlines a = O.
Proof.
  induction a as [|c a IH]; [done|]. simpl. by destruct (Ascii.eqb c NL).
Qed.

Lemma count_newlines_partition (a : bytes) :
  has_newline a = true -> count_newlines a = S (count_newlines (partition a).2).
Proof.
  induction a as [|c a IH]; [done|]. simpl.
  destruct (Ascii.eqb c NL); [done|]. intros Hnl. rewrite (IH Hnl).
  by destruct (partition a) as [[line sep] rest].
Qed.

Section LoopMore.
Context {C : Type} (buf : C -> bytes) (turn : C -> progress C).
Hypothesis turn_shrinks : forall c c',
  has_newline (buf c) = true -> turn c = Continue c' ->
  (String.length (buf c') < String.length (buf c))%nat.

(** What holds before the loop and is kept by every turn holds when
    the loop is left, and what every failing turn establishes holds
    when it fails. *)
Lemma while_lines_invariant (I J : C -> Prop) :
  (forall c c', has_newline (buf c) = true -> I c -> turn c = Continue c' -> I c') ->
  (forall c c' e, has_newline (buf c) = true -> I c -> turn c = Failed c' e -> J c') ->
  forall fuel c, I c ->
    match while_lines buf turn fuel c with
    | Continue c' => I c'
    | Failed c' _ => J c'
    end.
Proof.
  intros Hkeep Hfail fuel. induction fuel as [|fuel IH]; intros c Hc; [done|].
  simpl. destruct (has_newline (buf c)) eqn:Hnl; [|done].
  destruct (turn c) as [c'|c' e] eqn:Ht.
  - apply IH. by apply (Hkeep c).
  - by apply (Hfail c c' e).
Qed.

Context (grow : C -> bytes -> C).
Hypothesis buf_grow : forall c x, buf (grow c x) = buf c +:+ x.
Hypothesis turn_grow : forall c x,
  has_newline (buf c) = true ->
  turn (grow c x) = map_progress (fun c' => grow c' x) (turn c).

(** Running the loop on a buffer with more bytes at its end is running
    it on the buffer and then, with the bytes added, on what is left. *)
Lemma while_lines_grow (x : bytes) (fuel : nat) (c : C) :
  (String.length (buf c) < fuel)%nat ->
  while_lines buf turn (S (String.length (buf (grow c x)))) (grow c x) =
    match while_lines buf turn fuel c with
    | Continue c' =>
        while_lines buf turn (S (String.length (buf (grow c' x)))) (grow c' x)
    | Failed c' e => Failed (grow c' x) e
    end.
Proof.
  revert c. induction fuel as [|fuel IH]; intros c Hf; [lia|].
  rewrite (while_lines_S buf turn fuel c).
  destruct (has_newline (buf c)) eqn:Hnl; [|done].
  rewrite (while_lines_turn buf turn turn_shrinks (grow c x))
    by (by rewrite buf_grow, has_newline_app, Hnl).
  rewrite (turn_grow c x Hnl).
  destruct (turn c) as [c'|c' e] eqn:Ht; simpl; [|done].
  apply IH. pose proof (turn_shrinks c c' Hnl Ht). lia.
Qed.
End LoopMore.

(** ** White space *)

Lemma byte_in_spec lo hi c :
  byte_in lo hi c = true <-> (lo <= N_of_ascii c <= hi)%N.
Proof. unfold byte_in. rewrite andb_true_iff, !N.leb_le. done. Qed.

Lemma byte_in_false lo hi c :
  byte_in lo hi c = false <-> ~ (lo <= N_of_ascii c <= hi)%N.
Proof. rewrite <- byte_in_spec. by destruct (byte_in lo hi c). Qed.

Lemma is_space2_not_space1 a b : is_space2 a b = true -> is_space1 a = false.
Proof.
  unfold is_space2, is_space1. rewrite andb_true_iff, byte_in_spec.
  intros [Ha _]. apply orb_false_intro; apply byte_in_false; lia.
Qed.

Lemma is_space3_lead a b c :
  is_space3 a b c = true -> (225 <= N_of_ascii a <= 227)%N.
Proof.
  unfold is_space3. rewrite !orb_true_iff, !andb_true_iff, !byte_in_spec. lia.
Qed.

Lemma is_space3_not_space1 a b c : is_space3 a b c = true -> is_space1 a = false.
Proof.
  intros Ha%is_space3_lead. unfold is_space1.
  apply orb_false_intro; apply byte_in_false; lia.
Qed.

Lemma is_space3_not_space2 a b c : is_space3 a b c = true -> is_space2 a b = false.
Proof.
  intros Ha%is_space3_lead. unfold is_space2.
  apply andb_false_intro1, byte_in_false. lia.
Qed.

Lemma lstrip_whitespace_only (s : str) : whitespace_only s -> lstrip s = "".
Proof.
  unfold lstrip. induction 1 as [|a r Ha _ IH|a b r Hab _ IH|a b c r Habc _ IH]; simpl.
  - done.
  - by rewrite Ha.
  - by rewrite (is_space2_not_space1 a b Hab), Hab.
  - by rewrite (is_space3_not_space1 a b c Habc), (is_space3_not_space2 a b c Habc), Habc.
Qed.

(** [strip] leaves nothing of a text that is white space only. *)
Lemma strip_whitespace_only (s : str) : whitespace_only s -> strip s = "".
Proof. intros Hs. unfold strip. by rewrite lstrip_whitespace_only. Qed.

(** ** The proxy: metadata *)

Lemma dict_get_set_ne {A} (k k' : str) (v : A) (d : list (str * A)) :
  k <> k' -> dict_get k (dict_set k' v d) = dict_get k d.
Proof.
  intros Hne. induction d as [|[k0 v0] d IH]; simpl.
  - by rewrite decide_False.
  - destruct (decide (k0 = k')) as [->|Hk0]; simpl.
    + by rewrite !decide_False.
    + by rewrite IH.
Qed.

Lemma meta_or_empty (reply : list (str * json)) :
  (let meta := py_or (default JNull (dict_get "meta" reply)) (JDict []) in
   if is_dict meta then meta else JDict []) = JDict (reply_meta reply).
Proof.
  unfold reply_meta, py_or.
  destruct (dict_get "meta" reply) as [[ |b|z|f|s|l|m]|]; simpl; try done.
  - by destruct b.
  - by destruct (negb (z =? 0)).
  - by destruct (negb (f =? 0)%float).
  - by destruct (negb (s =? "")%string).
  - by destruct l.
  - by destruct m.
Qed.

(** The object [compose_meta] builds from a parsed reply that is a
    dictionary. *)
Lemma compose_meta_dict (reply : list (str * json)) (proxy_hit : bool) :
  compose_meta (JDict reply) proxy_hit =
    Ok (JDict (dict_set "meta"
                 (JDict (dict_set "any_cache" (JBool (server_hit reply || proxy_hit))
                           (dict_set "proxy_from_cache" (JBool proxy_hit)
                              (reply_meta reply))))
                 reply)).
Proof.
  unfold compose_meta. simpl.
  pose proof (meta_or_empty reply) as Hm. simpl in Hm. rewrite Hm. simpl.
  unfold server_hit. by destruct (dict_get "from_cache" (reply_meta reply)).
Qed.

(** A reply that parses to something else than a dictionary has no
    [get]: the metadata step raises. *)
Lemma compose_meta_not_dict (j : json) (proxy_hit : bool) :
  is_dict j = false -> compose_meta j proxy_hit = Raise (no_get j).
Proof. by destruct j. Qed.

(** C1, the claim as the spec words it, fails: the server's reply
    carries [from_cache: 1], which is not a boolean, so the spec's
    [serverHit] is false and with a proxy miss [any_cache] should be
    false; the proxy writes true. *)
Lemma non_boolean_from_cache_sets_any_cache :
  let reply := [("ok", JBool true); ("meta", JDict [("from_cache", JInt 1)])] in
  server_hit_spec reply || false = false
  /\ compose_meta (JDict reply) false =
       Ok (JDict [("ok", JBool true);
                  ("meta", JDict [("from_cache", JInt 1);
                                  ("proxy_from_cache", JBool false);
                                  ("any_cache", JBool true)])]).
Proof. split; reflexivity. Qed.

(** ** The proxy: one line *)

Section ProxyFacts.
Context {rt : Runtime}.
Implicit Types (c : pconn) (upstream : nat -> str -> upstream_conn).

(** Whatever a turn does, it has taken the first line off the buffer. *)
Lemma relay_line_buffer upstream c :
  pbuffer (state_of (relay_line upstream c)) = (partition (pbuffer c)).2.
Proof.
  unfold relay_line. destruct (partition (pbuffer c)) as [[line sep] rest]. simpl.
  destruct (request_key line) as [key|e]; [|done].
  destruct (String.eqb key ""); [done|].
  destruct (PROXY_CACHE c !! key) as [base|].
  - destruct (json_loads base) as [obj|e].
    + by destruct (compose_meta obj true ≫= _).
    + by destruct (exn_class_eqb _ _).
  - destruct (forward_request_to_server _) as [base|e]; [|done].
    destruct (json_loads base) as [obj|e].
    + by destruct (compose_meta obj false ≫= _).
    + by destruct (exn_class_eqb _ _).
Qed.

Lemma relay_line_shrinks upstream c c' :
  has_newline (pbuffer c) = true -> relay_line upstream c = Continue c' ->
  (String.length (pbuffer c') < String.length (pbuffer c))%nat.
Proof.
  intros Hnl Hc. pose proof (relay_line_buffer upstream c) as Hb.
  rewrite Hc in Hb. simpl in Hb. rewrite Hb. by apply partition_shrinks.
Qed.

(** The loop of the proxy, one line at a time. *)
Lemma relay_buffer_turn upstream c :
  has_newline (pbuffer c) = true ->
  relay_buffer upstream c =
    match relay_line upstream c with
    | Continue c' => relay_buffer upstream c'
    | Failed c' e => Failed c' e
    end.
Proof. apply while_lines_turn, relay_line_shrinks. Qed.

Lemma relay_buffer_exit upstream c :
  has_newline (pbuffer c) = false -> relay_buffer upstream c = Continue c.
Proof. apply while_lines_exit. Qed.

(** A turn on a line whose key is in the cache. *)
Lemma relay_line_hit upstream c line rest key base :
  has_newline line = false -> pbuffer c = line +:+ newline +:+ rest ->
  request_key line = Ok key -> key <> "" ->
  PROXY_CACHE c !! key = Some base ->
  relay_line upstream c =
    let c1 := PConn rest (PROXY_CACHE c) (psent c) (forwarded c) in
    match json_loads base with
    | Raise e =>
        if exn_class_eqb (exn_cls e) JSONDecodeError
        then Continue (send_line c1 base) else Failed c1 e
    | Ok resp_obj =>
        match obj ← compose_meta resp_obj true; composed_line obj with
        | Raise e => Failed c1 e
        | Ok wire => Continue (send_bytes c1 wire)
        end
    end.
Proof.
  intros Hline Hbuf Hkey Hne Hhit. unfold relay_line.
  rewrite Hbuf. destruct (partition_line line rest Hline) as [_ ->].
  rewrite Hkey. apply String.eqb_neq in Hne. rewrite Hne, Hhit. done.
Qed.

(** A turn on a line whose key is not in the cache. *)
Lemma relay_line_miss upstream c line rest key :
  has_newline line = false -> pbuffer c = line +:+ newline +:+ rest ->
  request_key line = Ok key -> key <> "" ->
  PROXY_CACHE c !! key = None ->
  relay_line upstream c =
    let log := (forwarded c ++ [key])%list in
    match forward_request_to_server (upstream (length (forwarded c)) key) with
    | Raise e => Failed (PConn rest (PROXY_CACHE c) (psent c) log) e
    | Ok base =>
        let c2 := PConn rest (<[key := base]> (PROXY_CACHE c)) (psent c) log in
        match json_loads base with
        | Raise e =>
            if exn_class_eqb (exn_cls e) JSONDecodeError
            then Continue (send_line c2 base) else Failed c2 e
        | Ok resp_obj =>
            match obj ← compose_meta resp_obj false; composed_line obj with
            | Raise e => Failed c2 e
            | Ok wire => Continue (send_bytes c2 wire)
            end
        end
    end.
Proof.
  intros Hline Hbuf Hkey Hne Hmiss. unfold relay_line.
  rewrite Hbuf. destruct (partition_line line rest Hline) as [_ ->].
  rewrite Hkey. apply String.eqb_neq in Hne. rewrite Hne, Hmiss. simpl.
  by destruct (forward_request_to_server _).
Qed.

Lemma request_key_decoded line text :
  decode_utf8 utf8_errmsg line = Ok text -> request_key line = Ok (strip text).
Proof. unfold request_key. by intros ->. Qed.

(** C10.  A client line that decodes to an empty or white-space-only
    text is skipped: the turn writes nothing to the client, forwards
    nothing, leaves the cache as it is, and the loop goes on with the
    rest of the buffer. *)
Theorem blank_line_skipped upstream c line rest text :
  has_newline line = false -> pbuffer c = line +:+ newline +:+ rest ->
  decode_utf8 utf8_errmsg line = Ok text -> whitespace_only text ->
  let c' := PConn rest (PROXY_CACHE c) (psent c) (forwarded c) in
  relay_line upstream c = Continue c'
  /\ relay_buffer upstream c = relay_buffer upstream c'.
Proof.
  intros Hline Hbuf Hdec Hws c'.
  assert (Hturn : relay_line upstream c = Continue c').
  { unfold relay_line. rewrite Hbuf.
    destruct (partition_line line rest Hline) as [_ ->].
    rewrite (request_key_decoded _ _ Hdec), (strip_whitespace_only _ Hws). done. }
  split; [done|].
  rewrite relay_buffer_turn, Hturn; [done|].
  rewrite Hbuf. by apply partition_line.
Qed.

(** C5 (as amended).  The key under which a reply is looked up and
    stored is the client's line decoded and stripped of the white space
    around it, and nothing else is done to it: on a hit nothing is
    forwarded and the cache is unchanged, on a miss that very text is
    forwarded and, when the server answers, the answer is stored under
    it.  Two lines are the same key exactly when their stripped texts
    are equal. *)
Theorem proxy_key_is_stripped_line upstream c line rest text :
  has_newline line = false -> pbuffer c = line +:+ newline +:+ rest ->
  decode_utf8 utf8_errmsg line = Ok text -> strip text <> "" ->
  let c' := state_of (relay_line upstream c) in
  request_key line = Ok (strip text)
  /\ match PROXY_CACHE c !! strip text with
     | Some _ => forwarded c' = forwarded c /\ PROXY_CACHE c' = PROXY_CACHE c
     | None =>
         forwarded c' = (forwarded c ++ [strip text])%list
         /\ PROXY_CACHE c' =
              match forward_request_to_server
                      (upstream (length (forwarded c)) (strip text)) with
              | Ok base => <[strip text := base]> (PROXY_CACHE c)
              | Raise _ => PROXY_CACHE c
              end
     end
  /\ (forall line2 text2, decode_utf8 utf8_errmsg line2 = Ok text2 ->
        request_key line2 = request_key line <-> strip text2 = strip text).
Proof.
  intros Hline Hbuf Hdec Hne c'.
  pose proof (request_key_decoded _ _ Hdec) as Hkey.
  split; [done|]. split.
  - subst c'. destruct (PROXY_CACHE c !! strip text) as [base|] eqn:Hc.
    + rewrite (relay_line_hit upstream c line rest (strip text) base); try done. simpl.
      destruct (json_loads base) as [obj|e].
      * by destruct (compose_meta obj true ≫= _).
      * by destruct (exn_class_eqb _ _).
    + rewrite (relay_line_miss upstream c line rest (strip text)); try done. simpl.
      destruct (forward_request_to_server _) as [base|e]; [|done].
      destruct (json_loads base) as [obj|e].
      * by destruct (compose_meta obj false ≫= _).
      * by destruct (exn_class_eqb _ _).
  - intros line2 text2 Hdec2.
    rewrite Hkey, (request_key_decoded _ _ Hdec2). split; [by intros [= ->]|by intros ->].
Qed.
End ProxyFacts.

Section ComposedReply.
Context {rt : Runtime}.

(** The line of a composed reply, when there is one, is the text of
    [json.dumps] and a newline. *)
Lemma composed_line_text (obj : json) (wire : bytes) :
  composed_line obj = Ok wire ->
  wire = encode_utf8 (dumps false false obj +:+ newline).
Proof.
  unfold composed_line, json_dumps, encode_text.
  destruct (depth obj <=? dumps_max_depth)%nat; [|done]. simpl.
  destruct (utf8_valid _); [|done]. by intros [= <-].
Qed.

(** C1 (as amended).  For a reply that parses to a JSON object and for
    both values of [proxy_hit], the composed reply has [meta.any_cache]
    equal to [server_hit || proxy_hit] and [meta.proxy_from_cache] equal
    to [proxy_hit], where [server_hit] is the truth value of
    [meta.from_cache] as Python's [bool] gives it (false when the field
    or [meta] is absent); it is the field itself when the field is a
    boolean.  The composed reply is the line the proxy writes to the
    client, with [proxy_hit] true when the reply came from the proxy
    cache and false when it came from the forwarder, when [json.dumps]
    writes the composed reply and the text encodes; when one of the
    two raises, the turn fails with that exception and has written
    nothing. *)
Theorem composed_flags (reply : list (str * json)) (proxy_hit : bool) :
  exists obj meta,
    compose_meta (JDict reply) proxy_hit = Ok (JDict obj)
    /\ dict_get "meta" obj = Some (JDict meta)
    /\ dict_get "any_cache" meta = Some (JBool (server_hit reply || proxy_hit))
    /\ dict_get "proxy_from_cache" meta = Some (JBool proxy_hit)
    /\ (forall b, dict_get "from_cache" (reply_meta reply) = Some (JBool b) ->
          server_hit reply = b)
    /\ (dict_get "from_cache" (reply_meta reply) = None -> server_hit reply = false)
    /\ (forall upstream c line rest key base,
          has_newline line = false -> pbuffer c = line +:+ newline +:+ rest ->
          request_key line = Ok key -> key <> "" ->
          json_loads base = Ok (JDict reply) ->
          (if proxy_hit then PROXY_CACHE c !! key = Some base
           else PROXY_CACHE c !! key = None
                /\ forward_request_to_server (upstream (length (forwarded c)) key)
                   = Ok base) ->
          match composed_line (JDict obj) with
          | Ok wire =>
              wire = encode_utf8 (dumps false false (JDict obj) +:+ newline)
              /\ psent (state_of (relay_line upstream c)) = (psent c ++ [wire])%list
          | Raise e =>
              exists c', relay_line upstream c = Failed c' e /\ psent c' = psent c
          end).
Proof.
  eexists _, _. split; [apply compose_meta_dict|].
  split; [apply dict_get_set_eq|].
  split; [apply dict_get_set_eq|].
  split; [by rewrite dict_get_set_ne, dict_get_set_eq|].
  split; [unfold server_hit; by intros b ->|].
  split; [unfold server_hit; by intros ->|].
  intros upstream c line rest key base Hline Hbuf Hkey Hne Hload Hfrom.
  destruct proxy_hit.
  - rewrite (relay_line_hit upstream c line rest key base) by done. simpl.
    rewrite Hload, compose_meta_dict. simpl.
    destruct (composed_line _) as [wire|e] eqn:Hwire.
    + split; [exact (composed_line_text _ _ Hwire)|done].
    + by eexists.
  - destruct Hfrom as [Hmiss Hfwd].
    rewrite (relay_line_miss upstream c line rest key) by done. simpl.
    rewrite Hfwd, Hload, compose_meta_dict. simpl.
    destruct (composed_line _) as [wire|e] eqn:Hwire.
    + split; [exact (composed_line_text _ _ Hwire)|done].
    + by eexists.
Qed.
End ComposedReply.

Lemma append_assoc (s1 s2 s3 : string) : (s1 +:+ s2) +:+ s3 = s1 +:+ s2 +:+ s3.
Proof.
  induction s1 as [|c s1 IH]; [done|].
  change (String c ((s1 +:+ s2) +:+ s3) = String c (s1 +:+ s2 +:+ s3)).
  by f_equal.
Qed.

Section ProxyHits.
Context {rt : Runtime}.
Implicit Types (c : pconn) (upstream : nat -> str -> upstream_conn).

(** The same line [n] times over, its key in the cache and the stored
    reply a JSON object: [n] times the same answer, nothing forwarded,
    the cache as it was. *)
Lemma relay_repeated_hits upstream line key base reply obj wire store log :
  has_newline line = false -> request_key line = Ok key -> key <> "" ->
  store !! key = Some base -> json_loads base = Ok (JDict reply) ->
  compose_meta (JDict reply) true = Ok obj -> composed_line obj = Ok wire ->
  forall n out,
    relay_buffer upstream (PConn (copies n (line +:+ newline)) store out log) =
      Continue (PConn "" store (out ++ replicate n wire) log).
Proof.
  intros Hline Hkey Hne Hhit Hload Hobj Hwire. induction n as [|n IH]; intros out.
  - rewrite relay_buffer_exit by done. simpl. by rewrite app_nil_r.
  - simpl copies. rewrite append_assoc.
    rewrite relay_buffer_turn by (by apply partition_line).
    rewrite (relay_line_hit upstream _ line (copies n (line +:+ newline)) key base);
      try done.
    simpl. rewrite Hload, Hobj. simpl. rewrite Hwire. unfold send_bytes. simpl.
    rewrite IH. by rewrite <- app_assoc.
Qed.

(** C4.  A line whose key is already in the proxy cache is answered
    without the forwarder: the list of forwarded requests and the cache
    are as before the turn.  The entry was stored on the miss as the
    forwarder returned it, and the answer to a hit is composed from that
    stored reply with [proxy_hit] true: [any_cache] comes out true,
    [proxy_from_cache] true, and [from_cache] stays what the server
    wrote at the first forward, however often the line is repeated.
    The composed reply is written when [json.dumps] writes it and the
    text encodes; when one of the two raises, the turn fails with that
    exception, still without the forwarder and with the cache as it
    was. *)
Theorem proxy_hit_serves_stored_reply upstream c line rest key base :
  has_newline line = false -> pbuffer c = line +:+ newline +:+ rest ->
  request_key line = Ok key -> key <> "" ->
  PROXY_CACHE c !! key = Some base ->
  forwarded (state_of (relay_line upstream c)) = forwarded c
  /\ PROXY_CACHE (state_of (relay_line upstream c)) = PROXY_CACHE c
  /\ (forall reply, json_loads base = Ok (JDict reply) ->
        exists obj meta,
          compose_meta (JDict reply) true = Ok (JDict obj)
          /\ dict_get "meta" obj = Some (JDict meta)
          /\ dict_get "proxy_from_cache" meta = Some (JBool true)
          /\ dict_get "any_cache" meta = Some (JBool true)
          /\ dict_get "from_cache" meta = dict_get "from_cache" (reply_meta reply)
          /\ match composed_line (JDict obj) with
             | Ok wire =>
                 wire = encode_utf8 (dumps false false (JDict obj) +:+ newline)
                 /\ relay_line upstream c =
                      Continue (send_bytes
                                  (PConn rest (PROXY_CACHE c) (psent c) (forwarded c))
                                  wire)
                 /\ forall n,
                      relay_buffer upstream
                        (PConn (copies n (line +:+ newline)) (PROXY_CACHE c) (psent c)
                               (forwarded c)) =
                      Continue
                        (PConn "" (PROXY_CACHE c) (psent c ++ replicate n wire)
                           (forwarded c))
             | Raise e =>
                 relay_line upstream c =
                   Failed (PConn rest (PROXY_CACHE c) (psent c) (forwarded c)) e
             end)
  /\ (forall c0 rest0 base0,
        pbuffer c0 = line +:+ newline +:+ rest0 ->
        PROXY_CACHE c0 !! key = None ->
        forward_request_to_server (upstream (length (forwarded c0)) key) = Ok base0 ->
        PROXY_CACHE (state_of (relay_line upstream c0)) !! key = Some base0
        /\ forwarded (state_of (relay_line upstream c0)) = (forwarded c0 ++ [key])%list).
Proof.
  intros Hline Hbuf Hkey Hne Hhit.
  pose proof (relay_line_hit upstream c line rest key base Hline Hbuf Hkey Hne Hhit)
    as Hturn. simpl in Hturn.
  split; [|split; [|split]].
  - rewrite Hturn. destruct (json_loads base) as [obj|e].
    + by destruct (compose_meta obj true ≫= _).
    + by destruct (exn_class_eqb _ _).
  - rewrite Hturn. destruct (json_loads base) as [obj|e].
    + by destruct (compose_meta obj true ≫= _).
    + by destruct (exn_class_eqb _ _).
  - intros reply Hload. rewrite Hload in Hturn.
    pose proof (compose_meta_dict reply true) as Hobj.
    rewrite Hobj in Hturn. simpl in Hturn.
    eexists _, _. split; [exact Hobj|].
    split; [apply dict_get_set_eq|].
    split; [by rewrite dict_get_set_ne, dict_get_set_eq|].
    split; [by rewrite dict_get_set_eq, orb_true_r|].
    split; [by rewrite !dict_get_set_ne|].
    destruct (composed_line _) as [wire|e] eqn:Hwire; [|exact Hturn].
    split; [exact (composed_line_text _ _ Hwire)|]. split; [exact Hturn|].
    intros n.
    exact (relay_repeated_hits upstream line key base reply _ wire _ _
             Hline Hkey Hne Hhit Hload Hobj Hwire n (psent c)).
  - intros c0 rest0 base0 Hbuf0 Hmiss Hfwd.
    rewrite (relay_line_miss upstream c0 line rest0 key); try done. simpl.
    rewrite Hfwd. destruct (json_loads base0) as [obj|e].
    + destruct (compose_meta obj false ≫= _); simpl; by rewrite lookup_insert_eq.
    + destruct (exn_class_eqb _ _); simpl; by rewrite lookup_insert_eq.
Qed.
End ProxyHits.

Lemma blank_line_skipped_witness :
  whitespace_only "  "
  /\ relay_line (rt := Fixture.runtime) Fixture.upstream
       (PConn ("  " +:+ newline +:+ "abc") ∅ [] []) =
     Continue (PConn "abc" ∅ [] []).
Proof.
  assert (Hws : whitespace_only "  ").
  { apply ws_one; [done|]. apply ws_one; [done|]. apply ws_empty. }
  split; [exact Hws|].
  apply (@blank_line_skipped Fixture.runtime Fixture.upstream
           (PConn ("  " +:+ newline +:+ "abc") ∅ [] []) "  " "abc" "  ");
    done.
Defined.

Lemma proxy_key_is_stripped_line_witness :
  strip " abc " <> ""
  /\ request_key (rt := Fixture.runtime) " abc " = Ok "abc".
Proof.
  assert (Hne : strip " abc " <> "") by done.
  split; [exact Hne|].
  apply (@proxy_key_is_stripped_line Fixture.runtime Fixture.upstream
           (PConn (" abc " +:+ newline +:+ "") ∅ [] []) " abc " "" " abc ");
    done.
Defined.

(** C5, the claim as the spec words it, fails: two client lines that
    differ as byte strings, one of them padded with blanks, are one key
    of the proxy cache; the second is answered from the entry of the
    first and the server is asked once. *)
Lemma padded_line_shares_cache_entry :
  "abc" <> " abc "
  /\ request_key (rt := Fixture.runtime) "abc"
     = request_key (rt := Fixture.runtime) " abc "
  /\ match handle (rt := Fixture.runtime) Fixture.upstream
             ["abc" +:+ newline +:+ " abc " +:+ newline] None ∅ with
     | PeerClosed c => forwarded c = ["abc"] /\ length (psent c) = 2%nat
     | Aborted _ => False
     end.
Proof. split; [done|]. split; [done|]. by vm_compute. Qed.

Lemma proxy_hit_serves_stored_reply_witness :
  ({["abc" := Fixture.reply_text]} : gmap string string) !! "abc"
    = Some Fixture.reply_text
  /\ forwarded (state_of (relay_line (rt := Fixture.runtime) Fixture.upstream
       (PConn ("abc" +:+ newline +:+ "") {["abc" := Fixture.reply_text]} [] [])))
     = [].
Proof.
  assert (Hhit : ({["abc" := Fixture.reply_text]} : gmap string string) !! "abc"
                 = Some Fixture.reply_text) by apply lookup_singleton_eq.
  split; [exact Hhit|].
  apply (@proxy_hit_serves_stored_reply Fixture.runtime Fixture.upstream
           (PConn ("abc" +:+ newline +:+ "") {["abc" := Fixture.reply_text]} [] [])
           "abc" "" "abc" Fixture.reply_text);
    done.
Defined.

Lemma cache_key_order_independent_witness :
  let A := JDict [("mode", JStr "calc"); ("data", JDict [("expr", JStr "1+2")])] in
  let B := JDict [("data", JDict [("expr", JStr "1+2")]); ("mode", JStr "calc")] in
  json_wf A /\ same_up_to_key_order A B
  /\ cache_key (rt := Fixture.runtime) A = cache_key (rt := Fixture.runtime) B.
Proof.
  intros A B.
  assert (Hwf : json_wf A).
  { simpl. repeat split; compute_done. }
  assert (Hsame : same_up_to_key_order A B).
  { apply (same_dict _ [("data", JDict [("expr", JStr "1+2")]); ("mode", JStr "calc")]).
    - apply perm_swap.
    - constructor; [split; [done|] | constructor; [split; [done|constructor] | constructor]].
      apply (same_dict _ [("expr", JStr "1+2")]); [done|].
      constructor; [split; [done|constructor] | constructor]. }
  split; [exact Hwf|]. split; [exact Hsame|].
  apply (@cache_key_order_independent Fixture.runtime A B); done.
Defined.

(** ** The server: one request *)

Section ServerFacts.
Context {rt : Runtime}.
Implicit Types (cache : LRUCache.t str res) (msg : list (str * json)).

Lemma dict_get_move_to_end {A} (k : str) (d : list (str * A)) :
  dict_mem k d = true -> dict_get k (move_to_end k d) = dict_get k d.
Proof.
  unfold dict_mem, move_to_end. destruct (dict_get k d) as [v|] eqn:Hk; [|done].
  intros _. apply dict_get_app_last.
  rewrite keys_dict_del. intros Hin. by apply list_elem_of_filter in Hin as [? _].
Qed.

(** When [json.dumps] writes the key, it is the canonical text. *)
Lemma cache_key_text (j : json) (key : str) :
  cache_key j = Ok key -> key = key_text j /\ key_derived j.
Proof.
  unfold key_derived, key_text, cache_key, json_dumps.
  destruct (depth j <=? dumps_max_depth)%nat; [|done]. by intros [= <-].
Qed.

Lemma key_derived_same (a b : json) :
  json_wf a -> same_up_to_key_order a b -> key_derived a ->
  key_derived b /\ key_text b = key_text a.
Proof.
  intros Hwf Hsame. unfold key_derived, key_text, cache_key, json_dumps.
  rewrite <- (depth_order_independent a b Hsame).
  rewrite <- (dumps_order_independent true a Hwf b Hsame).
  by destruct (depth a <=? dumps_max_depth)%nat.
Qed.

(** A read that returns nothing has changed nothing. *)
Lemma get_None (key : str) cache :
  (LRUCache.get key cache).1 = None -> LRUCache.get key cache = (None, cache).
Proof.
  unfold LRUCache.get. destruct (dict_mem key (LRUCache._d cache)) eqn:Hm; [|done].
  simpl. rewrite dict_get_move_to_end by done.
  unfold dict_mem in Hm. by destruct (dict_get key (LRUCache._d cache)).
Qed.

Lemma lookup_result_miss msg cache :
  reaches_evaluator msg cache -> lookup_result msg cache = (None, cache).
Proof.
  unfold lookup_result. intros [->|Hm]; [done|].
  destruct (use_cache msg); [|done].
  apply get_absent. by apply dict_mem_false.
Qed.

(** The first four statements of [handle_request] on a dictionary
    whose [options] are absent or a dictionary. *)
Lemma options_cache msg :
  (dict_get "options" msg = None
   \/ exists options, dict_get "options" msg = Some (JDict options)) ->
  exists v,
    py_get_default (py_or (default JNull (dict_get "options" msg)) (JDict []))
      "cache" (JBool true) = Ok v
    /\ py_bool v = use_cache msg.
Proof.
  unfold use_cache. intros [->|[options ->]].
  - by exists (JBool true).
  - assert (Hm : py_or (JDict options) (JDict []) = JDict options)
      by (by destruct options).
    change (default JNull (Some (JDict options))) with (JDict options).
    rewrite Hm. cbn [py_get_default].
    destruct (dict_get "cache" options) as [v|]; [by exists v | by exists (JBool true)].
Qed.

Lemma handle_request_calc w msg e cache :
  calc_request msg e -> key_derived (JDict msg) ->
  handle_request w (JDict msg) cache =
    Ok (match lookup_result msg cache with
        | (Some v, cache1) => (success (res_json v) true (took_ms w), cache1)
        | (None, cache1) =>
            match safe_eval_expr e with
            | Ok r => (success (JFloat r) false (took_ms w),
                       store_result msg (RFloat r) cache1)
            | Raise ex => (failure ("Server error: " +:+ exn_msg ex), cache1)
            end
        end).
Proof.
  intros (Hmode & (data & Hdata & Hexpr) & Hne & Hopt) Hkey.
  unfold handle_request. rewrite Hkey. simpl. rewrite Hmode, Hdata. simpl.
  assert (Hd : py_or (JDict data) (JDict []) = JDict data).
  { unfold py_or. destruct data; [done|done]. }
  rewrite Hd. clear Hd.
  destruct (options_cache msg Hopt) as (v & Hc & Hv). rewrite Hc. simpl.
  rewrite Hv. unfold lookup_result, store_result.
    (destruct (use_cache msg); simpl;
     [destruct (LRUCache.get _ cache) as [[v'|] cache1]; [done|] |];
     rewrite Hexpr; simpl; apply String.eqb_neq in Hne; rewrite Hne; simpl;
     by destruct (safe_eval_expr e)).
Qed.

Lemma handle_request_gpt w msg p cache :
  gpt_request msg p -> key_derived (JDict msg) ->
  handle_request w (JDict msg) cache =
    Ok (match lookup_result msg cache with
        | (Some v, cache1) => (success (res_json v) true (took_ms w), cache1)
        | (None, cache1) =>
            let r := RStr (call_gpt (service w p)) in
            (success (res_json r) false (took_ms w), store_result msg r cache1)
        end).
Proof.
  intros (Hmode & (data & Hdata & Hprompt) & Hne & Hopt) Hkey.
  unfold handle_request. rewrite Hkey. simpl. rewrite Hmode, Hdata. simpl.
  assert (Hd : py_or (JDict data) (JDict []) = JDict data).
  { unfold py_or. destruct data; [done|done]. }
  rewrite Hd. clear Hd.
  destruct (options_cache msg Hopt) as (v & Hc & Hv). rewrite Hc. simpl.
  rewrite Hv. unfold lookup_result, store_result.
    (destruct (use_cache msg); simpl;
     [destruct (LRUCache.get _ cache) as [[v'|] cache1]; [done|] |];
     rewrite Hprompt; simpl; apply String.eqb_neq in Hne; by rewrite Hne).
Qed.
End ServerFacts.

Section CacheOnFailure.
Context {rt : Runtime}.
Implicit Types (lru : LRUCache.t str res).

Lemma options_cache_any (msg : list (str * json)) (c : json) :
  py_get_default (py_or (default JNull (dict_get "options" msg)) (JDict []))
    "cache" (JBool true) = Ok c ->
  py_bool c = use_cache msg.
Proof.
  unfold use_cache.
  destruct (dict_get "options" msg) as [o|]; [|by intros [= <-]].
  change (default JNull (Some o)) with o.
  destruct o as [ |b|z|f|s|l|o].
  - by intros [= <-].
  - unfold py_or. simpl. destruct b; [done|]. by intros [= <-].
  - unfold py_or. simpl. destruct (negb (z =? 0)); [done|]. by intros [= <-].
  - unfold py_or. simpl. destruct (negb (f =? 0)%float); [done|]. by intros [= <-].
  - unfold py_or. simpl. destruct (negb (s =? "")%string); [done|]. by intros [= <-].
  - unfold py_or. simpl. destruct l; [|done]. by intros [= <-].
  - assert (Hm : py_or (JDict o) (JDict []) = JDict o) by (by destruct o).
    rewrite Hm. cbn [py_get_default].
    destruct (dict_get "cache" o); by intros [= <-].
Qed.

Ltac leaf d :=
  intros [= <- <-];
  split; [first [by left; eexists | by right; eexists _, _]|];
  split; [try done|];
  first [intros Hn; by destruct Hn | intros _; split; [done | by exists d]].

Lemma handle_request_cache w msg lru resp lru' :
  handle_request w msg lru = Ok (resp, lru') ->
  ((exists m, resp = failure m)
   \/ (exists r hit, resp = success r hit (took_ms w)))
  /\ (py_get resp "ok" = Ok (JBool false) -> lru' = lru)
  /\ (lru' <> lru ->
      py_get resp "ok" = Ok (JBool true)
      /\ exists d, msg = JDict d /\ use_cache d = true).
Proof.
  destruct msg as [ | | | | | |d]; try done.
  unfold handle_request. simpl.
  destruct (py_get_default _ "cache" (JBool true)) as [c|e] eqn:Hc; [|done]. simpl.
  apply options_cache_any in Hc. rewrite Hc.
  destruct (cache_key (JDict d)) as [key|ek]; [|done]. simpl.
  set (mode := default JNull (dict_get "mode" d)).
  set (data := py_or (default JNull (dict_get "data" d)) (JDict [])).
  assert (Hlook : exists hit cache1,
            (if use_cache d then LRUCache.get key lru else (None, lru))
            = (hit, cache1)
            /\ (hit = None -> cache1 = lru)
            /\ (hit <> None -> use_cache d = true)).
  { destruct (use_cache d).
    - destruct (LRUCache.get key lru) as [hit cache1] eqn:Hg.
      exists hit, cache1. split; [done|]. split; [|done].
      intros ->. pose proof (get_None key lru) as Hn.
      rewrite Hg in Hn. by injection (Hn eq_refl).
    - by exists None, lru. }
  destruct Hlook as (hit & cache1 & -> & Hmiss & Hhit).
  destruct hit as [v|].
  { intros [= <- <-]. split; [by right; eexists _, _|]. split; [done|].
    intros _. split; [done|]. exists d. auto. }
  rewrite (Hmiss eq_refl). clear Hmiss Hhit cache1.
  destruct (eq_str mode "calc").
  - destruct (py_get data "expr") as [e|ex]; simpl; [|leaf d].
    destruct (negb (py_bool e) || negb (is_str e)); [leaf d|].
    destruct (safe_eval_expr (as_str e)) as [r|ex]; simpl; [|leaf d].
    destruct (use_cache d) eqn:Hu; leaf d.
  - destruct (eq_str mode "gpt"); [|leaf d].
    destruct (py_get data "prompt") as [p|ex]; simpl; [|leaf d].
    destruct (negb (py_bool p) || negb (is_str p)); [leaf d|].
    destruct (use_cache d) eqn:Hu; leaf d.
Qed.

Lemma serve_line_failed_cache worlds c c' e :
  serve_line worlds c = Failed c' e -> cache c' = cache c.
Proof.
  unfold serve_line. destruct (partition (buffer c)) as [[line sep] rest].
  destruct (_ ≫= _) as [[resp' lru'']|e']; [done|]. by intros [= <- _].
Qed.

(** C9.  Every answer of [handle_request] is a failure envelope or a
    success envelope.  With a failure envelope the result cache is the
    one the request found: nothing inserted, overwritten or reordered.
    The cache differs afterwards only under a success envelope and with
    caching on.  When an exception leaves the turn instead (a malformed
    line), the cache is also the one before. *)
Theorem failure_leaves_cache w msg lru resp lru' :
  handle_request w msg lru = Ok (resp, lru') ->
  ((exists m, resp = failure m)
   \/ (exists r hit, resp = success r hit (took_ms w)))
  /\ (py_get resp "ok" = Ok (JBool false) -> lru' = lru)
  /\ (lru' <> lru ->
      py_get resp "ok" = Ok (JBool true)
      /\ exists d, msg = JDict d /\ use_cache d = true)
  /\ (forall worlds c c' e,
        serve_line worlds c = Failed c' e -> cache c' = cache c).
Proof.
  intros Hreq. destruct (handle_request_cache _ _ _ _ _ Hreq) as (H1 & H2 & H3).
  repeat split; try done.
  - by apply H3.
  - by apply H3.
  - apply serve_line_failed_cache.
Qed.
End CacheOnFailure.

(** ** The server: one connection *)

Section ServerLoop.
Context {rt : Runtime}.
Implicit Types (c : conn) (worlds : nat -> world).

Lemma serve_line_buffer worlds c :
  buffer (state_of (serve_line worlds c)) = (partition (buffer c)).2.
Proof.
  unfold serve_line. destruct (partition (buffer c)) as [[line sep] rest].
  by destruct (_ ≫= _) as [[resp lru]|e].
Qed.

Lemma serve_line_shrinks worlds c c' :
  has_newline (buffer c) = true -> serve_line worlds c = Continue c' ->
  (String.length (buffer c') < String.length (buffer c))%nat.
Proof.
  intros Hnl Hc. pose proof (serve_line_buffer worlds c) as Hb.
  rewrite Hc in Hb. simpl in Hb. rewrite Hb. by apply partition_shrinks.
Qed.

(** The loop of the server, one line at a time. *)
Lemma serve_buffer_turn worlds c :
  has_newline (buffer c) = true ->
  serve_buffer worlds c =
    match serve_line worlds c with
    | Continue c' => serve_buffer worlds c'
    | Failed c' e => Failed c' e
    end.
Proof. apply while_lines_turn, serve_line_shrinks. Qed.

(** A turn on a line that decodes and parses. *)
Lemma serve_line_parsed worlds c line rest text msg :
  has_newline line = false -> buffer c = line +:+ newline +:+ rest ->
  decode_utf8 utf8_errmsg line = Ok text -> json_loads text = Ok msg ->
  serve_line worlds c =
    match handle_request (worlds (handled c)) msg (cache c) with
    | Raise e => Failed (Conn rest (cache c) (sent c) (handled c)) e
    | Ok (resp, lru) =>
        Continue (Conn rest lru
                    (sent c ++ [encode_utf8 (dumps false false resp +:+ newline)])
                    (S (handled c)))
    end.
Proof.
  intros Hline Hbuf Hdec Hload. unfold serve_line.
  rewrite Hbuf. destruct (partition_line line rest Hline) as [_ ->].
  rewrite Hdec. simpl. rewrite Hload. simpl.
  by destruct (handle_request _ _ _) as [[resp lru]|e].
Qed.

(** A turn on a line that does not decode or does not parse. *)
Lemma serve_line_malformed worlds c line rest e :
  has_newline line = false -> buffer c = line +:+ newline +:+ rest ->
  (text ← decode_utf8 utf8_errmsg line; json_loads text) = Raise e ->
  serve_line worlds c = Failed (Conn rest (cache c) (sent c) (handled c)) e.
Proof.
  intros Hline Hbuf Hbad. unfold serve_line.
  rewrite Hbuf. destruct (partition_line line rest Hline) as [_ ->].
  destruct (decode_utf8 utf8_errmsg line) as [text|e'] eqn:Hdec; simpl in *.
  - by rewrite Hbad.
  - by injection Hbad as ->.
Qed.

Lemma serve_line_grow worlds c x :
  has_newline (buffer c) = true ->
  serve_line worlds (more_bytes c x) =
    map_progress (fun c' => more_bytes c' x) (serve_line worlds c).
Proof.
  intros Hnl. unfold serve_line, more_bytes. simpl.
  rewrite (partition_app _ x Hnl).
  destruct (partition (buffer c)) as [[line sep] rest]. simpl.
  by destruct (text ← decode_utf8 utf8_errmsg line; msg ← json_loads text;
               handle_request (worlds (handled c)) msg (cache c))
    as [[resp lru]|e].
Qed.

Lemma serve_buffer_grow worlds c x :
  serve_buffer worlds (more_bytes c x) =
    match serve_buffer worlds c with
    | Continue c' => serve_buffer worlds (more_bytes c' x)
    | Failed c' e => Failed (more_bytes c' x) e
    end.
Proof.
  unfold serve_buffer.
  apply (while_lines_grow buffer (serve_line worlds) (serve_line_shrinks worlds)
           more_bytes (fun _ _ => eq_refl) (serve_line_grow worlds)).
  lia.
Qed.

Lemma serve_buffer_drained worlds c c' :
  serve_buffer worlds c = Continue c' -> has_newline (buffer c') = false.
Proof.
  apply (while_lines_drained buffer (serve_line worlds) (serve_line_shrinks worlds)).
  lia.
Qed.

(** Two pieces received one after the other are served as the one
    piece they make. *)
Lemma recv_loop_join worlds x1 x2 more fin c :
  x1 <> "" -> x2 <> "" ->
  outcome (recv_loop worlds (x1 :: x2 :: more) fin c)
  = outcome (recv_loop worlds ((x1 +:+ x2) :: more) fin c).
Proof.
  intros H1 H2.
  assert (H12 : x1 +:+ x2 <> "") by (by apply append_nonempty).
  apply String.eqb_neq in H1, H2, H12.
  cbn [recv_loop]. rewrite H1, H2, H12.
  change (Conn (buffer c +:+ x1) (cache c) (sent c) (handled c))
    with (more_bytes c x1).
  assert (Hall : Conn (buffer c +:+ x1 +:+ x2) (cache c) (sent c) (handled c)
                 = more_bytes (more_bytes c x1) x2)
    by (unfold more_bytes; simpl; by rewrite append_assoc).
  rewrite Hall, (serve_buffer_grow worlds (more_bytes c x1) x2).
  destruct (serve_buffer worlds (more_bytes c x1)) as [c'|c' e]; done.
Qed.

Lemma recv_loop_stream worlds fin chunks : forall chunk c,
  chunk <> "" -> Forall (fun x => x <> "") chunks ->
  outcome (recv_loop worlds (chunk :: chunks) fin c)
  = outcome (recv_loop worlds [chunk +:+ stream chunks] fin c).
Proof.
  induction chunks as [|x2 more IH]; intros chunk c Hne Hall.
  - simpl stream. by rewrite append_nil_r.
  - apply Forall_cons in Hall as [H2 Hall].
    rewrite recv_loop_join by done.
    rewrite IH by (by try apply append_nonempty).
    simpl stream. by rewrite append_assoc.
Qed.

(** A connection whose bytes are [before] and then [tail]: when the
    worker has handled [before] to its last byte and the turn on the
    first line of [tail] fails, the connection ends as the [except]
    branch leaves it, however the bytes were cut into pieces and
    whatever [recv] would have done after them. *)
Lemma handle_client_fails_at worlds chunks fin shared before tail c0 c1 e :
  Forall (fun x => x <> "") chunks -> stream chunks = before +:+ tail ->
  serve_buffer worlds (Conn before shared [] 0) = Continue c0 -> buffer c0 = "" ->
  has_newline tail = true ->
  serve_line worlds (Conn tail (cache c0) (sent c0) (handled c0)) = Failed c1 e ->
  outcome (handle_client worlds chunks fin shared) = outcome (on_exception c1 e).
Proof.
  intros Hall Hs Hbefore Hdone Htail Hturn. unfold handle_client.
  destruct chunks as [|chunk more].
  { clear Hbefore Hturn. by destruct before, tail. }
  apply Forall_cons in Hall as [Hne Hall].
  rewrite recv_loop_stream by done.
  change (chunk +:+ stream more) with (stream (chunk :: more)). rewrite Hs.
  assert (Hfull : before +:+ tail <> "").
  { clear Hbefore Hturn Hs. intros Hnil. by destruct before, tail. }
  cbn [recv_loop]. apply String.eqb_neq in Hfull. rewrite Hfull.
  change (Conn (buffer (Conn "" shared [] 0) +:+ before +:+ tail)
               (cache (Conn "" shared [] 0)) (sent (Conn "" shared [] 0))
               (handled (Conn "" shared [] 0)))
    with (more_bytes (Conn before shared [] 0) tail).
  rewrite serve_buffer_grow, Hbefore.
  assert (Hc0 : more_bytes c0 tail = Conn tail (cache c0) (sent c0) (handled c0))
    by (unfold more_bytes; by rewrite Hdone).
  rewrite Hc0, serve_buffer_turn by done. by rewrite Hturn.
Qed.

(** C7.  A line that does not decode or parse as JSON, wherever it
    stands in the bytes of a connection ([before] is what the worker
    has handled, to its last byte, when it comes to the line) and
    however [recv] cuts them into pieces: the worker writes one failure
    envelope after the replies to the lines before, and the connection
    ends.  The lines after it ([rest], already in the buffer or not yet
    received) are not handled: the count of handled requests and the
    cache are as the lines before left them. *)
Theorem malformed_line_closes worlds chunks fin shared before line rest c0 e :
  Forall (fun x => x <> "") chunks ->
  stream chunks = before +:+ line +:+ newline +:+ rest ->
  has_newline line = false ->
  serve_buffer worlds (Conn before shared [] 0) = Continue c0 -> buffer c0 = "" ->
  (text ← decode_utf8 utf8_errmsg line; json_loads text) = Raise e ->
  let envelope := failure ("Malformed: " +:+ exn_msg e) in
  outcome (handle_client worlds chunks fin shared)
  = (true, cache c0,
     (sent c0 ++ [encode_utf8 (dumps true false envelope +:+ newline)])%list,
     handled c0)
  /\ py_get envelope "ok" = Ok (JBool false)
  /\ py_get envelope "error" = Ok (JStr ("Malformed: " +:+ exn_msg e)).
Proof.
  intros Hall Hs Hline Hbefore Hdone Hbad envelope. split; [|done].
  destruct (partition_line line rest Hline) as [Hnl _].
  rewrite (handle_client_fails_at worlds chunks fin shared before
             (line +:+ newline +:+ rest) c0
             (Conn rest (cache c0) (sent c0) (handled c0)) e); try done.
  exact (serve_line_malformed worlds
           (Conn (line +:+ newline +:+ rest) (cache c0) (sent c0) (handled c0))
           line rest e Hline eq_refl Hbad).
Qed.

(** The ways an evaluation fails. *)
Lemma eval_failures :
  (forall s ex, ast_parse s = Raise ex -> safe_eval_expr s = Raise ex)
  /\ (forall id, _ALLOWED_CONSTS id = None ->
        _eval_node (Name id) = Raise (Exn ValueError ("unknown symbol " +:+ id)))
  /\ (forall l op r, allowed_operator op = false ->
        _eval_node (BinOp l op r) = Raise (Exn ValueError "illegal expression"))
  /\ (forall op x, allowed_unaryop op = false ->
        _eval_node (UnaryOp op x) = Raise (Exn ValueError "illegal expression"))
  /\ (forall id args, _ALLOWED_FUNCS id = None ->
        _eval_node (Call (Name id) args) = Raise (Exn ValueError "illegal function call"))
  /\ _eval_node OtherNode = Raise (Exn ValueError "illegal expression")
  /\ (forall l r x y ex, _eval_node l = Ok x -> _eval_node r = Ok y ->
        operator_binary Div x y = Raise ex -> _eval_node (BinOp l Div r) = Raise ex).
Proof.
  repeat split.
  - intros s ex Hs. unfold safe_eval_expr. by rewrite Hs.
  - intros id Hid. simpl. by rewrite Hid.
  - intros l op r Hop. simpl. by rewrite Hop.
  - intros op x Hop. simpl. by rewrite Hop.
  - intros id args Hid. simpl. by rewrite Hid.
  - intros l r x y ex Hl Hr Hdiv. simpl. rewrite Hl, Hr. simpl. done.
Qed.

(** The three expressions of the spec, evaluated. *)
Lemma eval_examples :
  cpython_examples ->
  safe_eval_expr "1+2" = Ok 3%float
  /\ safe_eval_expr "sqrt(9)" = Ok 3%float
  /\ safe_eval_expr "10/0" = Raise (Exn ZeroDivisionError "division by zero").
Proof.
  intros [Hp1 Hp2 Hp3 Hadd Hf3 Hsqrt Hff Hdiv]. unfold safe_eval_expr.
  rewrite Hp1, Hp2, Hp3. simpl. rewrite Hadd, Hsqrt, Hdiv. simpl.
  by rewrite Hf3, Hff.
Qed.

(** [json.dumps] sits before the cache lookup and outside the [try]:
    when it raises on the message, [handle_request] raises, whatever the
    mode, the cache and the world. *)
Lemma handle_request_no_key w msg lru err :
  plain_options msg -> cache_key (JDict msg) = Raise err ->
  handle_request w (JDict msg) lru = Raise err.
Proof.
  intros Hopt Hkey. unfold handle_request. rewrite Hkey. simpl.
  destruct (options_cache msg Hopt) as (v & Hc & _). by rewrite Hc.
Qed.

(** C8.  A well-formed calc request whose evaluation raises, whatever
    the exception, is answered with a failure envelope ([ok] false and
    the message under [error]); the worker goes on with the rest of the
    buffer, its cache unchanged.  Illegal syntax, unknown symbols,
    disallowed operators and functions and a division by zero all
    raise.  With CPython's arithmetic on the examples, ["1+2"] and
    ["sqrt(9)"] are answered with the result 3.0 and ["10/0"] with a
    failure envelope.  All of this is for a request whose cache key
    [json.dumps] writes; on one that nests too deep for it, nothing is
    evaluated: [handle_request] raises the [RecursionError]. *)
Theorem failed_evaluation_is_reported worlds c line rest text msg e ex :
  has_newline line = false -> buffer c = line +:+ newline +:+ rest ->
  decode_utf8 utf8_errmsg line = Ok text -> json_loads text = Ok (JDict msg) ->
  calc_request msg e -> key_derived (JDict msg) ->
  reaches_evaluator msg (cache c) ->
  safe_eval_expr e = Raise ex ->
  let envelope := failure ("Server error: " +:+ exn_msg ex) in
  let c' := Conn rest (cache c)
              (sent c ++ [encode_utf8 (dumps false false envelope +:+ newline)])
              (S (handled c)) in
  handle_request (worlds (handled c)) (JDict msg) (cache c) = Ok (envelope, cache c)
  /\ py_get envelope "ok" = Ok (JBool false)
  /\ py_get envelope "error" = Ok (JStr ("Server error: " +:+ exn_msg ex))
  /\ serve_line worlds c = Continue c'
  /\ serve_buffer worlds c = serve_buffer worlds c'
  /\ ((forall s ex, ast_parse s = Raise ex -> safe_eval_expr s = Raise ex)
      /\ (forall id, _ALLOWED_CONSTS id = None ->
            _eval_node (Name id) = Raise (Exn ValueError ("unknown symbol " +:+ id)))
      /\ (forall l op r, allowed_operator op = false ->
            _eval_node (BinOp l op r) = Raise (Exn ValueError "illegal expression"))
      /\ (forall op x, allowed_unaryop op = false ->
            _eval_node (UnaryOp op x) = Raise (Exn ValueError "illegal expression"))
      /\ (forall id args, _ALLOWED_FUNCS id = None ->
            _eval_node (Call (Name id) args)
            = Raise (Exn ValueError "illegal function call"))
      /\ _eval_node OtherNode = Raise (Exn ValueError "illegal expression")
      /\ (forall l r x y ex, _eval_node l = Ok x -> _eval_node r = Ok y ->
            operator_binary Div x y = Raise ex ->
            _eval_node (BinOp l Div r) = Raise ex))
  /\ (cpython_examples ->
      forall w m lru, key_derived (JDict m) -> reaches_evaluator m lru ->
        (calc_request m "1+2" ->
           exists resp,
             handle_request w (JDict m) lru
             = Ok (resp, store_result m (RFloat 3%float) lru)
             /\ py_get resp "ok" = Ok (JBool true)
             /\ py_get resp "result" = Ok (JFloat 3%float))
        /\ (calc_request m "sqrt(9)" ->
           exists resp,
             handle_request w (JDict m) lru
             = Ok (resp, store_result m (RFloat 3%float) lru)
             /\ py_get resp "ok" = Ok (JBool true)
             /\ py_get resp "result" = Ok (JFloat 3%float))
        /\ (calc_request m "10/0" ->
           exists resp,
             handle_request w (JDict m) lru = Ok (resp, lru)
             /\ py_get resp "ok" = Ok (JBool false)
             /\ py_get resp "error" = Ok (JStr "Server error: division by zero")))
  /\ (forall w m e' lru err, calc_request m e' ->
        cache_key (JDict m) = Raise err ->
        handle_request w (JDict m) lru = Raise err).
Proof.
  intros Hline Hbuf Hdec Hload Hcalc Hkey Hmiss Hfail envelope c'.
  assert (Hreq : handle_request (worlds (handled c)) (JDict msg) (cache c)
                 = Ok (envelope, cache c)).
  { rewrite (handle_request_calc _ msg e) by done.
    by rewrite (lookup_result_miss _ _ Hmiss), Hfail. }
  assert (Hturn : serve_line worlds c = Continue c').
  { rewrite (serve_line_parsed worlds c line rest text (JDict msg)) by done.
    by rewrite Hreq. }
  split; [done|]. split; [done|]. split; [done|]. split; [done|]. split.
  { rewrite serve_buffer_turn, Hturn; [done|].
    rewrite Hbuf. by apply partition_line. }
  split; [apply eval_failures|]. split.
  - intros Hpy w m lru Hk Hm. destruct (eval_examples Hpy) as (H1 & H2 & H3).
    repeat split; intros Hc; eexists;
      rewrite (handle_request_calc _ m _ _ Hc Hk), (lookup_result_miss _ _ Hm);
      rewrite ?H1, ?H2, ?H3; done.
  - intros w m e' lru err Hc Herr.
    apply handle_request_no_key; [|done]. by destruct Hc as (_ & _ & _ & ?).
Qed.

(** C6.  A valid gpt request whose delegate call raises, whatever the
    exception, is never answered with a failure envelope: the answer is
    a success envelope ([ok] true, a [result] and no [error]), and when
    the request is not served from the cache its result is the text
    ["[GPT-ERROR] "] followed by the message of the exception (which is
    also what is cached).  When [json.dumps] does not write the cache
    key of the request, [handle_request] raises before the delegate is
    called: what the service would do has no part in it.  A calc
    request whose evaluation raises is answered with a failure
    envelope. *)
Theorem gpt_failure_is_a_result w msg p ex lru :
  gpt_request msg p -> service w p = GptRaises ex ->
  (key_derived (JDict msg) ->
   exists resp lru' r,
     handle_request w (JDict msg) lru = Ok (resp, lru')
     /\ py_get resp "ok" = Ok (JBool true)
     /\ py_get resp "result" = Ok r
     /\ py_get resp "error" = Ok JNull
     /\ (reaches_evaluator msg lru ->
         r = JStr ("[GPT-ERROR] " +:+ exn_msg ex)
         /\ resp = success r false (took_ms w)
         /\ lru' = store_result msg (RStr ("[GPT-ERROR] " +:+ exn_msg ex)) lru))
  /\ (forall err, cache_key (JDict msg) = Raise err ->
        forall w', handle_request w' (JDict msg) lru = Raise err)
  /\ (forall m e ex', calc_request m e -> key_derived (JDict m) ->
        reaches_evaluator m lru -> safe_eval_expr e = Raise ex' ->
        exists resp,
          handle_request w (JDict m) lru = Ok (resp, lru)
          /\ py_get resp "ok" = Ok (JBool false)
          /\ py_get resp "error" = Ok (JStr ("Server error: " +:+ exn_msg ex'))).
Proof.
  intros Hgpt Hdown. split; [|split].
  - intros Hkey.
    pose proof (handle_request_gpt w msg p lru Hgpt Hkey) as Hreq.
    rewrite Hdown in Hreq. simpl in Hreq. rewrite Hreq.
    destruct (lookup_result msg lru) as [[v|] lru1] eqn:Hlook.
    + exists (success (res_json v) true (took_ms w)), lru1, (res_json v).
      split; [done|]. split; [done|]. split; [done|]. split; [done|].
      intros Hmiss. rewrite (lookup_result_miss _ _ Hmiss) in Hlook. done.
    + exists (success (JStr ("[GPT-ERROR] " +:+ exn_msg ex)) false (took_ms w)),
        (store_result msg (RStr ("[GPT-ERROR] " +:+ exn_msg ex)) lru1),
        (JStr ("[GPT-ERROR] " +:+ exn_msg ex)).
      split; [done|]. split; [done|]. split; [done|]. split; [done|].
      intros Hmiss. rewrite (lookup_result_miss _ _ Hmiss) in Hlook.
      by injection Hlook as <-.
  - intros err Herr w'. apply handle_request_no_key; [|done].
    by destruct Hgpt as (_ & _ & _ & ?).
  - intros m e ex' Hcalc Hkey Hmiss Hfail. eexists.
    rewrite (handle_request_calc _ m e) by done.
    by rewrite (lookup_result_miss _ _ Hmiss), Hfail.
Qed.
End ServerLoop.

(** ** The theorems at work on the examples *)

Lemma fixture_examples : @cpython_examples Fixture.runtime.
Proof. by split. Qed.

Lemma calc_request_fixture e :
  e <> "" -> calc_request [("mode", JStr "calc"); ("data", JDict [("expr", JStr e)])] e.
Proof.
  intros He. split; [done|]. split; [by eexists|]. split; [done|]. by left.
Qed.

Lemma malformed_line_closes_witness :
  let request := Fixture.request_text "calc" "expr" "1+2" +:+ newline in
  let reply := encode_utf8 (dumps (rt := Fixture.runtime) false false
                              (success (JFloat 3%float) false 0) +:+ newline) in
  let lru := LRUCache.set
               (key_text (rt := Fixture.runtime)
                  (Fixture.request_msg "calc" "expr" "1+2"))
               (RFloat 3%float) (LRUCache.init 2) in
  let envelope := failure "Malformed: Expecting value: line 1 column 1 (char 0)" in
  outcome (handle_client (rt := Fixture.runtime) Fixture.worlds
             [request +:+ "oo"; "ps" +:+ newline +:+ request]
             (Some (Exn OSError "timed out")) (LRUCache.init 2))
  = (true, lru,
     [reply; encode_utf8 (dumps (rt := Fixture.runtime) true false envelope
                          +:+ newline)],
     1%nat).
Proof.
  intros request reply lru envelope.
  apply (@malformed_line_closes Fixture.runtime Fixture.worlds
           [request +:+ "oo"; "ps" +:+ newline +:+ request]
           (Some (Exn OSError "timed out")) (LRUCache.init 2)
           request "oops" request (Conn "" lru [reply] 1)
           (Exn JSONDecodeError "Expecting value: line 1 column 1 (char 0)"));
    [repeat constructor; done | done | done | done | done | done].
Defined.

Lemma failed_evaluation_is_reported_witness :
  let quotient := [("mode", JStr "calc"); ("data", JDict [("expr", JStr "10/0")])] in
  let sum := [("mode", JStr "calc"); ("data", JDict [("expr", JStr "1+2")])] in
  calc_request quotient "10/0"
  /\ key_derived (rt := Fixture.runtime) (JDict quotient)
  /\ reaches_evaluator (rt := Fixture.runtime) quotient (LRUCache.init 2)
  /\ @cpython_examples Fixture.runtime
  /\ handle_request (rt := Fixture.runtime) (Fixture.worlds 0) (JDict quotient)
       (LRUCache.init 2)
     = Ok (failure "Server error: division by zero", LRUCache.init 2)
  /\ exists resp,
       handle_request (rt := Fixture.runtime) (Fixture.worlds 0) (JDict sum)
         (LRUCache.init 2)
       = Ok (resp, store_result (rt := Fixture.runtime) sum (RFloat 3%float)
                     (LRUCache.init 2))
       /\ py_get resp "ok" = Ok (JBool true)
       /\ py_get resp "result" = Ok (JFloat 3%float).
Proof.
  intros quotient sum.
  assert (Hq : calc_request quotient "10/0") by (by apply calc_request_fixture).
  assert (Hs : calc_request sum "1+2") by (by apply calc_request_fixture).
  assert (Hk : key_derived (rt := Fixture.runtime) (JDict quotient)) by done.
  assert (Hk' : key_derived (rt := Fixture.runtime) (JDict sum)) by done.
  assert (Hmiss : reaches_evaluator (rt := Fixture.runtime) quotient (LRUCache.init 2))
    by (by right).
  assert (Hmiss' : reaches_evaluator (rt := Fixture.runtime) sum (LRUCache.init 2))
    by (by right).
  destruct (@failed_evaluation_is_reported Fixture.runtime Fixture.worlds
              (Conn (Fixture.request_text "calc" "expr" "10/0" +:+ newline +:+ "")
                    (LRUCache.init 2) [] 0)
              (Fixture.request_text "calc" "expr" "10/0") ""
              (Fixture.request_text "calc" "expr" "10/0") quotient "10/0"
              (Exn ZeroDivisionError "division by zero")
              eq_refl eq_refl eq_refl eq_refl Hq Hk Hmiss eq_refl)
    as (Hreq & _ & _ & _ & _ & _ & Hex & _).
  split; [exact Hq|]. split; [exact Hk|]. split; [exact Hmiss|].
  split; [exact fixture_examples|]. split; [exact Hreq|].
  exact (proj1 (Hex fixture_examples (Fixture.worlds 0) sum (LRUCache.init 2)
                  Hk' Hmiss') Hs).
Defined.

Lemma gpt_failure_is_a_result_witness :
  let msg := [("mode", JStr "gpt"); ("data", JDict [("prompt", JStr "hi")])] in
  gpt_request msg "hi"
  /\ key_derived (rt := Fixture.runtime) (JDict msg)
  /\ exists resp lru' r,
       handle_request (rt := Fixture.runtime) (Fixture.worlds 0) (JDict msg)
         (LRUCache.init 2)
       = Ok (resp, lru')
       /\ py_get resp "ok" = Ok (JBool true)
       /\ py_get resp "result" = Ok r
       /\ py_get resp "error" = Ok JNull
       /\ (reaches_evaluator (rt := Fixture.runtime) msg (LRUCache.init 2) ->
           r = JStr ("[GPT-ERROR] "
                     +:+ "503 The service is currently unavailable.")
           /\ resp = success r false 0
           /\ lru' = store_result (rt := Fixture.runtime) msg
                       (RStr ("[GPT-ERROR] "
                              +:+ "503 The service is currently unavailable."))
                       (LRUCache.init 2)).
Proof.
  intros msg.
  assert (Hgpt : gpt_request msg "hi").
  { split; [done|]. split; [by eexists|]. split; [done|]. by left. }
  assert (Hk : key_derived (rt := Fixture.runtime) (JDict msg)) by done.
  split; [exact Hgpt|]. split; [exact Hk|].
  exact (proj1 (@gpt_failure_is_a_result Fixture.runtime (Fixture.worlds 0) msg "hi"
                  (Exn OSError "503 The service is currently unavailable.")
                  (LRUCache.init 2) Hgpt eq_refl) Hk).
Defined.

Lemma failure_leaves_cache_witness :
  let msg := JDict [("mode", JStr "calc"); ("data", JDict [("expr", JStr "10/0")])] in
  handle_request (rt := Fixture.runtime) (Fixture.worlds 0) msg (LRUCache.init 2)
    = Ok (failure "Server error: division by zero", LRUCache.init 2)
  /\ (py_get (failure "Server error: division by zero") "ok" = Ok (JBool false) ->
      LRUCache.init 2 = LRUCache.init (K := str) (V := res) 2).
Proof.
  intros msg.
  assert (Hreq : handle_request (rt := Fixture.runtime) (Fixture.worlds 0) msg
                   (LRUCache.init 2)
                 = Ok (failure "Server error: division by zero", LRUCache.init 2))
    by done.
  split; [exact Hreq|].
  apply (@failure_leaves_cache Fixture.runtime (Fixture.worlds 0) msg
           (LRUCache.init 2) (failure "Server error: division by zero")
           (LRUCache.init 2) Hreq).
Defined.

Lemma composed_flags_witness :
  let reply := [("ok", JBool true); ("result", JFloat 3%float);
                ("meta", JDict [("from_cache", JBool true)])] in
  exists obj meta,
    compose_meta (JDict reply) false = Ok (JDict obj)
    /\ dict_get "meta" obj = Some (JDict meta)
    /\ dict_get "any_cache" meta = Some (JBool true)
    /\ dict_get "proxy_from_cache" meta = Some (JBool false).
Proof.
  intros reply.
  destruct (@composed_flags Fixture.runtime reply false)
    as (obj & meta & Hobj & Hmeta & Hany & Hproxy & _).
  exists obj, meta. repeat split; done.
Defined.

(** The two encoders at their limits.  A request that nests deeper
    than [json.dumps] goes is not answered: [handle_request] raises
    when it derives the cache key.  A composed reply with a lone
    surrogate in a text is not written: its encoding raises. *)
Lemma deep_request_raises :
  let d := [("mode", JStr "calc"); ("data", JDict [("expr", JStr "1+2")]);
            ("pad", nested 990)] in
  calc_request d "1+2"
  /\ handle_request (rt := Fixture.runtime) (Fixture.worlds 0) (JDict d)
       (LRUCache.init 2)
     = Raise (Exn RecursionError
                "maximum recursion depth exceeded while encoding a JSON object").
Proof.
  intros d. split; [|by vm_compute].
  split; [done|]. split; [by eexists|]. split; [done|]. by left.
Qed.

Lemma surrogate_reply_raises :
  let reply := [("ok", JBool true); ("result", JStr lone_surrogate)] in
  exists obj,
    compose_meta (JDict reply) false = Ok obj
    /\ composed_line (rt := Fixture.runtime) obj
       = Raise (Exn UnicodeEncodeError "'utf-8' codec can't encode characters").
Proof. intros reply. eexists. split; [done|]. by vm_compute. Qed.

(** * Further properties of the code *)

(** ** The result cache *)

Section DictMore.
Context {K A : Type} `{EqDecision K}.
Implicit Types (d : list (K * A)) (k : K) (v : A).

Lemma dict_get_app k d1 d2 :
  dict_get k (d1 ++ d2)%list =
    match dict_get k d1 with Some x => Some x | None => dict_get k d2 end.
Proof.
  induction d1 as [|[k' v'] d1 IH]; simpl; [done|]. by case_decide.
Qed.

Lemma dict_get_del_ne k k' d : k' <> k -> dict_get k' (dict_del k d) = dict_get k' d.
Proof.
  intros Hne. unfold dict_del. induction d as [|[k0 v0] d IH]; simpl; [done|].
  destruct (decide (k0 = k)) as [->|Hk0].
  - rewrite filter_cons_False by (simpl; tauto). by rewrite decide_False.
  - rewrite filter_cons_True by done. simpl. by rewrite IH.
Qed.

Lemma dict_del_not_elem k d : k ∉ keys (dict_del k d).
Proof.
  rewrite keys_dict_del. intros Hin. by apply list_elem_of_filter in Hin as [? _].
Qed.

Lemma dict_del_app_last k v d : k ∉ keys d -> dict_del k (d ++ [(k, v)])%list = d.
Proof.
  intros Hk. unfold dict_del. rewrite filter_app.
  rewrite filter_cons_False, filter_nil by (simpl; tauto).
  rewrite app_nil_r. by apply dict_del_absent.
Qed.

Lemma dict_get_move_to_end_gen k d : dict_get k (move_to_end k d) = dict_get k d.
Proof.
  unfold move_to_end. destruct (dict_get k d) as [v|] eqn:Hk; [|done].
  apply dict_get_app_last, dict_del_not_elem.
Qed.

(** Moving the last item to the end changes nothing. *)
Lemma move_to_end_last k v d :
  k ∉ keys d -> move_to_end k (d ++ [(k, v)])%list = (d ++ [(k, v)])%list.
Proof.
  intros Hk. unfold move_to_end.
  by rewrite dict_get_app_last, dict_del_app_last.
Qed.

Lemma dict_del_perm k v d :
  NoDup (keys d) -> dict_get k d = Some v ->
  Permutation (dict_del k d ++ [(k, v)]) d.
Proof.
  unfold dict_del. induction d as [|[k0 v0] d IH]; simpl; [done|].
  intros [Hk0 Hnd]%NoDup_cons. destruct (decide (k0 = k)) as [->|Hne].
  - intros [= ->]. rewrite filter_cons_False by (simpl; tauto).
    fold (dict_del k d). rewrite dict_del_absent by done.
    by rewrite Permutation_app_comm.
  - intros Hget. rewrite filter_cons_True by done. simpl.
    by rewrite IH.
Qed.

Lemma length_dict_del_present k d :
  NoDup (keys d) -> k ∈ keys d -> S (length (dict_del k d)) = length d.
Proof.
  intros Hnd Hk. destruct (dict_get k d) as [v|] eqn:Hget.
  - rewrite <- (Permutation_length (dict_del_perm k v d Hnd Hget)).
    rewrite length_app. simpl. lia.
  - apply dict_get_None in Hget. done.
Qed.
End DictMore.

Section LRUMore.
Context {K V : Type} `{EqDecision K}.
Import LRUCache.
Implicit Types (c : LRUCache.t K V) (k : K) (v : V).

(** What [set] leaves: the new item last, behind the other items or
    behind all of them but the oldest. *)
Lemma set_shape k v c :
  1 <= capacity c ->
  exists p, (k ∉ keys p) /\ set k v c = Make (capacity c) (p ++ [(k, v)]).
Proof.
  intros Hcap. unfold set. rewrite move_to_end_set.
  pose proof (dict_del_not_elem k (_d c)) as Hk.
  destruct (_ >? _) eqn:E.
  - destruct (dict_del k (_d c)) as [|x p] eqn:Hp.
    + simpl in E. rewrite Z.gtb_ltb in E. apply Z.ltb_lt in E. lia.
    + exists p. split; [|done]. unfold keys in *. simpl in Hk.
      by apply not_elem_of_cons in Hk as [_ ?].
  - by exists (dict_del k (_d c)).
Qed.

Lemma get_after_set k v c :
  1 <= capacity c -> get k (set k v c) = (Some v, set k v c).
Proof.
  intros Hcap. destruct (set_shape k v c Hcap) as (p & Hk & ->).
  unfold get, dict_mem. simpl.
  rewrite move_to_end_last, dict_get_app_last by done. done.
Qed.

(** X1.  A cache built with a capacity that is not negative never
    holds more items than its capacity, whatever is read and written,
    and its keys stay pairwise distinct. *)
Theorem lru_size_within_capacity (cap : Z) (ops : list (op K V)) :
  0 <= cap ->
  Z.of_nat (length (_d (run ops (init cap)))) <= cap
  /\ NoDup (keys (_d (run ops (init cap))))
  /\ capacity (run ops (init cap)) = cap.
Proof.
  intros Hcap. split; [by apply length_run|]. split.
  - eapply by_recency_NoDup, by_recency_run.
  - apply capacity_run.
Qed.

(** X2.  With a capacity of at least 1, what [set] has written [get]
    reads back at once, and that read changes nothing: the item is
    already the most recent one. *)
Theorem lru_set_then_get k v c :
  1 <= capacity c -> get k (set k v c) = (Some v, set k v c).
Proof. apply get_after_set. Qed.

(** X3.  A cache built with capacity 0 or less keeps nothing: after
    any accesses it is empty, so every read misses. *)
Theorem lru_without_capacity_keeps_nothing (cap : Z) (ops : list (op K V)) k :
  cap <= 0 ->
  _d (run ops (init cap)) = [] /\ (get k (run ops (init cap))).1 = None.
Proof.
  intros Hcap.
  assert (Hempty : _d (run ops (init cap)) = []).
  { induction ops as [|o ops IH] using rev_ind; [done|].
    rewrite run_snoc. destruct o as [k'|k' v']; simpl.
    - rewrite get_absent; [done|]. rewrite IH. apply not_elem_of_nil.
    - rewrite set_d, IH, capacity_run. simpl.
      destruct (_ >? _) eqn:E; [done|].
      rewrite Z.gtb_ltb in E. apply Z.ltb_ge in E. lia. }
  split; [done|]. rewrite get_absent; [done|]. rewrite Hempty. apply not_elem_of_nil.
Qed.

(** X4.  A read returns the stored value and never changes what the
    cache holds: every key maps to what it mapped to, the capacity is
    the same and the items are the same up to their order. *)
Theorem lru_get_keeps_contents k c :
  (get k c).1 = dict_get k (_d c)
  /\ capacity (get k c).2 = capacity c
  /\ (forall k', dict_get k' (_d (get k c).2) = dict_get k' (_d c))
  /\ (NoDup (keys (_d c)) -> _d (get k c).2 ≡ₚ _d c).
Proof.
  split; [|split; [apply capacity_get|]].
  - unfold get. destruct (dict_mem k (_d c)) eqn:Hm; simpl.
    + by apply dict_get_move_to_end_gen.
    + unfold dict_mem in Hm. by destruct (dict_get k (_d c)).
  - destruct (dict_get k (_d c)) as [v|] eqn:Hk.
    + rewrite (get_present _ _ _ Hk). split.
      * intros k'. rewrite dict_get_app. destruct (decide (k' = k)) as [->|Hne].
        -- pose proof (dict_del_not_elem k (_d c)) as Hn.
           apply dict_get_None in Hn. rewrite Hn. simpl. by rewrite decide_True.
        -- rewrite dict_get_del_ne by done.
           destruct (dict_get k' (_d c)); [done|]. simpl. by rewrite decide_False.
      * intros Hnd. by apply dict_del_perm.
    + apply dict_get_None in Hk. rewrite get_absent by done. done.
Qed.

(** X5.  Writing a key that is already there replaces its value and
    nothing else: no item is evicted, every other key keeps its value
    and the size is the same. *)
Theorem lru_overwrite_evicts_nothing k v c :
  NoDup (keys (_d c)) -> Z.of_nat (length (_d c)) <= capacity c ->
  k ∈ keys (_d c) ->
  dict_get k (_d (set k v c)) = Some v
  /\ (forall k', k' <> k -> dict_get k' (_d (set k v c)) = dict_get k' (_d c))
  /\ length (_d (set k v c)) = length (_d c).
Proof.
  intros Hnd Hlen Hk.
  pose proof (length_dict_del_present k (_d c) Hnd Hk) as Hdel.
  assert (Hd : _d (set k v c) = (dict_del k (_d c) ++ [(k, v)])%list).
  { rewrite set_d. simpl. destruct (_ >? _) eqn:E; [|done].
    rewrite Z.gtb_ltb in E. apply Z.ltb_lt in E.
    rewrite length_app in E. simpl in E. lia. }
  rewrite Hd. split; [|split].
  - apply dict_get_app_last, dict_del_not_elem.
  - intros k' Hne. rewrite dict_get_app, dict_get_del_ne by done.
    destruct (dict_get k' (_d c)); [done|]. simpl. by rewrite decide_False.
  - rewrite length_app. simpl. lia.
Qed.
End LRUMore.

Lemma lru_size_within_capacity_witness :
  0 <= 2
  /\ Z.of_nat (length (LRUCache._d (LRUCache.run
        [LRUCache.OpSet "a" 1%nat; LRUCache.OpSet "b" 2%nat; LRUCache.OpSet "c" 3%nat]
        (LRUCache.init 2)))) <= 2.
Proof.
  assert (Hcap : 0 <= 2) by lia.
  split; [exact Hcap|].
  exact (proj1 (lru_size_within_capacity 2
           [LRUCache.OpSet "a" 1%nat; LRUCache.OpSet "b" 2%nat; LRUCache.OpSet "c" 3%nat]
           Hcap)).
Defined.

Lemma lru_set_then_get_witness :
  1 <= LRUCache.capacity (LRUCache.init (K := string) (V := nat) 1)
  /\ LRUCache.get "b" (LRUCache.set "b" 2%nat (LRUCache.set "a" 1%nat (LRUCache.init 1)))
     = (Some 2%nat, LRUCache.set "b" 2%nat (LRUCache.set "a" 1%nat (LRUCache.init 1))).
Proof.
  assert (Hcap : 1 <= LRUCache.capacity (LRUCache.init (K := string) (V := nat) 1))
    by (simpl; lia).
  split; [exact Hcap|].
  apply (lru_set_then_get "b" 2%nat (LRUCache.set "a" 1%nat (LRUCache.init 1))).
  rewrite capacity_set. exact Hcap.
Defined.

Lemma lru_without_capacity_keeps_nothing_witness :
  0 <= 0
  /\ LRUCache._d (LRUCache.run [LRUCache.OpSet "a" 1%nat; LRUCache.OpGet "a"]
                    (LRUCache.init 0)) = [].
Proof.
  assert (Hcap : 0 <= 0) by lia.
  split; [exact Hcap|].
  exact (proj1 (lru_without_capacity_keeps_nothing 0
           [LRUCache.OpSet "a" 1%nat; LRUCache.OpGet "a"] "a" Hcap)).
Defined.

Lemma lru_overwrite_evicts_nothing_witness :
  let c := LRUCache.Make 2 [("a", 1%nat); ("b", 2%nat)] in
  NoDup (keys (LRUCache._d c))
  /\ Z.of_nat (length (LRUCache._d c)) <= LRUCache.capacity c
  /\ "a" ∈ keys (LRUCache._d c)
  /\ length (LRUCache._d (LRUCache.set "a" 5%nat c)) = 2%nat.
Proof.
  intros c.
  assert (Hnd : NoDup (keys (LRUCache._d c))) by compute_done.
  assert (Hlen : Z.of_nat (length (LRUCache._d c)) <= LRUCache.capacity c)
    by (simpl; lia).
  assert (Hin : "a" ∈ keys (LRUCache._d c)) by (simpl; by left).
  split; [exact Hnd|]. split; [exact Hlen|]. split; [exact Hin|].
  exact (proj2 (proj2 (lru_overwrite_evicts_nothing "a" 5%nat c Hnd Hlen Hin))).
Defined.

(** ** The calculator *)

Lemma expr_nested_ind (P : expr -> Prop) :
  (forall value, P (Constant value)) -> (forall id, P (Name id)) ->
  (forall op operand, P operand -> P (UnaryOp op operand)) ->
  (forall lhs op rhs, P lhs -> P rhs -> P (BinOp lhs op rhs)) ->
  (forall func args, P func -> Forall P args -> P (Call func args)) ->
  P OtherNode ->
  forall node, P node.
Proof.
  intros Hc Hn Hu Hb Hcall Ho. fix IH 1.
  intros [value|id|op operand|lhs op rhs|func args| ].
  - apply Hc.
  - apply Hn.
  - apply Hu, IH.
  - apply Hb; apply IH.
  - apply Hcall; [apply IH|].
    revert args. fix IHargs 1. intros [|a args]; constructor; [apply IH | apply IHargs].
  - apply Ho.
Qed.

Section Whitelist.
Context {rt : Runtime}.

(** The arguments of a call, evaluated from left to right. *)
Lemma eval_args_ok (args : list expr) (xs : list pynum) :
  Forall (fun a => forall v, _eval_node a = Ok v -> whitelisted a) args ->
  (fix eval_args (l : list expr) : result (list pynum) :=
     match l with
     | [] => Ok []
     | a :: l' => x ← _eval_node a; xs ← eval_args l'; Ok (x :: xs)
     end) args = Ok xs ->
  Forall whitelisted args.
Proof.
  revert xs. induction args as [|a args IH]; intros xs Hall; [constructor|].
  apply Forall_cons in Hall as [Ha Hall]. simpl.
  destruct (_eval_node a) as [x|e] eqn:Hx; [|done]. simpl.
  destruct ((fix eval_args (l : list expr) : result (list pynum) := _) args)
    as [xs'|e] eqn:Hxs; [|done].
  intros _. constructor; [by eapply Ha | by eapply IH].
Qed.

Lemma eval_whitelisted (node : expr) (v : pynum) :
  _eval_node node = Ok v -> whitelisted node.
Proof.
  revert v. induction node as [value|id|op operand IH|lhs op rhs IHl IHr|func args _ IHargs| ]
    using expr_nested_ind; intros v; simpl.
  - destruct value; try done; intros _; by constructor.
  - destruct (_ALLOWED_CONSTS id) as [c|] eqn:Hid; [|done].
    intros _. constructor. by rewrite Hid.
  - destruct (allowed_unaryop op) eqn:Hop; [|done].
    destruct (_eval_node operand) as [x|e]; [|done]. intros _.
    constructor; [done|]. by eapply IH.
  - destruct (allowed_operator op) eqn:Hop; [|done].
    destruct (_eval_node lhs) as [x|e]; [|done]. simpl.
    destruct (_eval_node rhs) as [y|e]; [|done]. intros _.
    constructor; [done| by eapply IHl | by eapply IHr].
  - destruct func as [ |id| | | | ]; try done.
    destruct (_ALLOWED_FUNCS id) as [f|] eqn:Hid; [|done].
    destruct ((fix eval_args (l : list expr) : result (list pynum) := _) args)
      as [xs|e] eqn:Hxs; [|done].
    intros _. constructor; [by rewrite Hid|]. by eapply eval_args_ok.
  - done.
Qed.

Lemma allowed_consts_names (id : str) :
  is_Some (_ALLOWED_CONSTS id) <-> id = "pi" \/ id = "e".
Proof.
  unfold _ALLOWED_CONSTS.
  destruct (String.eqb_spec id "pi") as [->|Hpi]; [split; [by left | by eexists]|].
  destruct (String.eqb_spec id "e") as [->|He]; [split; [by right | by eexists]|].
  split; [by intros [? ?] | by intros [?|?]].
Qed.

Lemma allowed_funcs_names (id : str) :
  is_Some (_ALLOWED_FUNCS id)
  <-> In id ["sin"; "cos"; "tan"; "sqrt"; "log"; "exp"; "max"; "min"; "abs"].
Proof.
  unfold _ALLOWED_FUNCS.
  destruct (String.eqb_spec id "sin") as [->|?]; [split; [simpl; auto 12 | by eexists]|].
  destruct (String.eqb_spec id "cos") as [->|?]; [split; [simpl; auto 12 | by eexists]|].
  destruct (String.eqb_spec id "tan") as [->|?]; [split; [simpl; auto 12 | by eexists]|].
  destruct (String.eqb_spec id "sqrt") as [->|?]; [split; [simpl; auto 12 | by eexists]|].
  destruct (String.eqb_spec id "log") as [->|?]; [split; [simpl; auto 12 | by eexists]|].
  destruct (String.eqb_spec id "exp") as [->|?]; [split; [simpl; auto 12 | by eexists]|].
  destruct (String.eqb_spec id "max") as [->|?]; [split; [simpl; auto 12 | by eexists]|].
  destruct (String.eqb_spec id "min") as [->|?]; [split; [simpl; auto 12 | by eexists]|].
  destruct (String.eqb_spec id "abs") as [->|?]; [split; [simpl; auto 12 | by eexists]|].
  split; [by intros [? ?] | simpl; intuition congruence].
Qed.

(** X6.  The calculator evaluates nothing outside its white list: an
    expression that has a value is built from numeric constants, the
    names [pi] and [e], the unary [+] and [-], the seven binary
    operators of the table and calls of the nine functions of the table
    by name; the tables hold these names and no others. *)
Theorem eval_only_whitelisted (node : expr) :
  (forall v, _eval_node node = Ok v -> whitelisted node)
  /\ (forall id, is_Some (_ALLOWED_CONSTS id) <-> id = "pi" \/ id = "e")
  /\ (forall id, is_Some (_ALLOWED_FUNCS id)
        <-> In id ["sin"; "cos"; "tan"; "sqrt"; "log"; "exp"; "max"; "min"; "abs"])
  /\ (forall op, allowed_unaryop op = true <-> op = UAdd \/ op = USub)
  /\ (forall op, allowed_operator op = true
        <-> In op [Add; Sub; Mult; Div; Pow; FloorDiv; Mod]).
Proof.
  split; [apply eval_whitelisted|].
  split; [apply allowed_consts_names|]. split; [apply allowed_funcs_names|].
  split; intros []; simpl; intuition congruence.
Qed.
End Whitelist.

(** ** The delegate and the dispatcher *)

(** X7.  A completion whose text is not empty but is white space only
    passes the emptiness test of [call_gpt] and comes back stripped: the
    result is the empty text, not the "Empty response" notice. *)
Theorem call_gpt_blank_text (text : str) :
  text <> "" -> whitespace_only text -> call_gpt (GptResponse (Some text)) = "".
Proof.
  intros Hne Hws. simpl. apply String.eqb_neq in Hne. rewrite Hne. simpl.
  by apply strip_whitespace_only.
Qed.

Lemma call_gpt_blank_text_witness :
  "  " <> "" /\ whitespace_only "  " /\ call_gpt (GptResponse (Some "  ")) = "".
Proof.
  assert (Hne : "  " <> "") by done.
  assert (Hws : whitespace_only "  ").
  { apply ws_one; [done|]. apply ws_one; [done|]. apply ws_empty. }
  split; [exact Hne|]. split; [exact Hws|].
  exact (call_gpt_blank_text "  " Hne Hws).
Defined.

Section Dispatcher.
Context {rt : Runtime}.
Implicit Types (lru : LRUCache.t str res) (d : list (str * json)).

Ltac request_leaf :=
  intros [= <- <-]; right; split; [done|];
  first [by left; eexists | by right; eexists].

(** Every way [handle_request] answers a dictionary: from the cache,
    or after a miss with a failure and the cache as it was, or with a
    fresh result that is stored when caching is on. *)
Lemma handle_request_cases w d lru resp lru' :
  handle_request w (JDict d) lru = Ok (resp, lru') ->
  (exists v, use_cache d = true
             /\ LRUCache.get (key_text (JDict d)) lru = (Some v, lru')
             /\ resp = success (res_json v) true (took_ms w))
  \/ (lookup_result d lru = (None, lru)
      /\ ((exists m, resp = failure m /\ lru' = lru)
          \/ (exists r, resp = success (res_json r) false (took_ms w)
                        /\ lru' = store_result d r lru))).
Proof.
  unfold handle_request, lookup_result, store_result. simpl.
  destruct (py_get_default _ "cache" (JBool true)) as [c|e] eqn:Hc; [|done]. simpl.
  apply options_cache_any in Hc. rewrite Hc.
  destruct (cache_key (JDict d)) as [key|ek] eqn:Hk; [|done]. simpl.
  apply cache_key_text in Hk as [-> _]. set (key := key_text (JDict d)).
  set (mode := default JNull (dict_get "mode" d)).
  set (data := py_or (default JNull (dict_get "data" d)) (JDict [])).
  destruct (use_cache d) eqn:Hu.
  - destruct (LRUCache.get key lru) as [[v|] cache1] eqn:Hg.
    { intros [= <- <-]. left. by exists v. }
    pose proof (get_None key lru) as Hn. rewrite Hg in Hn.
    injection (Hn eq_refl) as ->.
    destruct (eq_str mode "calc").
    + destruct (py_get data "expr") as [e|ex]; simpl; [|request_leaf].
      destruct (negb (py_bool e) || negb (is_str e)); [request_leaf|].
      destruct (safe_eval_expr (as_str e)) as [r|ex]; simpl; [|request_leaf].
      intros [= <- <-]. right. split; [done|]. right. by exists (RFloat r).
    + destruct (eq_str mode "gpt"); [|request_leaf].
      destruct (py_get data "prompt") as [p|ex]; simpl; [|request_leaf].
      destruct (negb (py_bool p) || negb (is_str p)); [request_leaf|].
      intros [= <- <-]. right. split; [done|]. right. by eexists (RStr _).
  - destruct (eq_str mode "calc").
    + destruct (py_get data "expr") as [e|ex]; simpl; [|request_leaf].
      destruct (negb (py_bool e) || negb (is_str e)); [request_leaf|].
      destruct (safe_eval_expr (as_str e)) as [r|ex]; simpl; [|request_leaf].
      intros [= <- <-]. right. split; [done|]. right. by exists (RFloat r).
    + destruct (eq_str mode "gpt"); [|request_leaf].
      destruct (py_get data "prompt") as [p|ex]; simpl; [|request_leaf].
      destruct (negb (py_bool p) || negb (is_str p)); [request_leaf|].
      intros [= <- <-]. right. split; [done|]. right. by eexists (RStr _).
Qed.

(** [options.get("cache", True)] and [json.dumps(msg, sort_keys=True)]
    as [handle_request] evaluates them. *)
Lemma options_answered w d lru x :
  handle_request w (JDict d) lru = Ok x ->
  (exists c, py_get_default (py_or (default JNull (dict_get "options" d)) (JDict []))
               "cache" (JBool true) = Ok c)
  /\ key_derived (JDict d).
Proof.
  unfold handle_request. simpl.
  destruct (py_get_default _ "cache" (JBool true)) as [c|e]; [|done]. simpl.
  destruct (cache_key (JDict d)) as [key|ek] eqn:Hk; [|done].
  intros _. split; [by exists c|]. by apply cache_key_text in Hk as [_ ?].
Qed.

(** A request that finds its key in the cache. *)
Lemma handle_request_hit w d lru c v lru' :
  py_get_default (py_or (default JNull (dict_get "options" d)) (JDict []))
    "cache" (JBool true) = Ok c ->
  key_derived (JDict d) -> use_cache d = true ->
  LRUCache.get (key_text (JDict d)) lru = (Some v, lru') ->
  handle_request w (JDict d) lru = Ok (success (res_json v) true (took_ms w), lru').
Proof.
  intros Hc Hk Hu Hg. unfold handle_request. rewrite Hk. simpl. rewrite Hc. simpl.
  apply options_cache_any in Hc. by rewrite Hc, Hu, Hg.
Qed.

(** *** Values that differ in the order of their keys only *)

Lemma dict_get_perm {A} (k : str) (d1 d2 : list (str * A)) :
  NoDup (keys d1) -> Permutation d1 d2 -> dict_get k d1 = dict_get k d2.
Proof.
  intros Hnd Hp. induction Hp as [|[k0 v0] d1 d2 Hp IH|[k1 v1] [k2 v2] d|d1 d2 d3 H12 IH12 H23 IH23].
  - done.
  - apply NoDup_cons in Hnd as [_ Hnd]. simpl. by rewrite IH.
  - simpl. simpl in Hnd. apply NoDup_cons in Hnd as [Hin _].
    apply not_elem_of_cons in Hin as [Hne _].
    repeat case_decide; simplify_eq; done.
  - rewrite IH12 by done. apply IH23. unfold keys. by rewrite <- H12.
Qed.

Lemma dict_get_same (k : str) (d1 d2 : list (str * json)) :
  NoDup (keys d1) -> same_up_to_key_order (JDict d1) (JDict d2) ->
  match dict_get k d1, dict_get k d2 with
  | Some a, Some b => same_up_to_key_order a b
  | None, None => True
  | _, _ => False
  end.
Proof.
  intros Hnd Hsame. inversion Hsame as [ | | | | | |? d1' ? Hperm Hitems]; subst.
  rewrite (dict_get_perm k d1 d1' Hnd Hperm). clear Hnd Hperm Hsame.
  induction Hitems as [|[k1 v1] [k2 v2] d1' d2 [Hk Hv] _ IH]; simpl; [done|].
  simpl in Hk. subst. by case_decide.
Qed.

Lemma same_py_bool (a b : json) : same_up_to_key_order a b -> py_bool a = py_bool b.
Proof.
  intros Hsame. inversion Hsame as [ | | | | |l1 l2 Hl|d1 d1' d2 Hperm Hitems]; subst;
    simpl; try done.
  - by destruct Hl.
  - apply Permutation_length in Hperm. apply Forall2_length in Hitems.
    destruct d1, d2; simpl in *; try done; lia.
Qed.

Lemma same_is_dict (a b : json) : same_up_to_key_order a b -> is_dict a = is_dict b.
Proof. by destruct 1. Qed.

Lemma json_wf_value (k : str) (d : list (str * json)) (v : json) :
  json_wf (JDict d) -> dict_get k d = Some v -> json_wf v.
Proof.
  intros [_ Hwf]%json_wf_dict. induction d as [|[k0 v0] d IH]; simpl; [done|].
  apply Forall_cons in Hwf as [Hv0 Hwf]. case_decide; [by intros [= <-] | by apply IH].
Qed.

(** The caching option reads the same in both orders. *)
Lemma options_same d d' c :
  json_wf (JDict d) -> same_up_to_key_order (JDict d) (JDict d') ->
  py_get_default (py_or (default JNull (dict_get "options" d)) (JDict []))
    "cache" (JBool true) = Ok c ->
  exists c',
    py_get_default (py_or (default JNull (dict_get "options" d')) (JDict []))
      "cache" (JBool true) = Ok c'
    /\ py_bool c' = py_bool c.
Proof.
  intros Hwf Hsame.
  pose proof (proj1 (proj1 (json_wf_dict d) Hwf)) as Hnd.
  pose proof (dict_get_same "options" d d' Hnd Hsame) as Ho.
  destruct (dict_get "options" d) as [o|] eqn:Hd;
    destruct (dict_get "options" d') as [o'|]; try done;
    [|intros [= <-]; by exists (JBool true)].
  change (default JNull (Some o)) with o. change (default JNull (Some o')) with o'.
  unfold py_or. rewrite <- (same_py_bool o o' Ho).
  destruct (py_bool o); [|intros [= <-]; by exists (JBool true)].
  pose proof (json_wf_value _ _ _ Hwf Hd) as Hwfo.
  destruct o as [ | | | | | |opts]; try done.
  inversion Ho as [ | | | | | |? ? opts' _ _]; subst.
  apply json_wf_dict in Hwfo as [Hndo _].
  pose proof (dict_get_same "cache" opts opts' Hndo Ho) as Hc.
  cbn [py_get_default].
  destruct (dict_get "cache" opts) as [x|], (dict_get "cache" opts') as [x'|];
    try done; intros [= <-]; eexists; split; try done.
  simpl. symmetry. by apply same_py_bool.
Qed.

(** X8.  Once a request has been answered with a fresh result and
    caching on, in a cache of capacity at least 1, the same request
    sent again, with its keys in any order, is answered from the cache:
    the same result, [from_cache] and [any_cache] true, the cache left
    as it is.  Neither the evaluator nor the completion service has a
    say in the second answer; a completion error text that was cached
    is served again as it is. *)
Theorem repeated_request_served_from_cache w w' d d' lru r lru1 :
  json_wf (JDict d) -> same_up_to_key_order (JDict d) (JDict d') ->
  use_cache d = true -> 1 <= LRUCache.capacity lru ->
  handle_request w (JDict d) lru = Ok (success r false (took_ms w), lru1) ->
  handle_request w' (JDict d') lru1 = Ok (success r true (took_ms w'), lru1).
Proof.
  intros Hwf Hsame Hu Hcap Hfirst.
  destruct (options_answered _ _ _ _ Hfirst) as [[c Hc] Hk].
  pose proof (options_cache_any d c Hc) as Hcu.
  destruct (options_same d d' c Hwf Hsame Hc) as (c' & Hc' & Hb).
  pose proof (options_cache_any d' c' Hc') as Hcu'.
  destruct (key_derived_same _ _ Hwf Hsame Hk) as [Hk' Hkey].
  destruct (handle_request_cases _ _ _ _ _ Hfirst)
    as [(v & _ & _ & [=])|[_ [(m & [=] & _)|(res & [= ->] & ->)]]].
  unfold store_result. rewrite Hu.
  apply (handle_request_hit w' d' _ c'); [done | done | congruence |].
  rewrite Hkey. by apply get_after_set.
Qed.

(** X9.  With [options.cache] false the cache is neither read nor
    written: the answer is a failure or a fresh result, never a cached
    one, and the cache is the one the request found, even when it holds
    the request's key. *)
Theorem cache_off_bypasses_cache w d lru resp lru' :
  use_cache d = false ->
  handle_request w (JDict d) lru = Ok (resp, lru') ->
  lru' = lru
  /\ ((exists m, resp = failure m)
      \/ (exists r, resp = success (res_json r) false (took_ms w))).
Proof.
  intros Hu Hreq.
  destruct (handle_request_cases _ _ _ _ _ Hreq)
    as [(v & Hu' & _)|[_ [(m & -> & ->)|(res & -> & ->)]]].
  - congruence.
  - split; [done|]. left. by exists m.
  - unfold store_result. rewrite Hu. split; [done|]. right. by exists res.
Qed.
Lemma eq_str_false (j : json) (s : str) : j <> JStr s -> eq_str j s = false.
Proof.
  destruct j as [ | | | |s'| | ]; simpl; try done.
  intros Hne. apply String.eqb_neq. congruence.
Qed.

Lemma no_text_rejected field d :
  no_text field d ->
  exists e, py_get (py_or (default JNull (dict_get "data" d)) (JDict [])) field = Ok e
            /\ negb (py_bool e) || negb (is_str e) = true.
Proof.
  intros [->|(data & -> & Hbad)]; [by exists JNull|].
  change (default JNull (Some (JDict data))) with (JDict data).
  assert (Hd : exists data', py_or (JDict data) (JDict []) = JDict data'
                             /\ dict_get field data' = dict_get field data).
  { destruct data; [by exists [] | by eexists]. }
  destruct Hd as (data' & -> & Hf). unfold py_get, py_get_default. rewrite Hf.
  destruct Hbad as [->|(j & -> & [Hj| ->])]; eexists; split; try done.
  simpl. rewrite Hj. apply orb_true_r.
Qed.

(** X10.  A request whose cache key [json.dumps] writes and that
    lacks what its mode needs is refused before any evaluation, with
    the cache untouched: a mode other than the
    strings "calc" and "gpt" (or none at all) gets "unknown mode"; a
    calc request without a non-empty string [expr], and a gpt request
    without a non-empty string [prompt], get the "is required" message
    of their field. *)
Theorem invalid_request_refused w d lru :
  plain_options d -> key_derived (JDict d) -> reaches_evaluator d lru ->
  (dict_get "mode" d <> Some (JStr "calc") ->
   dict_get "mode" d <> Some (JStr "gpt") ->
   handle_request w (JDict d) lru = Ok (failure "Bad request: unknown mode", lru))
  /\ (dict_get "mode" d = Some (JStr "calc") -> no_text "expr" d ->
      handle_request w (JDict d) lru
      = Ok (failure "Bad request: 'expr' is required (string)", lru))
  /\ (dict_get "mode" d = Some (JStr "gpt") -> no_text "prompt" d ->
      handle_request w (JDict d) lru
      = Ok (failure "Bad request: 'prompt' is required (string)", lru)).
Proof.
  intros Hopt Hk Hmiss.
  destruct (options_cache d Hopt) as (c & Hc & Hcu).
  pose proof (lookup_result_miss d lru Hmiss) as Hlook. unfold lookup_result in Hlook.
  repeat split.
  - intros Hcalc Hgpt. unfold handle_request. rewrite Hk. simpl. rewrite Hc. simpl.
    rewrite Hcu, Hlook.
    rewrite !eq_str_false; [done|..];
      destruct (dict_get "mode" d) as [m|]; simpl; congruence.
  - intros Hmode Htext. unfold handle_request. rewrite Hk. simpl. rewrite Hc. simpl.
    rewrite Hcu, Hlook, Hmode. simpl.
    destruct (no_text_rejected "expr" d Htext) as (e & He & Hbad).
    rewrite He. simpl. by rewrite Hbad.
  - intros Hmode Htext. unfold handle_request. rewrite Hk. simpl. rewrite Hc. simpl.
    rewrite Hcu, Hlook, Hmode. simpl.
    destruct (no_text_rejected "prompt" d Htext) as (e & He & Hbad).
    rewrite He. simpl. by rewrite Hbad.
Qed.

(** X11.  When [data] is present and is neither a dictionary nor
    falsy (a string, a number, a list), a calc or gpt request whose
    cache key [json.dumps] writes is answered with a failure envelope
    that carries Python's "has no attribute 'get'" message; the cache
    is untouched. *)
Theorem data_without_get_is_reported w d lru mode j :
  plain_options d -> key_derived (JDict d) -> reaches_evaluator d lru ->
  dict_get "mode" d = Some (JStr mode) -> mode = "calc" \/ mode = "gpt" ->
  dict_get "data" d = Some j -> py_bool j = true -> is_dict j = false ->
  handle_request w (JDict d) lru
  = Ok (failure ("Server error: '" +:+ type_name j
                 +:+ "' object has no attribute 'get'"), lru).
Proof.
  intros Hopt Hk Hmiss Hmode Hm Hdata Htrue Hnd.
  destruct (options_cache d Hopt) as (c & Hc & Hcu).
  pose proof (lookup_result_miss d lru Hmiss) as Hlook. unfold lookup_result in Hlook.
  unfold handle_request. rewrite Hk. simpl. rewrite Hc. simpl.
  rewrite Hcu, Hlook, Hmode, Hdata. simpl. unfold py_or. rewrite Htrue.
  destruct Hm as [-> | ->]; simpl; by destruct j.
Qed.
End Dispatcher.

Lemma repeated_request_served_from_cache_witness :
  let d := [("mode", JStr "calc"); ("data", JDict [("expr", JStr "1+2")])] in
  let d' := [("data", JDict [("expr", JStr "1+2")]); ("mode", JStr "calc")] in
  let lru1 := LRUCache.set (key_text (rt := Fixture.runtime) (JDict d))
                (RFloat 3%float) (LRUCache.init 2) in
  json_wf (JDict d) /\ same_up_to_key_order (JDict d) (JDict d')
  /\ handle_request (rt := Fixture.runtime) (Fixture.worlds 0) (JDict d)
       (LRUCache.init 2) = Ok (success (JFloat 3%float) false 0, lru1)
  /\ handle_request (rt := Fixture.runtime) (Fixture.worlds 1) (JDict d') lru1
     = Ok (success (JFloat 3%float) true 0, lru1).
Proof.
  intros d d' lru1.
  assert (Hwf : json_wf (JDict d)) by (simpl; repeat split; compute_done).
  assert (Hsame : same_up_to_key_order (JDict d) (JDict d')).
  { apply (same_dict _ d'); [apply perm_swap|].
    constructor; [split; [done|] | constructor; [split; [done|constructor] | constructor]].
    apply (same_dict _ [("expr", JStr "1+2")]); [done|].
    constructor; [split; [done|constructor] | constructor]. }
  assert (Hfirst : handle_request (rt := Fixture.runtime) (Fixture.worlds 0) (JDict d)
                     (LRUCache.init 2) = Ok (success (JFloat 3%float) false 0, lru1))
    by done.
  split; [exact Hwf|]. split; [exact Hsame|]. split; [exact Hfirst|].
  apply (@repeated_request_served_from_cache Fixture.runtime (Fixture.worlds 0)
           (Fixture.worlds 1) d d' (LRUCache.init 2) (JFloat 3%float) lru1
           Hwf Hsame eq_refl);
    [simpl; lia | exact Hfirst].
Defined.

Lemma cache_off_bypasses_cache_witness :
  let d := [("mode", JStr "calc"); ("data", JDict [("expr", JStr "1+2")]);
            ("options", JDict [("cache", JBool false)])] in
  let resp := success (JFloat 3%float) false 0 in
  handle_request (rt := Fixture.runtime) (Fixture.worlds 0) (JDict d)
    (LRUCache.init 2) = Ok (resp, LRUCache.init 2)
  /\ LRUCache.init (K := str) (V := res) 2 = LRUCache.init 2
  /\ ((exists m, resp = failure m)
      \/ (exists r, resp = success (res_json r) false
                             (took_ms (Fixture.worlds 0)))).
Proof.
  intros d resp.
  assert (Hreq : handle_request (rt := Fixture.runtime) (Fixture.worlds 0) (JDict d)
                   (LRUCache.init 2) = Ok (resp, LRUCache.init 2)) by done.
  split; [exact Hreq|].
  exact (@cache_off_bypasses_cache Fixture.runtime (Fixture.worlds 0) d
           (LRUCache.init 2) resp (LRUCache.init 2) eq_refl Hreq).
Defined.

Lemma invalid_request_refused_witness :
  let d := [("mode", JStr "noop")] in
  plain_options d /\ key_derived (rt := Fixture.runtime) (JDict d)
  /\ reaches_evaluator (rt := Fixture.runtime) d (LRUCache.init 2)
  /\ handle_request (rt := Fixture.runtime) (Fixture.worlds 0) (JDict d)
       (LRUCache.init 2) = Ok (failure "Bad request: unknown mode", LRUCache.init 2).
Proof.
  intros d.
  assert (Hopt : plain_options d) by (by left).
  assert (Hk : key_derived (rt := Fixture.runtime) (JDict d)) by done.
  assert (Hmiss : reaches_evaluator (rt := Fixture.runtime) d (LRUCache.init 2))
    by (by right).
  split; [exact Hopt|]. split; [exact Hk|]. split; [exact Hmiss|].
  apply (@invalid_request_refused Fixture.runtime (Fixture.worlds 0) d
           (LRUCache.init 2) Hopt Hk Hmiss); done.
Defined.

Lemma data_without_get_is_reported_witness :
  let d := [("mode", JStr "calc"); ("data", JStr "1+2")] in
  plain_options d /\ key_derived (rt := Fixture.runtime) (JDict d)
  /\ reaches_evaluator (rt := Fixture.runtime) d (LRUCache.init 2)
  /\ handle_request (rt := Fixture.runtime) (Fixture.worlds 0) (JDict d)
       (LRUCache.init 2)
     = Ok (failure "Server error: 'str' object has no attribute 'get'",
           LRUCache.init 2).
Proof.
  intros d.
  assert (Hopt : plain_options d) by (by left).
  assert (Hk : key_derived (rt := Fixture.runtime) (JDict d)) by done.
  assert (Hmiss : reaches_evaluator (rt := Fixture.runtime) d (LRUCache.init 2))
    by (by right).
  split; [exact Hopt|]. split; [exact Hk|]. split; [exact Hmiss|].
  apply (@data_without_get_is_reported Fixture.runtime (Fixture.worlds 0) d
           (LRUCache.init 2) "calc" (JStr "1+2") Hopt Hk Hmiss); auto.
Defined.


Section ServerFraming.
Context {rt : Runtime}.
Implicit Types (c : conn) (chunks : list bytes).

(** The requests handled, the replies written and the complete lines
    received, along a connection. *)
Lemma serve_line_counts worlds n c :
  has_newline (buffer c) = true -> counted n c ->
  match serve_line worlds c with
  | Continue c' => counted n c'
  | Failed c' _ => stopped n c'
  end.
Proof.
  intros Hnl [Hs Hn]. unfold serve_line, counted, stopped.
  rewrite (count_newlines_partition _ Hnl) in Hn.
  destruct (partition (buffer c)) as [[line sep] rest]. simpl in Hn.
  destruct (text ← decode_utf8 utf8_errmsg line; msg ← json_loads text;
            handle_request (worlds (handled c)) msg (cache c))
    as [[resp lru]|ex]; simpl; rewrite ?length_app; simpl; split; lia.
Qed.

Lemma serve_buffer_counts worlds c n :
  counted n c ->
  match serve_buffer worlds c with
  | Continue c' => length (sent c') = handled c' /\ handled c' = n
  | Failed c' _ => stopped n c'
  end.
Proof.
  intros Hc.
  pose proof (while_lines_invariant buffer (serve_line worlds)
                (counted n) (stopped n)) as Hinv.
  assert (Hrun : match serve_buffer worlds c with
                 | Continue c' => counted n c'
                 | Failed c' _ => stopped n c'
                 end).
  { apply Hinv; [| |done].
    - intros c0 c' Hnl H0 Ht. pose proof (serve_line_counts worlds n c0 Hnl H0) as H.
      by rewrite Ht in H.
    - intros c0 c' e Hnl H0 Ht. pose proof (serve_line_counts worlds n c0 Hnl H0) as H.
      by rewrite Ht in H. }
  destruct (serve_buffer worlds c) as [c'|c' e] eqn:Hb; [|done].
  destruct Hrun as [Hs Hn]. split; [done|].
  rewrite (count_newlines_none (buffer c')) in Hn by (by apply (serve_buffer_drained worlds c)).
  lia.
Qed.

Lemma recv_loop_counts worlds fin chunks : forall c,
  Forall (fun x => x <> "") chunks ->
  length (sent c) = handled c -> has_newline (buffer c) = false ->
  match recv_loop worlds chunks fin c with
  | PeerClosed c' =>
      fin = None
      /\ handled c' = (handled c + count_newlines (stream chunks))%nat
      /\ length (sent c') = handled c' /\ has_newline (buffer c') = false
  | Aborted c' =>
      length (sent c') = S (handled c')
      /\ ((handled c' < handled c + count_newlines (stream chunks))%nat
          \/ (handled c' = (handled c + count_newlines (stream chunks))%nat
              /\ is_Some fin))
  end.
Proof.
  induction chunks as [|chunk more IH]; intros c Hall Hs Hnl.
  - destruct fin as [e|]; simpl.
    + rewrite length_app. simpl. split; [lia|]. right. split; [lia|by eexists].
    + repeat split; [lia|done|done].
  - apply Forall_cons in Hall as [Hne Hall].
    cbn [recv_loop]. apply String.eqb_neq in Hne. rewrite Hne.
    simpl stream. rewrite count_newlines_app.
    pose proof (serve_buffer_counts worlds
                  (Conn (buffer c +:+ chunk) (cache c) (sent c) (handled c))
                  (handled c + count_newlines chunk)) as Hrun.
    destruct (serve_buffer worlds _) as [c'|c' e] eqn:Hb.
    + destruct Hrun as [Hs' Hn'].
      { split; [done|]. simpl. rewrite count_newlines_app.
        by rewrite (count_newlines_none _ Hnl). }
      pose proof (IH c' Hall Hs' (serve_buffer_drained worlds _ _ Hb)) as Hrest.
      destruct (recv_loop worlds more fin c') as [c''|c''].
      * destruct Hrest as (? & ? & ? & ?). repeat split; [done|lia|done|done].
      * destruct Hrest as (? & [?|[? ?]]); (split; [done|]); [left|right; split];
          first [lia | done].
    + destruct Hrun as [Hs' Hn'].
      { split; [done|]. simpl. rewrite count_newlines_app.
        by rewrite (count_newlines_none _ Hnl). }
      simpl. rewrite length_app. simpl. split; [lia|]. left. lia.
Qed.

Lemma recv_loop_unterminated worlds chunks : forall c,
  Forall (fun x => x <> "") chunks ->
  has_newline (buffer c +:+ stream chunks) = false ->
  recv_loop worlds chunks None c
  = PeerClosed (Conn (buffer c +:+ stream chunks) (cache c) (sent c) (handled c)).
Proof.
  induction chunks as [|chunk more IH]; intros c Hall Hnl.
  - simpl. rewrite append_nil_r. by destruct c.
  - apply Forall_cons in Hall as [Hne Hall].
    cbn [recv_loop]. apply String.eqb_neq in Hne. rewrite Hne.
    simpl stream in *. rewrite <- append_assoc in Hnl.
    assert (Hhere : has_newline (buffer c +:+ chunk) = false).
    { rewrite has_newline_app in Hnl. by apply orb_false_elim in Hnl as [? _]. }
    unfold serve_buffer. rewrite while_lines_exit by done.
    rewrite IH by done. simpl. by rewrite append_assoc.
Qed.

(** X12.  How the bytes of a connection are cut into pieces by [recv]
    does not matter: the replies written, the cache, the number of
    requests handled and whether the connection was aborted are those
    of the same bytes received in one piece. *)
Theorem chunking_does_not_matter worlds chunks shared :
  Forall (fun x => x <> "") chunks ->
  outcome (handle_client worlds chunks None shared)
  = outcome (handle_client worlds [stream chunks] None shared).
Proof.
  intros Hall. unfold handle_client. destruct chunks as [|chunk more]; [done|].
  apply Forall_cons in Hall as [Hne Hall]. by apply recv_loop_stream.
Qed.

(** X13.  Over a connection that ends because the peer closes, every
    complete line received was handled and got exactly one reply, and
    no complete line is left in the buffer.  Over a connection that
    ends in the [except] branch the lines written are one more than
    the requests handled (the error line), and either a complete line
    at least was not handled (a turn failed), or every complete line
    was handled and it is [recv] that raised. *)
Theorem every_line_answered_once worlds chunks fin shared :
  Forall (fun x => x <> "") chunks ->
  let lines := count_newlines (stream chunks) in
  match handle_client worlds chunks fin shared with
  | PeerClosed c =>
      fin = None /\ handled c = lines /\ length (sent c) = lines
      /\ has_newline (buffer c) = false
  | Aborted c =>
      length (sent c) = S (handled c)
      /\ ((handled c < lines)%nat \/ (handled c = lines /\ is_Some fin))
  end.
Proof.
  intros Hall lines. unfold handle_client.
  pose proof (recv_loop_counts worlds fin chunks (Conn "" shared [] 0) Hall
                eq_refl eq_refl) as Hrun.
  subst lines. destruct (recv_loop worlds chunks fin _) as [c|c];
    cbn [handled sent buffer Nat.add] in Hrun.
  - destruct Hrun as (Hf & Hh & Hs & Hb). repeat split; [done|done|congruence|done].
  - done.
Qed.

(** X14.  Bytes that never reach a newline are never answered: when
    the peer closes, they are in the buffer, nothing was written and
    the cache is as it was. *)
Theorem unterminated_request_dropped worlds chunks shared :
  Forall (fun x => x <> "") chunks ->
  has_newline (stream chunks) = false ->
  handle_client worlds chunks None shared
  = PeerClosed (Conn (stream chunks) shared [] 0).
Proof.
  intros Hall Hnl. unfold handle_client.
  by rewrite recv_loop_unterminated.
Qed.

(** X15.  [handle_request] raises in three cases only: the message is
    not an object, or its [options] are a true value that is not an
    object (both an [AttributeError] for a missing [get]), or
    [json.dumps] raises on the message when the cache key is derived,
    which it does exactly on a message that nests deeper than the
    encoder goes.  Everything else is answered with an envelope. *)
Theorem handle_request_raises_without_get w msg lru e :
  (handle_request w msg lru = Raise e <->
   (is_dict msg = false /\ e = no_get msg)
   \/ (exists d o, msg = JDict d /\ dict_get "options" d = Some o
                   /\ py_bool o = true /\ is_dict o = false /\ e = no_get o)
   \/ (exists d, msg = JDict d
                 /\ (forall o, dict_get "options" d = Some o -> py_bool o = true ->
                       is_dict o = true)
                 /\ cache_key msg = Raise e))
  /\ (cache_key msg = Raise e <->
      (dumps_max_depth < depth msg)%nat
      /\ e = Exn RecursionError
               "maximum recursion depth exceeded while encoding a JSON object").
Proof.
  split; [split|].
  - destruct msg as [ |b|z|f|s|l|d];
      try (intros [= <-]; left; by split).
    intros Hreq. right.
    destruct (py_get_default
                (py_or (default JNull (dict_get "options" d)) (JDict []))
                "cache" (JBool true)) as [c|ex] eqn:Hc.
    + right. exists d. split; [done|].
      assert (Hkey : cache_key (JDict d) = Raise e).
      { revert Hreq. unfold handle_request. simpl. rewrite Hc. simpl.
        destruct (cache_key (JDict d)) as [key|ek]; simpl; [|by intros [= ->]].
        by destruct (if py_bool c then LRUCache.get _ lru else (None, lru))
          as [[v|] cache1]. }
      split; [|done]. intros o Ho Hb. rewrite Ho in Hc.
      change (default JNull (Some o)) with o in Hc.
      unfold py_or in Hc. rewrite Hb in Hc. by destruct o.
    + left. assert (ex = e).
      { revert Hreq. unfold handle_request. simpl. rewrite Hc. by intros [= ->]. }
      subst ex. destruct (dict_get "options" d) as [o|] eqn:Hopt; [|done].
      exists d, o. change (default JNull (Some o)) with o in Hc.
      unfold py_or in Hc. destruct (py_bool o) eqn:Ho; [|done].
      destruct o; try done; simpl in Hc; injection Hc as <-; by repeat split.
  - intros [[Hd ->]|[(d & o & -> & Ho & Hb & Hd & ->)|(d & -> & Hopt & Hkey)]].
    + by destruct msg.
    + unfold handle_request. simpl. rewrite Ho.
      change (default JNull (Some o)) with o. unfold py_or. rewrite Hb.
      by destruct o.
    + unfold handle_request. rewrite Hkey. simpl.
      destruct (dict_get "options" d) as [o|]; [|done].
      change (default JNull (Some o)) with o. unfold py_or.
      destruct (py_bool o) eqn:Hb; [|done].
      specialize (Hopt o eq_refl Hb). by destruct o.
  - unfold cache_key, json_dumps.
    destruct (depth msg <=? dumps_max_depth)%nat eqn:Hd.
    + apply Nat.leb_le in Hd. split; [done|]. intros [? _]. lia.
    + apply Nat.leb_gt in Hd. split; [by intros [= <-]|by intros [_ ->]].
Qed.

(** X16.  A line that is valid JSON but not an object, wherever it
    stands in the bytes of a connection and however [recv] cuts them
    into pieces, ends the connection like a malformed one: one failure
    envelope naming the missing [get] after the replies to the lines
    before, nothing cached or counted for it, and the lines after it
    are not handled. *)
Theorem non_object_line_closes worlds chunks fin shared before line rest c0 text msg :
  Forall (fun x => x <> "") chunks ->
  stream chunks = before +:+ line +:+ newline +:+ rest ->
  has_newline line = false ->
  serve_buffer worlds (Conn before shared [] 0) = Continue c0 -> buffer c0 = "" ->
  decode_utf8 utf8_errmsg line = Ok text -> json_loads text = Ok msg ->
  is_dict msg = false ->
  let envelope := failure ("Malformed: '" +:+ type_name msg
                           +:+ "' object has no attribute 'get'") in
  outcome (handle_client worlds chunks fin shared)
  = (true, cache c0,
     (sent c0 ++ [encode_utf8 (dumps true false envelope +:+ newline)])%list,
     handled c0).
Proof.
  intros Hall Hs Hline Hbefore Hdone Hdec Hload Hmsg envelope.
  destruct (partition_line line rest Hline) as [Hnl _].
  rewrite (handle_client_fails_at worlds chunks fin shared before
             (line +:+ newline +:+ rest) c0
             (Conn rest (cache c0) (sent c0) (handled c0)) (no_get msg));
    try done.
  rewrite (serve_line_parsed worlds
             (Conn (line +:+ newline +:+ rest) (cache c0) (sent c0) (handled c0))
             line rest text msg Hline eq_refl Hdec Hload).
  by destruct msg.
Qed.
End ServerFraming.

Lemma chunking_does_not_matter_witness :
  let line := Fixture.request_text "calc" "expr" "1+2" +:+ newline in
  let chunks := ["{"; String.substring 1 (String.length line) line] in
  stream chunks = line
  /\ outcome (handle_client (rt := Fixture.runtime) Fixture.worlds chunks None
                (LRUCache.init 2))
     = outcome (handle_client (rt := Fixture.runtime) Fixture.worlds [stream chunks]
                  None (LRUCache.init 2)).
Proof.
  intros line chunks. split; [done|].
  apply (@chunking_does_not_matter Fixture.runtime Fixture.worlds chunks
           (LRUCache.init 2)).
  repeat constructor; done.
Defined.

Lemma every_line_answered_once_witness :
  let line := Fixture.request_text "calc" "expr" "1+2" +:+ newline in
  let chunks := [line; "{"] in
  let fin := Some (Exn OSError "[Errno 104] Connection reset by peer") in
  count_newlines (stream chunks) = 1%nat
  /\ match handle_client (rt := Fixture.runtime) Fixture.worlds chunks fin
            (LRUCache.init 2) with
     | PeerClosed c =>
         fin = None /\ handled c = count_newlines (stream chunks)
         /\ length (sent c) = count_newlines (stream chunks)
         /\ has_newline (buffer c) = false
     | Aborted c =>
         length (sent c) = S (handled c)
         /\ ((handled c < count_newlines (stream chunks))%nat
             \/ (handled c = count_newlines (stream chunks) /\ is_Some fin))
     end.
Proof.
  intros line chunks fin. split; [done|].
  apply (@every_line_answered_once Fixture.runtime Fixture.worlds chunks fin
           (LRUCache.init 2)).
  repeat constructor; done.
Defined.

Lemma unterminated_request_dropped_witness :
  handle_client (rt := Fixture.runtime) Fixture.worlds ["{"; "}"] None
    (LRUCache.init 2)
  = PeerClosed (Conn "{}" (LRUCache.init 2) [] 0).
Proof.
  apply (@unterminated_request_dropped Fixture.runtime Fixture.worlds ["{"; "}"]
           (LRUCache.init 2)); [repeat constructor; done | done].
Defined.

Lemma non_object_line_closes_witness :
  let request := Fixture.request_text "calc" "expr" "1+2" +:+ newline in
  let reply := encode_utf8 (dumps (rt := number_runtime) false false
                              (success (JFloat 3%float) false 0) +:+ newline) in
  let lru := LRUCache.set
               (key_text (rt := number_runtime)
                  (Fixture.request_msg "calc" "expr" "1+2"))
               (RFloat 3%float) (LRUCache.init 2) in
  outcome (handle_client (rt := number_runtime) Fixture.worlds
             [request +:+ "5"; newline +:+ "6"] None (LRUCache.init 2))
  = (true, lru,
     [reply;
      encode_utf8
        (dumps (rt := number_runtime) true false
           (failure "Malformed: 'int' object has no attribute 'get'")
         +:+ newline)],
     1%nat).
Proof.
  intros request reply lru.
  apply (@non_object_line_closes number_runtime Fixture.worlds
           [request +:+ "5"; newline +:+ "6"] None (LRUCache.init 2)
           request "5" "6" (Conn "" lru [reply] 1) "5" (JInt 5));
    [repeat constructor; done | done | done | done | done | done | done | done].
Defined.

(** ** The forwarder of the proxy *)

Lemma read_reply_newline buf chunks fin :
  has_newline buf = true -> read_reply buf chunks fin = Ok buf.
Proof. intros Hnl. destruct chunks; simpl; by rewrite Hnl. Qed.

(** The loop of the forwarder stops with the first line of what the
    server sends in its buffer, when the server sends a line or closes
    the connection. *)
Lemma read_reply_line fin chunks : forall buf,
  Forall (fun x => x <> "") chunks ->
  has_newline (buf +:+ stream chunks) = true \/ fin = None ->
  exists got, read_reply buf chunks fin = Ok got
    /\ (partition got).1.1 = (partition (buf +:+ stream chunks)).1.1.
Proof.
  induction chunks as [|chunk more IH]; intros buf Hall Hend.
  - simpl stream in *. rewrite append_nil_r in *. exists buf. split; [|done].
    destruct (has_newline buf) eqn:Hnl; [by apply read_reply_newline|].
    destruct Hend as [Hend|Hend]; [congruence|]. subst fin. simpl. by rewrite Hnl.
  - apply Forall_cons in Hall as [Hne Hall].
    destruct (has_newline buf) eqn:Hnl.
    + exists buf. split; [by apply read_reply_newline|].
      by rewrite (partition_app buf _ Hnl).
    + apply String.eqb_neq in Hne. cbn [read_reply]. rewrite Hnl, Hne.
      change (stream (chunk :: more)) with (chunk +:+ stream more) in *.
      rewrite <- append_assoc in *. by apply IH.
Qed.

Lemma read_reply_error e chunks : forall buf,
  Forall (fun x => x <> "") chunks ->
  has_newline (buf +:+ stream chunks) = false ->
  read_reply buf chunks (Some e) = Raise e.
Proof.
  induction chunks as [|chunk more IH]; intros buf Hall Hnl.
  - simpl stream in Hnl. rewrite append_nil_r in Hnl. simpl. by rewrite Hnl.
  - apply Forall_cons in Hall as [Hne Hall].
    change (stream (chunk :: more)) with (chunk +:+ stream more) in Hnl.
    rewrite <- append_assoc in Hnl.
    assert (Hbuf : has_newline buf = false).
    { rewrite !has_newline_app in Hnl.
      by destruct (has_newline buf). }
    apply String.eqb_neq in Hne. cbn [read_reply]. rewrite Hbuf, Hne. by apply IH.
Qed.

Section Forwarder.
Context {rt : Runtime}.

(** X17.  What the forwarder returns is read off the first line of
    the bytes the server sends, however they are cut into pieces and
    whatever follows the line: the line decoded and stripped, or the
    error for an empty line.  When the server closes before a newline,
    the bytes received so far count as the line. *)
Theorem forwarded_reply_is_first_line chunks fin :
  Forall (fun x => x <> "") chunks ->
  has_newline (stream chunks) = true \/ fin = None ->
  forward_request_to_server (Accepted chunks fin) =
    let line := (partition (stream chunks)).1.1 in
    if String.eqb line "" then Raise (Exn RuntimeError "Empty response from server")
    else text ← decode_utf8 utf8_errmsg line; Ok (strip text).
Proof.
  intros Hall Hend.
  destruct (read_reply_line fin chunks "" Hall Hend) as (got & Hgot & Hline).
  unfold forward_request_to_server. rewrite Hgot. simpl.
  change ("" +:+ stream chunks) with (stream chunks) in Hline.
  rewrite <- Hline. by destruct (partition got) as [[line sep] rest].
Qed.

(** X18.  When [recv] fails before a newline has arrived, the error
    is what the forwarder raises: the bytes received so far are not
    taken for a reply. *)
Theorem forward_recv_error_raised chunks e :
  Forall (fun x => x <> "") chunks ->
  has_newline (stream chunks) = false ->
  forward_request_to_server (Accepted chunks (Some e)) = Raise e.
Proof.
  intros Hall Hnl. unfold forward_request_to_server.
  by rewrite read_reply_error.
Qed.
End Forwarder.

Lemma forwarded_reply_is_first_line_witness :
  forward_request_to_server (rt := Fixture.runtime)
    (Accepted [" 5"; "  " +:+ newline +:+ "6"]
       (Some (Exn OSError "timed out")))
  = Ok "5".
Proof.
  apply (@forwarded_reply_is_first_line Fixture.runtime
           [" 5"; "  " +:+ newline +:+ "6"] (Some (Exn OSError "timed out")));
    [repeat constructor; done | by left].
Defined.

Lemma forward_recv_error_raised_witness :
  forward_request_to_server (rt := Fixture.runtime)
    (Accepted ["{"; "}"] (Some (Exn OSError "timed out")))
  = Raise (Exn OSError "timed out").
Proof.
  apply (@forward_recv_error_raised Fixture.runtime ["{"; "}"]);
    [repeat constructor; done | done].
Defined.

(** ** The proxy's connection *)

Section ProxyFraming.
Context {rt : Runtime}.
Implicit Types (c : pconn) (chunks : list bytes) (shared : gmap string string).

Lemma relay_line_grow upstream c x :
  has_newline (pbuffer c) = true ->
  relay_line upstream (pmore_bytes c x) =
    map_progress (fun c' => pmore_bytes c' x) (relay_line upstream c).
Proof.
  intros Hnl. unfold relay_line, pmore_bytes. simpl.
  rewrite (partition_app _ x Hnl).
  destruct (partition (pbuffer c)) as [[line sep] rest]. simpl.
  destruct (request_key line) as [key|e]; [|done].
  destruct (String.eqb key ""); [done|].
  destruct (PROXY_CACHE c !! key) as [base|].
  - destruct (json_loads base) as [obj|e].
    + by destruct (compose_meta obj true ≫= _).
    + by destruct (exn_class_eqb _ _).
  - destruct (forward_request_to_server _) as [base|e]; [|done].
    destruct (json_loads base) as [obj|e].
    + by destruct (compose_meta obj false ≫= _).
    + by destruct (exn_class_eqb _ _).
Qed.

Lemma relay_buffer_grow upstream c x :
  relay_buffer upstream (pmore_bytes c x) =
    match relay_buffer upstream c with
    | Continue c' => relay_buffer upstream (pmore_bytes c' x)
    | Failed c' e => Failed (pmore_bytes c' x) e
    end.
Proof.
  unfold relay_buffer.
  apply (while_lines_grow pbuffer (relay_line upstream) (relay_line_shrinks upstream)
           pmore_bytes (fun _ _ => eq_refl) (relay_line_grow upstream)).
  lia.
Qed.

Lemma relay_buffer_drained upstream c c' :
  relay_buffer upstream c = Continue c' -> has_newline (pbuffer c') = false.
Proof.
  apply (while_lines_drained pbuffer (relay_line upstream)
           (relay_line_shrinks upstream)).
  lia.
Qed.

Lemma precv_loop_join upstream x1 x2 more fin c :
  x1 <> "" -> x2 <> "" ->
  poutcome (precv_loop upstream (x1 :: x2 :: more) fin c)
  = poutcome (precv_loop upstream ((x1 +:+ x2) :: more) fin c).
Proof.
  intros H1 H2.
  assert (H12 : x1 +:+ x2 <> "") by (by apply append_nonempty).
  apply String.eqb_neq in H1, H2, H12.
  cbn [precv_loop]. rewrite H1, H2, H12.
  change (PConn (pbuffer c +:+ x1) (PROXY_CACHE c) (psent c) (forwarded c))
    with (pmore_bytes c x1).
  assert (Hall : PConn (pbuffer c +:+ x1 +:+ x2) (PROXY_CACHE c) (psent c)
                   (forwarded c)
                 = pmore_bytes (pmore_bytes c x1) x2)
    by (unfold pmore_bytes; simpl; by rewrite append_assoc).
  rewrite Hall, (relay_buffer_grow upstream (pmore_bytes c x1) x2).
  destruct (relay_buffer upstream (pmore_bytes c x1)) as [c'|c' e]; done.
Qed.

Lemma precv_loop_stream upstream fin chunks : forall chunk c,
  chunk <> "" -> Forall (fun x => x <> "") chunks ->
  poutcome (precv_loop upstream (chunk :: chunks) fin c)
  = poutcome (precv_loop upstream [chunk +:+ stream chunks] fin c).
Proof.
  induction chunks as [|x2 more IH]; intros chunk c Hne Hall.
  - simpl stream. by rewrite append_nil_r.
  - apply Forall_cons in Hall as [H2 Hall].
    rewrite precv_loop_join by done.
    rewrite IH by (by try apply append_nonempty).
    simpl stream. by rewrite append_assoc.
Qed.

(** A connection whose bytes are [before] and then [tail]: when the
    proxy has handled [before] to its last byte and the turn on the
    first line of [tail] fails, the connection ends as the [except]
    branch leaves it, however the bytes were cut into pieces and
    whatever [recv] would have done after them. *)
Lemma handle_fails_at upstream chunks fin shared before tail c0 c1 e :
  Forall (fun x => x <> "") chunks -> stream chunks = before +:+ tail ->
  relay_buffer upstream (PConn before shared [] []) = Continue c0 ->
  pbuffer c0 = "" -> has_newline tail = true ->
  relay_line upstream (PConn tail (PROXY_CACHE c0) (psent c0) (forwarded c0))
    = Failed c1 e ->
  poutcome (handle upstream chunks fin shared) = poutcome (pon_exception c1 e).
Proof.
  intros Hall Hs Hbefore Hdone Htail Hturn. unfold handle.
  destruct chunks as [|chunk more].
  { clear Hbefore Hturn. by destruct before, tail. }
  apply Forall_cons in Hall as [Hne Hall].
  rewrite precv_loop_stream by done.
  change (chunk +:+ stream more) with (stream (chunk :: more)). rewrite Hs.
  assert (Hfull : before +:+ tail <> "").
  { clear Hbefore Hturn Hs. intros Hnil. by destruct before, tail. }
  cbn [precv_loop]. apply String.eqb_neq in Hfull. rewrite Hfull.
  change (PConn (pbuffer (PConn "" shared [] []) +:+ before +:+ tail)
                (PROXY_CACHE (PConn "" shared [] [])) (psent (PConn "" shared [] []))
                (forwarded (PConn "" shared [] [])))
    with (pmore_bytes (PConn before shared [] []) tail).
  rewrite relay_buffer_grow, Hbefore.
  assert (Hc0 : pmore_bytes c0 tail
                = PConn tail (PROXY_CACHE c0) (psent c0) (forwarded c0))
    by (unfold pmore_bytes; by rewrite Hdone).
  rewrite Hc0, relay_buffer_turn by done. by rewrite Hturn.
Qed.

(** *** The cache and the log *)

Lemma stored_is_fresh shared c : forwarded_stored shared c -> forwarded_fresh shared c.
Proof. by intros [? _]. Qed.

Lemma miss_fresh shared c key b s store :
  forwarded_stored shared c -> PROXY_CACHE c !! key = None ->
  PROXY_CACHE c ⊆ store ->
  forwarded_fresh shared (PConn b store s (forwarded c ++ [key])).
Proof.
  intros [(Hsub & Hnd & Hnew) Hin] Hmiss Hstore. unfold forwarded_fresh. simpl.
  split; [by etrans|]. split.
  - apply NoDup_app. split; [done|]. split; [|apply NoDup_singleton].
    intros k Hk ->%list_elem_of_singleton.
    destruct (Hin _ Hk) as [v Hv]. congruence.
  - intros k [Hk| ->%list_elem_of_singleton]%elem_of_app; [by apply Hnew|].
    by apply (lookup_weaken_None _ _ _ Hmiss).
Qed.

Lemma miss_stored shared c key base b s :
  forwarded_stored shared c -> PROXY_CACHE c !! key = None ->
  forwarded_stored shared
    (PConn b (<[key := base]> (PROXY_CACHE c)) s (forwarded c ++ [key])).
Proof.
  intros Hc Hmiss. split.
  - apply miss_fresh; [done|done|]. by apply insert_subseteq.
  - simpl. intros k Hk. apply lookup_insert_is_Some.
    destruct (decide (key = k)) as [|Hne]; [by left|]. right. split; [done|].
    apply elem_of_app in Hk as [Hk| ->%list_elem_of_singleton]; [|done].
    by apply Hc.
Qed.

Lemma relay_line_fresh upstream shared c :
  forwarded_stored shared c ->
  match relay_line upstream c with
  | Continue c' => forwarded_stored shared c'
  | Failed c' _ => forwarded_fresh shared c'
  end.
Proof.
  intros Hc. pose proof (stored_is_fresh _ _ Hc) as Hf.
  unfold relay_line.
  destruct (partition (pbuffer c)) as [[line sep] rest]. simpl.
  destruct (request_key line) as [key|e]; [|done].
  destruct (String.eqb key ""); [done|].
  destruct (PROXY_CACHE c !! key) as [base|] eqn:Hkey.
  - destruct (json_loads base) as [obj|e].
    + by destruct (compose_meta obj true ≫= _).
    + by destruct (exn_class_eqb _ _).
  - pose proof (miss_fresh shared c key rest (psent c) (PROXY_CACHE c) Hc Hkey
                  (reflexivity _)) as Hlog.
    destruct (forward_request_to_server _) as [base|e]; [|done].
    pose proof (miss_stored shared c key base rest (psent c) Hc Hkey) as Hst.
    pose proof (stored_is_fresh _ _ Hst) as Hst'.
    destruct (json_loads base) as [obj|e].
    + by destruct (compose_meta obj false ≫= _).
    + by destruct (exn_class_eqb _ _).
Qed.

Lemma relay_buffer_fresh upstream shared c :
  forwarded_stored shared c ->
  match relay_buffer upstream c with
  | Continue c' => forwarded_stored shared c'
  | Failed c' _ => forwarded_fresh shared c'
  end.
Proof.
  intros Hc. unfold relay_buffer.
  apply (while_lines_invariant pbuffer (relay_line upstream)
           (forwarded_stored shared) (forwarded_fresh shared)); [| |done].
  - intros c0 c' _ H0 Ht. pose proof (relay_line_fresh upstream shared c0 H0) as H.
    by rewrite Ht in H.
  - intros c0 c' e _ H0 Ht. pose proof (relay_line_fresh upstream shared c0 H0) as H.
    by rewrite Ht in H.
Qed.

Lemma precv_loop_fresh upstream shared fin chunks : forall c,
  forwarded_stored shared c ->
  match precv_loop upstream chunks fin c with
  | PeerClosed c' => forwarded_stored shared c'
  | Aborted c' => forwarded_fresh shared c'
  end.
Proof.
  induction chunks as [|chunk more IH]; intros c Hc.
  { destruct fin; [by apply stored_is_fresh | done]. }
  cbn [precv_loop]. destruct (String.eqb chunk ""); [done|].
  pose proof (relay_buffer_fresh upstream shared
                (PConn (pbuffer c +:+ chunk) (PROXY_CACHE c) (psent c) (forwarded c))
                Hc) as Hrun.
  destruct (relay_buffer upstream _) as [c'|c' e]; [by apply IH | done].
Qed.

(** X19.  How the bytes of a client connection are cut into pieces
    does not matter to the proxy either: the lines written, the cache,
    the requests forwarded and whether the connection was aborted are
    those of the same bytes received in one piece. *)
Theorem proxy_chunking_does_not_matter upstream chunks shared :
  Forall (fun x => x <> "") chunks ->
  poutcome (handle upstream chunks None shared)
  = poutcome (handle upstream [stream chunks] None shared).
Proof.
  intros Hall. unfold handle. destruct chunks as [|chunk more]; [done|].
  apply Forall_cons in Hall as [Hne Hall]. by apply precv_loop_stream.
Qed.

(** X20.  Over one connection, however it ends, the proxy changes and
    drops no entry of the cache it started on, forwards no request text
    twice and forwards nothing that the cache held at the start; when
    the client closes the connection, every request forwarded is in the
    cache. *)
Theorem proxy_forwards_once_and_keeps_entries upstream chunks fin shared :
  let c := final (handle upstream chunks fin shared) in
  shared ⊆ PROXY_CACHE c
  /\ NoDup (forwarded c)
  /\ (forall k, k ∈ forwarded c -> shared !! k = None)
  /\ match handle upstream chunks fin shared with
     | PeerClosed c => forall k, k ∈ forwarded c -> is_Some (PROXY_CACHE c !! k)
     | Aborted _ => True
     end.
Proof.
  assert (Hstart : forwarded_stored shared (PConn "" shared [] [])).
  { split; [split; [done|]; split; [apply NoDup_nil_2|] |];
      by intros k ?%elem_of_nil. }
  pose proof (precv_loop_fresh upstream shared fin chunks _ Hstart) as Hrun.
  unfold handle.
  destruct (precv_loop upstream chunks fin _) as [c|c]; simpl.
  - destruct Hrun as [(? & ? & ?) ?]. by repeat split.
  - destruct Hrun as (? & ? & ?). by repeat split.
Qed.

(** X21.  When the forwarder raises on a request that is not in the
    cache, wherever the request stands in the bytes of the connection
    and however [recv] cuts them into pieces, the connection ends: one
    failure envelope with the error is written after the replies to the
    lines before, nothing is cached for the request, and the lines
    after it are not handled. *)
Theorem failed_forward_aborts upstream chunks fin shared before line rest c0 key e :
  Forall (fun x => x <> "") chunks ->
  stream chunks = before +:+ line +:+ newline +:+ rest ->
  has_newline line = false ->
  relay_buffer upstream (PConn before shared [] []) = Continue c0 ->
  pbuffer c0 = "" ->
  request_key line = Ok key -> key <> "" ->
  PROXY_CACHE c0 !! key = None ->
  forward_request_to_server (upstream (length (forwarded c0)) key) = Raise e ->
  let envelope := failure ("Proxy error: " +:+ exn_msg e) in
  poutcome (handle upstream chunks fin shared)
  = (true, PROXY_CACHE c0,
     (psent c0 ++ [encode_utf8 (dumps true false envelope +:+ newline)])%list,
     (forwarded c0 ++ [key])%list).
Proof.
  intros Hall Hs Hline Hbefore Hdone Hkey Hne Hmiss Hfwd envelope.
  destruct (partition_line line rest Hline) as [Hnl _].
  rewrite (handle_fails_at upstream chunks fin shared before
             (line +:+ newline +:+ rest) c0
             (PConn rest (PROXY_CACHE c0) (psent c0) (forwarded c0 ++ [key])) e);
    try done.
  rewrite (relay_line_miss upstream
             (PConn (line +:+ newline +:+ rest) (PROXY_CACHE c0) (psent c0)
                    (forwarded c0))
             line rest key Hline eq_refl Hkey Hne Hmiss).
  simpl. by rewrite Hfwd.
Qed.

(** X22.  A reply of the server that is not JSON is cached and
    written to the client as it is, and written as it is again when
    the request comes back: no flag tells the two apart. *)
Theorem non_json_reply_relayed_verbatim upstream c line rest key base ex :
  has_newline line = false -> pbuffer c = line +:+ newline +:+ rest ->
  request_key line = Ok key -> key <> "" ->
  PROXY_CACHE c !! key = None ->
  forward_request_to_server (upstream (length (forwarded c)) key) = Ok base ->
  json_loads base = Raise ex -> exn_cls ex = JSONDecodeError ->
  let wire := encode_utf8 (base +:+ newline) in
  let c' := PConn rest (<[key := base]> (PROXY_CACHE c)) (psent c ++ [wire])
              (forwarded c ++ [key]) in
  relay_line upstream c = Continue c'
  /\ forall upstream' rest',
       relay_line upstream' (PConn (line +:+ newline +:+ rest') (PROXY_CACHE c')
                               (psent c') (forwarded c'))
       = Continue (PConn rest' (PROXY_CACHE c') (psent c' ++ [wire]) (forwarded c')).
Proof.
  intros Hline Hbuf Hkey Hne Hmiss Hfwd Hload Hcls wire c'. split.
  - rewrite (relay_line_miss upstream c line rest key) by done.
    simpl. by rewrite Hfwd, Hload, Hcls.
  - intros upstream' rest'.
    rewrite (relay_line_hit upstream' _ line rest' key base); try done.
    + simpl. by rewrite Hload, Hcls.
    + simpl. by rewrite lookup_insert_eq.
Qed.

(** X23.  A reply of the server that is valid JSON but not an object
    is cached before the proxy looks at it: the connection is aborted
    with an error naming the missing [get], and so is every later
    connection, on a cache that holds the entry, when it comes to a
    line with the same request text, without the server being asked
    again; wherever the line stands in the bytes of the connection and
    however [recv] cuts them into pieces. *)
Theorem non_object_reply_aborts_again upstream chunks fin shared before line rest c0
    key base j :
  Forall (fun x => x <> "") chunks ->
  stream chunks = before +:+ line +:+ newline +:+ rest ->
  has_newline line = false ->
  relay_buffer upstream (PConn before shared [] []) = Continue c0 ->
  pbuffer c0 = "" ->
  request_key line = Ok key -> key <> "" ->
  PROXY_CACHE c0 !! key = None ->
  forward_request_to_server (upstream (length (forwarded c0)) key) = Ok base ->
  json_loads base = Ok j -> is_dict j = false ->
  let err := encode_utf8
               (dumps true false
                  (failure ("Proxy error: '" +:+ type_name j
                            +:+ "' object has no attribute 'get'"))
                +:+ newline) in
  poutcome (handle upstream chunks fin shared)
  = (true, <[key := base]> (PROXY_CACHE c0), (psent c0 ++ [err])%list,
     (forwarded c0 ++ [key])%list)
  /\ forall upstream' chunks' fin' shared' before' line' rest' c0',
       Forall (fun x => x <> "") chunks' ->
       stream chunks' = before' +:+ line' +:+ newline +:+ rest' ->
       has_newline line' = false ->
       relay_buffer upstream' (PConn before' shared' [] []) = Continue c0' ->
       pbuffer c0' = "" ->
       request_key line' = Ok key -> shared' !! key = Some base ->
       poutcome (handle upstream' chunks' fin' shared')
       = (true, PROXY_CACHE c0', (psent c0' ++ [err])%list, forwarded c0').
Proof.
  intros Hall Hs Hline Hbefore Hdone Hkey Hne Hmiss Hfwd Hload Hj err. split.
  - destruct (partition_line line rest Hline) as [Hnl _].
    rewrite (handle_fails_at upstream chunks fin shared before
               (line +:+ newline +:+ rest) c0
               (PConn rest (<[key := base]> (PROXY_CACHE c0)) (psent c0)
                      (forwarded c0 ++ [key]))
               (no_get j)); try done.
    rewrite (relay_line_miss upstream
               (PConn (line +:+ newline +:+ rest) (PROXY_CACHE c0) (psent c0)
                      (forwarded c0))
               line rest key Hline eq_refl Hkey Hne Hmiss).
    simpl. rewrite Hfwd, Hload. by rewrite compose_meta_not_dict.
  - intros upstream' chunks' fin' shared' before' line' rest' c0'
      Hall' Hs' Hline' Hbefore' Hdone' Hkey' Hheld.
    assert (Hstart : forwarded_stored shared' (PConn before' shared' [] [])).
    { split; [split; [done|]; split; [apply NoDup_nil_2|] |];
        by intros k ?%elem_of_nil. }
    pose proof (relay_buffer_fresh upstream' shared' _ Hstart) as Hinv.
    rewrite Hbefore' in Hinv. destruct Hinv as [[Hsub _] _].
    pose proof (lookup_weaken _ _ _ _ Hheld Hsub) as Hhit.
    destruct (partition_line line' rest' Hline') as [Hnl _].
    rewrite (handle_fails_at upstream' chunks' fin' shared' before'
               (line' +:+ newline +:+ rest') c0'
               (PConn rest' (PROXY_CACHE c0') (psent c0') (forwarded c0'))
               (no_get j)); try done.
    rewrite (relay_line_hit upstream'
               (PConn (line' +:+ newline +:+ rest') (PROXY_CACHE c0') (psent c0')
                      (forwarded c0'))
               line' rest' key base Hline' eq_refl Hkey' Hne Hhit).
    simpl. rewrite Hload. by rewrite compose_meta_not_dict.
Qed.
End ProxyFraming.

Lemma proxy_chunking_does_not_matter_witness :
  let line := Fixture.request_text "calc" "expr" "1+2" +:+ newline in
  let chunks := ["{"; String.substring 1 (String.length line) line] in
  stream chunks = line
  /\ poutcome (handle (rt := Fixture.runtime) Fixture.upstream chunks None ∅)
     = poutcome (handle (rt := Fixture.runtime) Fixture.upstream [stream chunks]
                   None ∅).
Proof.
  intros line chunks. split; [done|].
  apply (@proxy_chunking_does_not_matter Fixture.runtime Fixture.upstream chunks ∅).
  repeat constructor; done.
Defined.

Lemma failed_forward_aborts_witness :
  let refused := Exn OSError "[Errno 111] Connection refused" in
  let down : nat -> str -> upstream_conn := fun _ _ => Refused refused in
  poutcome (handle (rt := Fixture.runtime) down
              [" " +:+ newline +:+ "h"; "i" +:+ newline +:+ "again"; newline]
              None ∅)
  = (true, ∅,
     [encode_utf8
        (dumps (rt := Fixture.runtime) true false
           (failure "Proxy error: [Errno 111] Connection refused")
         +:+ newline)],
     ["hi"]).
Proof.
  intros refused down.
  apply (@failed_forward_aborts Fixture.runtime down
           [" " +:+ newline +:+ "h"; "i" +:+ newline +:+ "again"; newline]
           None ∅ (" " +:+ newline) "hi" ("again" +:+ newline)
           (PConn "" ∅ [] []) "hi" refused);
    [repeat constructor; done | done | done | done | done | done | done
    | apply lookup_empty | done].
Defined.

Lemma non_json_reply_relayed_verbatim_witness :
  let plain : nat -> str -> upstream_conn :=
    fun _ _ => Accepted ["oops" +:+ newline] None in
  relay_line (rt := Fixture.runtime) plain (PConn ("hi" +:+ newline) ∅ [] [])
  = Continue (PConn "" (<["hi" := "oops"]> ∅) [encode_utf8 ("oops" +:+ newline)]
                ["hi"]).
Proof.
  intros plain.
  apply (@non_json_reply_relayed_verbatim Fixture.runtime plain
           (PConn ("hi" +:+ newline) ∅ [] []) "hi" "" "hi" "oops"
           (Exn JSONDecodeError "Expecting value: line 1 column 1 (char 0)"));
    try done.
Defined.

Lemma non_object_reply_aborts_again_witness :
  let five : nat -> str -> upstream_conn :=
    fun _ _ => Accepted ["5" +:+ newline] None in
  poutcome (handle (rt := number_runtime) five
              [" " +:+ newline +:+ "h"; "i" +:+ newline] None ∅)
  = (true, <["hi" := "5"]> ∅,
     [encode_utf8
        (dumps (rt := number_runtime) true false
           (failure "Proxy error: 'int' object has no attribute 'get'")
         +:+ newline)],
     ["hi"]).
Proof.
  intros five.
  apply (@non_object_reply_aborts_again number_runtime five
           [" " +:+ newline +:+ "h"; "i" +:+ newline] None ∅
           (" " +:+ newline) "hi" "" (PConn "" ∅ [] []) "hi" "5" (JInt 5));
    [repeat constructor; done | done | done | done | done | done | done
    | apply lookup_empty | done | done | done].
Defined.

(** ** The metadata step *)

Section Decoration.
Context {rt : Runtime}.

(** X24.  On an object the metadata step never fails, and it touches
    nothing but the two flags: every other field of the reply, and
    every other field of a [meta] that is an object, comes out as it
    went in. *)
Theorem decoration_keeps_other_fields (reply : list (str * json)) (hit : bool) :
  exists obj meta,
    compose_meta (JDict reply) hit = Ok (JDict obj)
    /\ dict_get "meta" obj = Some (JDict meta)
    /\ (forall k, k <> "meta" -> dict_get k obj = dict_get k reply)
    /\ (forall k, k <> "proxy_from_cache" -> k <> "any_cache" ->
          dict_get k meta = dict_get k (reply_meta reply)).
Proof.
  eexists _, _. split; [apply compose_meta_dict|].
  split; [apply dict_get_set_eq|]. split.
  - intros k Hk. by apply dict_get_set_ne.
  - intros k Hp Ha. by rewrite !dict_get_set_ne.
Qed.
End Decoration.

(** ** The client *)



Section ClientFacts.
Context {rt : Runtime}.


End ClientFacts.



(** ** From one end to the other *)

Section EndToEnd.
Context {rt : Runtime}.

(** A connection over which one request line is sent and answered. *)
Lemma handle_client_one_line worlds shared line text msg resp lru :
  has_newline line = false ->
  decode_utf8 utf8_errmsg line = Ok text -> json_loads text = Ok msg ->
  handle_request (worlds O) msg shared = Ok (resp, lru) ->
  handle_client worlds [line +:+ newline] None shared
  = PeerClosed (Conn "" lru [encode_utf8 (dumps false false resp +:+ newline)] 1).
Proof.
  intros Hline Hdec Hload Hreq. unfold handle_client.
  assert (Hfull : line +:+ newline <> "") by (by destruct line).
  cbn [recv_loop]. apply String.eqb_neq in Hfull. rewrite Hfull.
  set (c1 := Conn ("" +:+ line +:+ newline) shared [] 0).
  rewrite (serve_buffer_turn worlds c1) by (by apply (partition_line line "")).
  rewrite (serve_line_parsed worlds c1 line "" text msg) by done.
  simpl. rewrite Hreq. unfold serve_buffer. by rewrite while_lines_exit.
Qed.

(** X27.  A result computed over one connection is served from the
    cache over a later connection that starts on the cache the first
    one left: the same request line gets the same result there, with
    [from_cache] and [any_cache] true, and the cache stays as it is. *)
Theorem result_shared_with_later_connection worlds worlds' shared line text d r lru :
  has_newline line = false ->
  decode_utf8 utf8_errmsg line = Ok text -> json_loads text = Ok (JDict d) ->
  use_cache d = true -> 1 <= LRUCache.capacity shared ->
  handle_request (worlds O) (JDict d) shared
    = Ok (success r false (took_ms (worlds O)), lru) ->
  let reply (hit : bool) (w : world) :=
    encode_utf8 (dumps false false (success r hit (took_ms w)) +:+ newline) in
  handle_client worlds [line +:+ newline] None shared
    = PeerClosed (Conn "" lru [reply false (worlds O)] 1)
  /\ handle_client worlds' [line +:+ newline] None lru
     = PeerClosed (Conn "" lru [reply true (worlds' O)] 1).
Proof.
  intros Hline Hdec Hload Hu Hcap Hfirst reply. split.
  - by apply (handle_client_one_line worlds shared line text (JDict d)).
  - apply (handle_client_one_line worlds' lru line text (JDict d)); try done.
    destruct (options_answered _ _ _ _ Hfirst) as [[c Hc] Hk].
    destruct (handle_request_cases _ _ _ _ _ Hfirst)
      as [(v & _ & _ & [=])|[_ [(m & [=] & _)|(res & [= ->] & ->)]]].
    unfold store_result. rewrite Hu.
    apply (handle_request_hit (worlds' O) d _ c); [done | done | done |].
    by apply get_after_set.
Qed.

(** X28.  [request] against the server: when the text the client
    writes parses on the server's side and the server's reply holds no
    raw newline, the client gets what the text of the reply parses to,
    and the server has handled one request. *)
Theorem client_gets_the_server_reply worlds shared payload text msg resp lru :
  let wire := dumps false false payload in
  let server (data : bytes) :=
    Accepted (sent (final (handle_client worlds [data] None shared))) None in
  has_newline wire = false ->
  decode_utf8 utf8_errmsg wire = Ok text -> json_loads text = Ok msg ->
  handle_request (worlds O) msg shared = Ok (resp, lru) ->
  has_newline (dumps false false resp) = false ->
  request server payload =
    (back ← decode_utf8 utf8_errmsg (dumps false false resp); json_loads back).
Proof.
  intros wire server Hwire Hdec Hload Hreq Hreply.
  unfold request, server, encode_utf8. fold wire.
  rewrite (handle_client_one_line worlds shared wire text msg resp lru) by done.
  simpl final. simpl sent. unfold encode_utf8.
  assert (Hne : dumps false false resp +:+ newline <> "")
    by (by destruct (dumps false false resp)).
  apply String.eqb_neq in Hne. cbn [read_response]. rewrite Hne.
  change ("" +:+ dumps false false resp +:+ newline)
    with (dumps false false resp +:+ newline).
  destruct (partition_line (dumps false false resp) "" Hreply) as [Hnl Hpart].
  change (newline +:+ "") with newline in Hnl, Hpart.
  by rewrite Hnl, Hpart.
Qed.
End EndToEnd.

Lemma result_shared_with_later_connection_witness :
  let line := Fixture.request_text "calc" "expr" "1+2" in
  let lru := LRUCache.set
               (key_text (rt := Fixture.runtime)
                  (Fixture.request_msg "calc" "expr" "1+2"))
               (RFloat 3%float) (LRUCache.init 2) in
  handle_client (rt := Fixture.runtime) Fixture.worlds [line +:+ newline] None lru
  = PeerClosed
      (Conn "" lru
         [encode_utf8
            (dumps (rt := Fixture.runtime) false false
               (success (JFloat 3%float) true 0) +:+ newline)] 1).
Proof.
  intros line lru.
  apply (@result_shared_with_later_connection Fixture.runtime Fixture.worlds
           Fixture.worlds (LRUCache.init 2) line line
           [("mode", JStr "calc"); ("data", JDict [("expr", JStr "1+2")])]
           (JFloat 3%float) lru); try done.
Defined.

Lemma client_gets_the_server_reply_witness :
  let server (data : bytes) :=
    Accepted (sent (final (handle_client (rt := Fixture.runtime) Fixture.worlds
                             [data] None (LRUCache.init 2)))) None in
  request (rt := Fixture.runtime) server (Fixture.request_msg "calc" "expr" "1+2")
  = Ok (success (JFloat 3%float) false 0).
Proof.
  intros server.
  apply (@client_gets_the_server_reply Fixture.runtime Fixture.worlds
           (LRUCache.init 2) (Fixture.request_msg "calc" "expr" "1+2")
           (Fixture.request_text "calc" "expr" "1+2")
           (Fixture.request_msg "calc" "expr" "1+2")
           (success (JFloat 3%float) false 0)
           (LRUCache.set
              (key_text (rt := Fixture.runtime)
                 (Fixture.request_msg "calc" "expr" "1+2"))
              (RFloat 3%float) (LRUCache.init 2))); done.
Defined.
